(** * appium-base-driver, [lib/basedriver/helpers.js]: application acquisition

    A shallow embedding of [configureApp] and of the functions it calls
    ([retrieveHeaders], [getCachedApplicationPath], [verifyAppExtension],
    [downloadApp], [unzipApp]) together with the process-wide
    [APPLICATIONS_CACHE] and the handler that sweeps it when the process
    exits; and of [isPackageOrBundle] and [duplicateKeys].

    Conventions of the model.
    - JavaScript strings are [string]; [null] and [undefined] are [None].
    - The asynchronous body of [configureApp] runs under the per-key lock
      [APPLICATIONS_CACHE_GUARD]; one call is one state transformer on
      [State] (file system, cache, count of temporary directories, and a
      ghost trace of the requests and extractions made).  Every [await]
      is a sequencing point of that transformer.
    - Calls in flight are the phases of a [Config].  A callback is a
      [Proc]: the state transformer cut at [await]s, between which it
      runs in one go.  The scheduler ([fire], [exec]) picks the call that
      moves next.  The lock is async-lock's with the options of line 35:
      one queue per key, first come first served, bounded by
      [maxPending] (1000 unless the library says otherwise), no
      timeouts.  Calls are numbered in the order they reach the lock.  A
      call that finds its key free starts its callback in the same turn
      of the event loop; the model lets other calls move in between,
      which only adds interleavings.
    - [APPLICATIONS_CACHE] is the finite map of the entries that [has]
      reports; the 24h age bookkeeping of lru-cache is not part of it, and
      no [max] is configured, so nothing is evicted by count.  The
      [dispose] hook, which [del] calls, runs at the point of the [del].
    - Collaborators outside the file (HTTP, [url], sanitize-filename, and
      the fs, zip and tempDir of appium-support) are the fields of [Env];
      file-system calls other than [fs.hash], [fs.mv] and the zip calls
      do not fail.  [tempDir.openDir] makes the next directory of
      [tmp_dir], [tempDir.path] names a file inside such a directory.
    - Node's [path] module is modelled for POSIX in [Module path], and
      [Array.prototype.sort] is stable.
    - In the exit handler [fs.rimrafSync] may throw; [fails] tells for
      which paths it does.
    - A regular expression anchored at both ends is a [regex], and [test]
      decides, by derivatives, whether the whole string is one of its
      words.
    - [duplicateKeys] walks a [Json]: a plain object is the list of its
      own properties in insertion order, each key once (integer-like
      keys, which JavaScript enumerates first, are not told apart); what
      is neither an array nor a plain object is one of the other
      constructors.  Assignments are those of ordinary keys: the key
      [__proto__], which the setter of [Object.prototype] takes, is
      excluded where the members of a result are described. *)

From Stdlib Require Import ZArith Ascii String List Bool Lia Permutation Sorted.
From stdpp Require Import base option gmap strings list fin_maps.

Local Open Scope string_scope.
Local Open Scope list_scope.

(** ** Characters and strings *)

Definition chars (s : string) : list ascii := list_ascii_of_string s.
Definition str (l : list ascii) : string := string_of_list_ascii l.

(** A JavaScript string is truthy when it is not empty. *)
Definition truthy (s : string) : bool :=
  match s with EmptyString => false | String _ _ => true end.

(** [l.includes(x)] on an array of strings. *)
Definition includes (l : list string) (x : string) : bool :=
  existsb (String.eqb x) l.

(** ASCII case folding, as the [i] flag of a regular expression does. *)
Definition lower (c : ascii) : ascii :=
  let n := nat_of_ascii c in
  if (65 <=? n)%nat && (n <=? 90)%nat then ascii_of_nat (n + 32) else c.

(** [\w] of a regular expression. *)
Definition is_word (c : ascii) : bool :=
  let n := nat_of_ascii c in
  ((48 <=? n)%nat && (n <=? 57)%nat) || ((65 <=? n)%nat && (n <=? 90)%nat)
  || ((97 <=? n)%nat && (n <=? 122)%nat) || (n =? 95)%nat.

(** [p] is a prefix of [l]; [ci] compares modulo ASCII case. *)
Fixpoint starts_with (ci : bool) (p l : list ascii) : bool :=
  match p, l with
  | [], _ => true
  | _ :: _, [] => false
  | a :: p', b :: l' =>
      (if ci then Ascii.eqb (lower a) (lower b) else Ascii.eqb a b)
      && starts_with ci p' l'
  end.

(** ** Node's [path] module (POSIX flavour) *)

Module path.

Definition sep : ascii := "/"%char.

(** [s.split(path.sep)]: the segments between separators; never empty. *)
Fixpoint split (l : list ascii) : list (list ascii) :=
  match l with
  | [] => [[]]
  | c :: r =>
      if Ascii.eqb c sep then [] :: split r
      else match split r with
           | seg :: segs => (c :: seg) :: segs
           | [] => [[c]]
           end
  end.

Definition nonempty (seg : list ascii) : bool :=
  match seg with [] => false | _ => true end.

(** Number of segments of [a.split(path.sep)]. *)
Definition depth (p : string) : nat := length (split (chars p)).

(** [path.basename(p)]: the last component, trailing separators ignored. *)
Definition basename_chars (p : list ascii) : list ascii :=
  List.last (List.filter nonempty (split p)) [].

Definition basename (p : string) : string := str (basename_chars (chars p)).

(** The suffix of [l] that starts at its last dot, if it has one. *)
Fixpoint from_last_dot (l : list ascii) : option (list ascii) :=
  match l with
  | [] => None
  | c :: r =>
      match from_last_dot r with
      | Some s => Some s
      | None => if Ascii.eqb c "."%char then Some (c :: r) else None
      end
  end.

(** [path.extname(p)]: from the last dot of the last component to its
    end; empty when there is no dot, when the only dot is the first
    character of the component, and for the component [".."]. *)
Definition extname_chars (p : list ascii) : list ascii :=
  match basename_chars p with
  | [] => []
  | c :: r =>
      if String.eqb (str (c :: r)) ".." then []
      else match from_last_dot r with Some s => s | None => [] end
  end.

Definition extname (p : string) : string := str (extname_chars (chars p)).

Definition isAbsolute (p : string) : bool :=
  match p with
  | String c _ => Ascii.eqb c sep
  | EmptyString => false
  end.

(** [normalizeString] below the root: empty and ["."] segments vanish and
    [".."] removes the segment before it. *)
Definition norm_step (stack : list (list ascii)) (seg : list ascii)
  : list (list ascii) :=
  match seg with
  | [] => stack
  | [d] => if Ascii.eqb d "."%char then stack else seg :: stack
  | [d1; d2] =>
      if Ascii.eqb d1 "."%char && Ascii.eqb d2 "."%char then List.tl stack
      else seg :: stack
  | _ => seg :: stack
  end.

Definition normalize (segs : list (list ascii)) : list (list ascii) :=
  List.rev (List.fold_left norm_step segs []).

Fixpoint join (segs : list (list ascii)) : list ascii :=
  match segs with
  | [] => []
  | [s] => s
  | s :: rest => s ++ sep :: join rest
  end.

(** [path.resolve(a, b)] in a process whose working directory is the
    absolute path [cwd]: arguments are taken from the right until an
    absolute one is found, then the whole is normalised. *)
Definition resolve (cwd a b : string) : string :=
  let parts :=
    if isAbsolute b then [b]
    else if isAbsolute a then [a; b]
    else [cwd; a; b] in
  str (sep :: join (normalize (List.concat (List.map (fun p => split (chars p)) parts)))).

End path.

(** ** Header inspection (the regular expressions of [configureApp]) *)

Definition dquote : ascii := ascii_of_nat 34.

(** [/^attachment/i.test(cd)] *)
Definition is_attachment (cd : string) : bool :=
  starts_with true (chars "attachment") (chars cd).

Fixpoint until_quote (l : list ascii) : list ascii :=
  match l with
  | [] => []
  | c :: r => if Ascii.eqb c dquote then [] else c :: until_quote r
  end.

(** The pattern [filename="([^"]+)] anchored at the head of [l]. *)
Definition filename_here (l : list ascii) : option (list ascii) :=
  let key := chars "filename=" ++ [dquote] in
  if starts_with true key l then
    match until_quote (List.skipn (length key) l) with
    | [] => None
    | c :: r => Some (c :: r)
    end
  else None.

(** [/filename="([^"]+)/i.exec(cd)]: the capture group of the leftmost
    match, [None] when the pattern does not occur. *)
Fixpoint filename_exec (l : list ascii) : option (list ascii) :=
  match filename_here l with
  | Some cap => Some cap
  | None => match l with [] => None | _ :: r => filename_exec r end
  end.

Definition word_opt (c : option ascii) : bool :=
  match c with Some a => is_word a | None => false end.

(** [\b] between two neighbouring positions. *)
Definition boundary (before after : option ascii) : bool :=
  xorb (word_opt before) (word_opt after).

(** The literal [m] at the head of [l], with a [\b] on either side;
    [prev] is the character before [l]. *)
Definition bounded_here (m : list ascii) (prev : option ascii) (l : list ascii)
  : bool :=
  starts_with false m l
  && boundary prev (List.hd_error l)
  && boundary (List.last (List.map Some m) prev)
              (List.hd_error (List.skipn (length m) l)).

(** [new RegExp('\\b' + _.escapeRegExp(m) + '\\b').test(l)] *)
Fixpoint bounded_occurrence (m : list ascii) (prev : option ascii) (l : list ascii)
  : bool :=
  bounded_here m prev l
  || match l with
     | [] => false
     | c :: r => bounded_occurrence m (Some c) r
     end.

Definition ZIP_EXTS : list string := [".zip"; ".ipa"].
Definition ZIP_MIME_TYPES : list string :=
  ["application/zip"; "application/x-zip-compressed"; "multipart/x-zip"].
Definition SANITIZE_REPLACEMENT : string := "-".
Definition DEFAULT_BASENAME : string := "appium-app".

(** [ZIP_MIME_TYPES.some((mimeType) => new RegExp(...).test(ct))] *)
Definition is_zip_mime (ct : string) : bool :=
  existsb (fun m => bounded_occurrence (chars m) None (chars ct)) ZIP_MIME_TYPES.

(** ** Data model *)

(** The values [configureApp] can receive as its [app] argument. *)
Inductive JSValue :=
| JSUndefined
| JSNull
| JSBoolean (b : bool)
| JSNumber (n : Z)
| JSString (s : string)
| JSArray (items : list string)
| JSObject (fields : list (string * string)).

(** [_.isString] *)
Definition isString (v : JSValue) : bool :=
  match v with JSString _ => true | _ => false end.

(** [supportedAppExtensions]: one extension or an array of them. *)
Inductive Extensions :=
| OneExtension (ext : string)
| ExtensionArray (exts : list string).

(** [if (!_.isArray(x)) x = [x]] *)
Definition toArray (x : Extensions) : list string :=
  match x with
  | OneExtension ext => [ext]
  | ExtensionArray exts => exts
  end.

(** A [Date]; [getTime] is [None] for an invalid date (NaN). *)
Record Date := mkDate { getTime : option Z }.

(** [a.getTime() <= b.getTime()]; false as soon as one side is NaN. *)
Definition time_le (a b : Date) : bool :=
  match getTime a, getTime b with
  | Some x, Some y => (x <=? y)%Z
  | _, _ => false
  end.

(** The value stored by [APPLICATIONS_CACHE.set]. *)
Record CacheEntry := mkEntry {
  hash : option string;
  lastModified : option Date;
  fullPath : string;
}.

(** Response headers, keyed by lower-case name. *)
Abbreviation Headers := (gmap string string).

(** [headers[name]], when it is a truthy string. *)
Definition header (h : Headers) (name : string) : option string :=
  match h !! name with
  | Some v => if truthy v then Some v else None
  | None => None
  end.

Inductive Node :=
| File (content : string)
| Dir.

(** [url.parse(s)] *)
Record Url := mkUrl {
  protocol : option string;
  pathname : option string;
  href : string;
}.

(** What a streamed GET does: an ['error'] event or a status >= 400 with
    its text and whatever reached the target file, or a complete body. *)
Inductive GetOutcome :=
| GetFailed (cause : string) (written : option string)
| GetBody (body : string).

Inductive Event :=
| EvHead (link : string)
| EvDownload (source target : string)
| EvExtract (zipPath tmpRoot : string).

Definition is_download (ev : Event) : bool :=
  match ev with EvDownload _ _ => true | _ => false end.
Definition is_extract (ev : Event) : bool :=
  match ev with EvExtract _ _ => true | _ => false end.

Record State := mkState {
  files : gmap string Node;
  cache : gmap string CacheEntry;
  temps : nat;
  trace : list Event;
}.

Definition downloads (st : State) : nat := length (List.filter is_download (trace st)).
Definition extractions (st : State) : nat := length (List.filter is_extract (trace st)).

(** The collaborators of the file. *)
Record Env := mkEnv {
  cwd : string;                                   (* process.cwd(), absolute *)
  url_parse : string -> Url;                      (* url.parse *)
  decodeURIComponent : string -> option string;   (* None: URIError *)
  sanitize : string -> string;                    (* sanitize(s, {replacement: '-'}) *)
  date_parse : string -> Date;                    (* new Date(s) *)
  http_head : string -> option Headers;           (* None: the request rejects *)
  http_get : string -> GetOutcome;
  digest : string -> string;                      (* fs.hash of a file's content *)
  zip_items : string -> option (list (string * Node));
                                                  (* None: not a valid archive *)
  glob : gmap string Node -> string -> list string; (* fs.glob: every path below a directory *)
  tmp_dir : nat -> string;                        (* the n-th directory of tempDir *)
}.

(** The failures of [configureApp], by the message thrown. *)
Inductive Error :=
| UnsupportedProtocol (proto app : string)
| NotFound (app : string)
| DownloadFailure (source cause : string)
| InvalidArchive (zipPath : string)
| NoBundleFound (exts : list string)
| UnsupportedExtension (app : string) (exts : list string)
| URIError (text : string)
| FsError (op target : string).

Inductive Result (A : Type) :=
| Ok (a : A)
| Err (e : Error).
Arguments Ok {A} a.
Arguments Err {A} e.

(** ** Sequencing: state and exceptions *)

Definition M (A : Type) : Type := State -> Result A * State.

Definition ret {A} (a : A) : M A := fun st => (Ok a, st).
Definition throw {A} (e : Error) : M A := fun st => (Err e, st).

Definition bind {A B} (m : M A) (k : A -> M B) : M B :=
  fun st =>
    match m st with
    | (Ok a, st1) => k a st1
    | (Err e, st1) => (Err e, st1)
    end.

Declare Scope js_scope.
Delimit Scope js_scope with js.
Notation "x <- m ;; k" := (bind m (fun x => k))
  (at level 100, m at next level, right associativity) : js_scope.
Local Open Scope js_scope.

(** [try { m } finally { cleanup }]; [cleanup] sees how [m] ended. *)
Definition try_finally {A} (m : M A) (cleanup : Result A -> M unit) : M A :=
  fun st =>
    let '(r, st1) := m st in
    match cleanup r st1 with
    | (Ok _, st2) => (r, st2)
    | (Err e, st2) => (Err e, st2)
    end.

Definition modify (f : State -> State) : M unit := fun st => (Ok tt, f st).
Definition gets {A} (f : State -> A) : M A := fun st => (Ok (f st), st).

Definition set_files (f : gmap string Node -> gmap string Node) (st : State) : State :=
  mkState (f (files st)) (cache st) (temps st) (trace st).
Definition set_cache (f : gmap string CacheEntry -> gmap string CacheEntry)
  (st : State) : State :=
  mkState (files st) (f (cache st)) (temps st) (trace st).
Definition log (ev : Event) (st : State) : State :=
  mkState (files st) (cache st) (temps st) (trace st ++ [ev]).
Definition next_temp (st : State) : State :=
  mkState (files st) (cache st) (S (temps st)) (trace st).

(** ** File system, archives, temporary directories, network *)

Section Collaborators.

Variable e : Env.

(** The absolute path a file-system call acts on. *)
Definition locate (p : string) : string := path.resolve (cwd e) (cwd e) p.

(** [k] is [root] or lies below it. *)
Definition under (root k : string) : bool :=
  String.eqb root k
  || String.prefix (if String.eqb root "/" then root else root +:+ "/") k.

Definition exists_in (fs : gmap string Node) (p : string) : bool :=
  truthy p && bool_decide (is_Some (fs !! locate p)).

Definition remove_tree (p : string) (fs : gmap string Node) : gmap string Node :=
  filter (fun kv => under (locate p) kv.1 = false) fs.

(** [fs.exists(p)] *)
Definition fs_exists (p : string) : M bool :=
  gets (fun st => exists_in (files st) p).

(** [fs.rimraf(p)] *)
Definition fs_rimraf (p : string) : M unit :=
  modify (set_files (remove_tree p)).

Fixpoint prefixes {A} (l : list A) : list (list A) :=
  match l with
  | [] => []
  | x :: r => [x] :: List.map (cons x) (prefixes r)
  end.

(** The directories above the absolute path [p], outermost first. *)
Definition ancestors (p : string) : list string :=
  List.map (fun segs => str (path.join segs))
    (List.removelast (List.tl (prefixes (path.split (chars p))))).

Definition mkdirp (dirs : list string) (fs : gmap string Node) : gmap string Node :=
  List.fold_left
    (fun acc d => match acc !! d with Some _ => acc | None => <[d := Dir]> acc end)
    dirs fs.

Definition drop_chars (n : nat) (s : string) : string := str (List.skipn n (chars s)).

(** [fs.mv(src, dst, {mkdirp: true})]: the tree at [src] is re-rooted at
    [dst], whose parent directories are created. *)
Definition fs_mv (src dst : string) : M unit :=
  fun st =>
    let s := locate src in
    let d := locate dst in
    match files st !! s with
    | None => (Err (FsError "mv" src), st)
    | Some _ =>
        let moved := filter (fun kv => under s kv.1 = true) (files st) in
        let rest := filter (fun kv => under s kv.1 = false) (files st) in
        let placed :=
          map_fold (fun k n acc => <[d +:+ drop_chars (String.length s) k := n]> acc)
                   (mkdirp (ancestors d) rest) moved in
        (Ok tt, set_files (fun _ => placed) st)
    end.

(** [fs.hash(p)] *)
Definition fs_hash (p : string) : M string :=
  fun st =>
    match files st !! locate p with
    | Some (File c) => (Ok (digest e c), st)
    | _ => (Err (FsError "hash" p), st)
    end.

(** [fs.glob] of every path below [dir], relative to it *)
Definition fs_glob (dir : string) : M (list string) :=
  gets (fun st => glob e (files st) (locate dir)).

(** [tempDir.openDir()]: a new directory. *)
Definition openDir : M string :=
  fun st =>
    let d := tmp_dir e (temps st) in
    (Ok d, set_files (<[locate d := Dir]>) (next_temp st)).

(** [tempDir.path({prefix, suffix: ''})]: the name [prefix] inside a new
    directory; the file itself is not created. *)
Definition tempDir_path (prefix : string) : M string :=
  d <- openDir ;; ret (d +:+ "/" +:+ prefix).

Definition archive_items (st : State) (zipPath : string)
  : option (list (string * Node)) :=
  match files st !! locate zipPath with
  | Some (File c) => zip_items e c
  | _ => None
  end.

(** [zip.assertValidZip(zipPath)] *)
Definition assertValidZip (zipPath : string) : M unit :=
  fun st =>
    match archive_items st zipPath with
    | Some _ => (Ok tt, st)
    | None => (Err (InvalidArchive zipPath), st)
    end.

Definition place_items (dir : string) (items : list (string * Node))
  (fs : gmap string Node) : gmap string Node :=
  List.fold_left
    (fun acc it => <[locate (path.resolve (cwd e) dir it.1) := it.2]> acc) items fs.

(** [zip.extractAllTo(zipPath, dir)] *)
Definition extractAllTo (zipPath dir : string) : M unit :=
  fun st =>
    match archive_items st zipPath with
    | Some items =>
        (Ok tt, log (EvExtract zipPath dir) (set_files (place_items dir items) st))
    | None => (Err (InvalidArchive zipPath), st)
    end.

(** ** The cache: [has], [get], [set], [del] and the [dispose] hook *)

(** [has(k)] followed by [get(k)], as one lookup. *)
Definition cache_get (k : string) : M (option CacheEntry) :=
  gets (fun st => cache st !! k).

(** [noDisposeOnSet]: replacing an entry does not call [dispose]. *)
Definition cache_set (k : string) (v : CacheEntry) : M unit :=
  modify (set_cache (<[k := v]>)).

(** lines 25-32 *)
Definition dispose (app : string) (entry : CacheEntry) : M unit :=
  present <- fs_exists (fullPath entry) ;;
  if negb present then ret tt else fs_rimraf (fullPath entry).

Definition cache_del (k : string) : M unit :=
  found <- cache_get k ;;
  match found with
  | Some entry => _ <- dispose k entry ;; modify (set_cache (delete k))
  | None => ret tt
  end.

(** ** [retrieveHeaders], lines 59-72 *)

Definition retrieveHeaders (link : string) : M Headers :=
  fun st =>
    match http_head e link with
    | Some h => (Ok h, log (EvHead link) st)
    | None => (Ok ∅, log (EvHead link) st)
    end.

(** ** [getCachedApplicationPath], lines 74-86 *)

Definition getCachedApplicationPath (link : string) (currentModified : option Date)
  : M (option string) :=
  gets (fun st =>
    match cache st !! link, currentModified with
    | Some entry, Some current =>
        match lastModified entry with
        | Some stored =>
            if time_le current stored then Some (fullPath entry) else None
        | None => None
        end
    | _, _ => None
    end).

(** ** [verifyAppExtension], lines 88-95 *)

Definition verifyAppExtension (app : string) (supportedAppExtensions : list string)
  : M string :=
  if includes supportedAppExtensions (path.extname app) then ret app
  else throw (UnsupportedExtension app supportedAppExtensions).

(** ** [downloadApp], lines 247-276 *)

Definition downloadApp (app targetPath : string) : M string :=
  fun st =>
    let source := href (url_parse e app) in
    let st1 := log (EvDownload source targetPath) st in
    match http_get e source with
    | GetFailed cause written =>
        (Err (DownloadFailure source cause),
         match written with
         | Some c => set_files (<[locate targetPath := File c]>) st1
         | None => st1
         end)
    | GetBody body =>
        (Ok targetPath, set_files (<[locate targetPath := File body]>) st1)
    end.

(** ** [unzipApp], lines 291-323 *)

(** [Array.prototype.sort(cmp)], stable. *)
Fixpoint insert_sorted (cmp : string -> string -> Z) (x : string) (l : list string)
  : list string :=
  match l with
  | [] => [x]
  | y :: r => if (cmp x y <=? 0)%Z then x :: y :: r else y :: insert_sorted cmp x r
  end.

Definition sort (cmp : string -> string -> Z) (l : list string) : list string :=
  List.fold_right (insert_sorted cmp) [] l.

(** [(a, b) => a.split(path.sep).length - b.split(path.sep).length] *)
Definition by_depth (a b : string) : Z :=
  (Z.of_nat (path.depth a) - Z.of_nat (path.depth b))%Z.

(** lines 304-307 *)
Definition bundle_items (supportedAppExtensions allExtractedItems : list string)
  : list string :=
  sort by_depth
    (List.filter (fun relativePath =>
                    includes supportedAppExtensions (path.extname relativePath))
                 allExtractedItems).

(** lines 300-319: the [try] block of [unzipApp]. *)
Definition extraction (zipPath dstRoot : string) (supported : list string)
  (tmpRoot : string) : M string :=
  _ <- extractAllTo zipPath tmpRoot ;;
  allExtractedItems <- fs_glob tmpRoot ;;
  match bundle_items supported allExtractedItems with
  | [] => throw (NoBundleFound supported)
  | matchedBundle :: _ =>
      let dstPath := path.resolve (cwd e) dstRoot matchedBundle in
      _ <- fs_mv (path.resolve (cwd e) tmpRoot matchedBundle) dstPath ;;
      ret dstPath
  end.

Definition unzipApp (zipPath dstRoot : string) (supportedAppExtensions : Extensions)
  : M string :=
  _ <- assertValidZip zipPath ;;
  let supported := toArray supportedAppExtensions in
  tmpRoot <- openDir ;;
  try_finally (extraction zipPath dstRoot supported tmpRoot)
              (fun _ => fs_rimraf tmpRoot).

(** The order the sort establishes, and the entries of one depth. *)
Definition shallower (a b : string) : Prop := (path.depth a <= path.depth b)%nat.

Definition at_depth (d : nat) (a : string) : bool := (path.depth a =? d)%nat.

End Collaborators.

(** ** [configureApp], lines 97-245 *)

Section ConfigureApp.

Variable e : Env.

(** The [let] variables of [configureApp]; [key] is the variable [app],
    which line 224 reassigns. *)
Record Locals := mkLocals {
  key : string;
  newApp : string;
  shouldUnzipApp : bool;
  archiveHash : option string;
  currentModified : option Date;
}.

(** How a block of the lock's callback ends: with a [return], or by
    falling through to the next statement. *)
Inductive Flow :=
| Return (result : string)
| Continue (vars : Locals).

(** [!fileName] *)
Definition unset (fileName : option string) : bool :=
  match fileName with
  | Some name => negb (truthy name)
  | None => true
  end.

(** lines 139-142: an archive extension in the URL's basename. *)
Definition name_from_url (basename extname : string) : option string * bool :=
  if includes ZIP_EXTS extname then (Some basename, true) else (None, false).

(** lines 143-153: an archive content type. *)
Definition name_from_content_type (headers : Headers) (s : option string * bool)
  : option string * bool :=
  match header headers "content-type" with
  | Some ct =>
      if is_zip_mime ct then
        ((if unset s.1 then Some (DEFAULT_BASENAME +:+ ".zip") else s.1), true)
      else s
  | None => s
  end.

(** lines 154-163: an attachment's file name. *)
Definition name_from_content_disposition (headers : Headers) (s : option string * bool)
  : option string * bool :=
  match header headers "content-disposition" with
  | Some cd =>
      if is_attachment cd then
        match filename_exec (chars cd) with
        | Some m =>
            let fileName := sanitize e (str m) in
            (Some fileName, s.2 || includes ZIP_EXTS (path.extname fileName))
        | None => s
        end
      else s
  | None => s
  end.

(** [_.first(exts)] inside a template string. *)
Definition first_or_undefined (exts : list string) : string :=
  match exts with
  | ext :: _ => ext
  | [] => "undefined"
  end.

(** lines 164-176: the default name. *)
Definition default_name (basename extname : string) (supportedAppExtensions : list string)
  : string :=
  let resultingName :=
    if truthy basename
    then str (List.firstn (String.length basename - String.length extname) (chars basename))
    else DEFAULT_BASENAME in
  let resultingExt :=
    if includes supportedAppExtensions extname then extname
    else first_or_undefined supportedAppExtensions in
  resultingName +:+ resultingExt.

Definition name_fallback (basename extname : string) (supportedAppExtensions : list string)
  (fileName : option string) : string :=
  match fileName with
  | Some name =>
      if truthy name then name
      else default_name basename extname supportedAppExtensions
  | None => default_name basename extname supportedAppExtensions
  end.

(** lines 132-176: the name of the download and whether it is unzipped. *)
Definition destination (basename : string) (headers : Headers)
  (supportedAppExtensions : list string) : string * bool :=
  let extname := path.extname basename in
  let s := name_from_content_disposition headers
             (name_from_content_type headers (name_from_url basename extname)) in
  (name_fallback basename extname supportedAppExtensions s.1, s.2).

(** The order of precedence the derivation amounts to.  The attachment
    name of the response, sanitised: *)
Definition attachment_name (headers : Headers) : option string :=
  match header headers "content-disposition" with
  | Some cd =>
      if is_attachment cd then
        match filename_exec (chars cd) with
        | Some m => Some (sanitize e (str m))
        | None => None
        end
      else None
  | None => None
  end.

Definition zip_content_type (headers : Headers) : bool :=
  match header headers "content-type" with
  | Some ct => is_zip_mime ct
  | None => false
  end.

(** An attachment name comes first; without one, an archive basename of the
    URL, then the default archive name for an archive content type; the
    default name when none of these gives a non-empty name. *)
Definition destination_by_priority (basename : string) (headers : Headers)
  (supportedAppExtensions : list string) : string * bool :=
  let extname := path.extname basename in
  let zip_url := includes ZIP_EXTS extname in
  let zip_type := zip_content_type headers in
  match attachment_name headers with
  | Some name =>
      (if truthy name then name
       else default_name basename extname supportedAppExtensions,
       zip_url || zip_type || includes ZIP_EXTS (path.extname name))
  | None =>
      (if zip_url then basename
       else if zip_type then DEFAULT_BASENAME +:+ ".zip"
       else default_name basename extname supportedAppExtensions,
       zip_url || zip_type)
  end.

(** [a !== b] on strings. *)
Definition differ (a b : string) : bool := negb (String.eqb a b).

(** A string-or-null local is truthy. *)
Definition truthy_opt (o : option string) : bool :=
  match o with Some s => truthy s | None => false end.

(** [decodeURIComponent(pathname)]; a [null] pathname is first turned into
    the text "null". *)
Definition decoded_pathname (u : Url) : option string :=
  decodeURIComponent e (match pathname u with Some p => p | None => "null" end).

(** lines 122-130: the freshness check.  [Some p] is the [return] of
    line 126. *)
Definition reuse_fresh (app : string) (current : option Date)
  (supportedAppExtensions : list string) : M (option string) :=
  cachedPath <- getCachedApplicationPath app current ;;
  match cachedPath with
  | Some p =>
      if truthy p then
        present <- fs_exists e p ;;
        if present then
          checked <- verifyAppExtension p supportedAppExtensions ;; ret (Some checked)
        else
          _ <- cache_del e app ;; ret None
      else ret None
  | None => ret None
  end.

(** lines 114-181: the URL branch. *)
Definition use_remote (app : string) (u : Url) (supportedAppExtensions : list string)
  : M Flow :=
  headers <- retrieveHeaders e app ;;
  let current :=
    match header headers "last-modified" with
    | Some text => Some (date_parse e text)
    | None => None
    end in
  reused <- reuse_fresh app current supportedAppExtensions ;;
  match reused with
  | Some p => ret (Return p)
  | None =>
      match decoded_pathname u with
      | None => throw (URIError (match pathname u with Some p => p | None => "null" end))
      | Some decoded =>
          let basename := sanitize e (path.basename decoded) in
          let d := destination basename headers supportedAppExtensions in
          targetPath <- tempDir_path e d.1 ;;
          downloaded <- downloadApp e app targetPath ;;
          ret (Continue (mkLocals app downloaded d.2 None current))
      end
  end.

(** lines 182-194: the local branch. *)
Definition use_local (app : string) (u : Url) : M Flow :=
  present <- fs_exists e app ;;
  if present then
    ret (Continue (mkLocals app app (includes ZIP_EXTS (path.extname app)) None None))
  else
    match protocol u with
    | Some proto =>
        if (2 <? String.length proto)%nat then throw (UnsupportedProtocol proto app)
        else throw (NotFound app)
    | None => throw (NotFound app)
    end.

(** lines 199-210: an archive whose digest is already cached.  [Some p] is
    the [return] of line 206. *)
Definition reuse_extracted (app archivePath digest_ : string)
  (supportedAppExtensions : list string) : M (option string) :=
  found <- cache_get app ;;
  match found with
  | Some entry =>
      match hash entry with
      | Some stored =>
          if String.eqb digest_ stored then
            present <- fs_exists e (fullPath entry) ;;
            if present then
              _ <- (if differ archivePath app then fs_rimraf e archivePath else ret tt) ;;
              checked <- verifyAppExtension (fullPath entry) supportedAppExtensions ;;
              ret (Some checked)
            else
              _ <- cache_del e app ;; ret None
          else ret None
      | None => ret None
      end
  | None => ret None
  end.

(** lines 211-219: extraction into a new directory; the archive is removed
    afterwards when it is a download and extraction has replaced [newApp]. *)
Definition extract_archive (supportedAppExtensions : list string) (v : Locals)
  (digest_ : string) : M Flow :=
  let archivePath := newApp v in
  tmpRoot <- openDir e ;;
  unzipped <-
    try_finally
      (unzipApp e archivePath tmpRoot (ExtensionArray supportedAppExtensions))
      (fun r =>
         let current := match r with Ok p => p | Err _ => archivePath end in
         if differ current archivePath && differ archivePath (key v)
         then fs_rimraf e archivePath else ret tt) ;;
  ret (Continue (mkLocals (key v) unzipped true (Some digest_) (currentModified v))).

(** lines 196-225 *)
Definition extract_or_resolve (supportedAppExtensions : list string) (v : Locals)
  : M Flow :=
  if shouldUnzipApp v then
    let archivePath := newApp v in
    digest_ <- fs_hash e archivePath ;;
    reused <- reuse_extracted (key v) archivePath digest_ supportedAppExtensions ;;
    match reused with
    | Some p => ret (Return p)
    | None => extract_archive supportedAppExtensions v digest_
    end
  else if negb (path.isAbsolute (newApp v)) then
    let rewritten := path.resolve (cwd e) (cwd e) (newApp v) in
    ret (Continue (mkLocals rewritten rewritten false (archiveHash v) (currentModified v)))
  else ret (Continue v).

(** lines 229-242 *)
Definition update_cache (v : Locals) : M unit :=
  if differ (key v) (newApp v)
     && (truthy_opt (archiveHash v) || bool_decide (is_Some (currentModified v)))
  then
    old <- cache_get (key v) ;;
    _ <- match old with
         | Some entry =>
             if differ (fullPath entry) (newApp v) then
               present <- fs_exists e (fullPath entry) ;;
               if present then fs_rimraf e (fullPath entry) else ret tt
             else ret tt
         | None => ret tt
         end ;;
    cache_set (key v) (mkEntry (archiveHash v) (currentModified v) (newApp v))
  else ret tt.

(** lines 227-243 *)
Definition verify_and_store (supportedAppExtensions : list string) (v : Locals)
  : M string :=
  _ <- verifyAppExtension (newApp v) supportedAppExtensions ;;
  _ <- update_cache v ;;
  ret (newApp v).

(** [['http:', 'https:'].includes(protocol)] *)
Definition isUrl (u : Url) : bool :=
  match protocol u with
  | Some proto => includes ["http:"; "https:"] proto
  | None => false
  end.

(** lines 196-243: what follows the [if]/[else if]/[else] of lines 114-194. *)
Definition finish (supportedAppExtensions : list string) (v : Locals) : M string :=
  second <- extract_or_resolve supportedAppExtensions v ;;
  match second with
  | Return p => ret p
  | Continue v' => verify_and_store supportedAppExtensions v'
  end.

(** lines 113-244: the callback run under [APPLICATIONS_CACHE_GUARD]. *)
Definition guarded (app : string) (supportedAppExtensions : list string) : M string :=
  let u := url_parse e app in
  first <- (if isUrl u then use_remote app u supportedAppExtensions
            else use_local app u) ;;
  match first with
  | Return p => ret p
  | Continue v => finish supportedAppExtensions v
  end.

(** The result is [None] for the bare [return] of line 100. *)
Definition configureApp (app : JSValue) (supportedAppExtensions : Extensions)
  : M (option string) :=
  match app with
  | JSString s =>
      p <- guarded s (toArray supportedAppExtensions) ;; ret (Some p)
  | _ => ret None
  end.

End ConfigureApp.

(** What a call may do to the cache without storing anything: leave it
    as it is, or drop the entry of [app] whose artifact is not on disk. *)
Definition purged_or_same (e : Env) (app : string) (st st' : State) : Prop :=
  cache st' = cache st
  \/ exists entry,
       cache st !! app = Some entry
       /\ exists_in e (files st) (fullPath entry) = false
       /\ cache st' = delete app (cache st).

(** ** Calls in flight: [APPLICATIONS_CACHE_GUARD], lines 35 and 113

    A call of [configureApp] with a string reaches
    [APPLICATIONS_CACHE_GUARD.acquire(app, callback)]; from then on it
    waits in the queue the lock keeps for the key [app], or is inside its
    callback, suspended at one [await] after the other, until the promise
    it returned is settled.  Which call moves next is the scheduler's
    choice. *)

(** A callback suspended at an [await]: [next] is what it does in one go
    when it is resumed, up to its next [await] or to its end. *)
#[warnings="-register-all"]
Inductive Proc (A : Type) : Type :=
| Finished (r : Result A)
| Await (next : State -> Proc A * State).
Arguments Finished {A} r.
Arguments Await {A} next.

(** The callback left alone: resumed until it ends. *)
Fixpoint run {A} (p : Proc A) (st : State) : Result A * State :=
  match p with
  | Finished r => (r, st)
  | Await next => let '(p', st') := next st in run p' st'
  end.

(** How often it is resumed. *)
Fixpoint awaits {A} (p : Proc A) (st : State) : nat :=
  match p with
  | Finished _ => 0
  | Await next => let '(p', st') := next st in S (awaits p' st')
  end.

(** [const a = await m; k(a)] *)
Definition await {A B} (m : M A) (k : A -> Proc B) : Proc B :=
  Await (fun st =>
           match m st with
           | (Ok a, st1) => (k a, st1)
           | (Err x, st1) => (Finished (Err x), st1)
           end).

(** The callback of line 113 cut in two: lines 114-194 run in one go,
    and after an [await] so do lines 196-243. *)
Definition staged (e : Env) (app : string) (supportedAppExtensions : Extensions)
  : Proc string :=
  let u := url_parse e app in
  let exts := toArray supportedAppExtensions in
  await (if isUrl u then use_remote e app u exts else use_local e app u)
        (fun first =>
           match first with
           | Return p => Finished (Ok p)
           | Continue v => await (finish e exts v) (fun p => Finished (Ok p))
           end).

Record Call := mkCall { descriptor : string; supported : Extensions }.

Inductive Phase :=
| Idle
| Queued
| Running (p : Proc string)
| Resolved (r : Result (option string))
| Rejected.

Definition is_idle (ph : Phase) : bool :=
  match ph with Idle => true | _ => false end.
Definition is_queued (ph : Phase) : bool :=
  match ph with Queued => true | _ => false end.
Definition is_running (ph : Phase) : bool :=
  match ph with Running _ => true | _ => false end.
Definition is_settled (ph : Phase) : bool :=
  match ph with Resolved _ | Rejected => true | _ => false end.

(** The calls, numbered in the order they reach the lock, each with the
    phase it is in; and the state they share. *)
Record Config := mkConfig { phases : list Phase; store : State }.

(** A call for [app] in a phase that passes [test]. *)
Definition shares (app : string) (test : Phase -> bool) (cp : Call * Phase) : bool :=
  String.eqb (descriptor cp.1) app && test cp.2.

(** [return await APPLICATIONS_CACHE_GUARD.acquire(...)]: what the
    callback returns or throws is what the call does. *)
Definition promised (r : Result string) : Result (option string) :=
  match r with
  | Ok p => Ok (Some p)
  | Err x => Err x
  end.

(** After a resumption: the call is settled when its callback has ended. *)
Definition settle (p : Proc string) : Phase :=
  match p with
  | Finished r => Resolved (promised r)
  | Await _ => Running p
  end.

Section Lock.

(** async-lock's bound on the callers waiting for one key. *)
Variable maxPending : nat.
(** The callback a call runs under the lock. *)
Variable callback : string -> Extensions -> Proc string.
Variable calls : list Call.

(** [queues[app]] exists: a call for [app] is inside its callback or
    waits for its turn. *)
Definition occupied (app : string) (c : Config) : bool :=
  existsb (shares app (fun ph => is_running ph || is_queued ph)) (zip calls (phases c)).

(** [queues[app].length] *)
Definition pending (app : string) (c : Config) : nat :=
  length (List.filter (shares app is_queued) (zip calls (phases c))).

Definition running (app : string) (c : Config) : bool :=
  existsb (shares app is_running) (zip calls (phases c)).

(** A call for [app] that came before call [i] still waits. *)
Definition queued_before (i : nat) (app : string) (c : Config) : bool :=
  existsb (shares app is_queued) (take i (zip calls (phases c))).

(** The calls numbered below [i] have reached the lock. *)
Definition arrived_before (i : nat) (c : Config) : bool :=
  forallb (fun ph => negb (is_idle ph)) (take i (phases c)).

Definition set_phase (i : nat) (ph : Phase) (c : Config) : Config :=
  mkConfig (<[i := ph]> (phases c)) (store c).

Definition enter (call : Call) : Phase :=
  settle (callback (descriptor call) (supported call)).

(** The scheduler lets call [i] move.  A call that has not reached the
    lock reaches it: it enters its callback when the key is free, joins
    the queue of its key when not, and is rejected when that queue is
    full.  A waiting call enters when no call of its key is inside and
    none waits longer.  A call inside its callback is resumed.  A choice
    that cannot move leaves everything as it is. *)
Definition fire (i : nat) (c : Config) : Config :=
  match calls !! i, phases c !! i with
  | Some call, Some Idle =>
      if negb (arrived_before i c) then c
      else if occupied (descriptor call) c then
        if (maxPending <=? pending (descriptor call) c)%nat
        then set_phase i Rejected c
        else set_phase i Queued c
      else set_phase i (enter call) c
  | Some call, Some Queued =>
      if running (descriptor call) c || queued_before i (descriptor call) c then c
      else set_phase i (enter call) c
  | Some _, Some (Running (Await next)) =>
      let '(p', st') := next (store c) in
      mkConfig (<[i := settle p']> (phases c)) st'
  | Some _, Some (Running (Finished r)) => set_phase i (settle (Finished r)) c
  | _, _ => c
  end.

Definition exec (schedule : list nat) (c : Config) : Config :=
  List.fold_left (fun c i => fire i c) schedule c.

Definition init (st : State) : Config :=
  mkConfig (replicate (length calls) Idle) st.

Definition settled (c : Config) : bool := forallb is_settled (phases c).

End Lock.

(** The schedule that lets the calls from number [i] on move one after
    the other, each until it is settled. *)
Fixpoint one_by_one (callback : string -> Extensions -> Proc string)
  (i : nat) (calls : list Call) (st : State) : list nat :=
  match calls with
  | [] => []
  | call :: rest =>
      let p := callback (descriptor call) (supported call) in
      replicate (S (awaits p st)) i ++ one_by_one callback (S i) rest (run p st).2
  end.

(** The calls run to completion one after the other: what the runs of
    the scheduler are compared with. *)
Fixpoint in_turn (e : Env) (calls : list Call) (st : State)
  : list (Result (option string)) * State :=
  match calls with
  | [] => ([], st)
  | call :: rest =>
      let '(r, st1) := configureApp e (JSString (descriptor call)) (supported call) st in
      let '(rs, st2) := in_turn e rest st1 in
      (r :: rs, st2)
  end.

(** What a later caller gets from the entry the first one stored at [p]. *)
Definition reused (p : string) (supportedAppExtensions : Extensions)
  : Result (option string) :=
  if includes (toArray supportedAppExtensions) (path.extname p)
  then Ok (Some p)
  else Err (UnsupportedExtension p (toArray supportedAppExtensions)).

(** The calls for one descriptor in the order they reached the lock:
    those that are settled, the one inside its callback if there is one,
    those that wait, and those still to come. *)
Definition lined_up (rs : list (Result (option string))) (mid : list Phase)
  (q m : nat) : list Phase :=
  (Resolved <$> rs) ++ mid ++ replicate q Queued ++ replicate m Idle.

(** [c] is a moment of the calls of [callers] for [app], started in
    [st0], at which the first [d] of them have run one after the other
    and the next one, if it has entered its callback, is about to do what
    is left of its run. *)
Definition serial (e : Env) (app : string) (callers : list Extensions) (st0 : State)
  (c : Config) : Prop :=
  exists d mid q m,
    let before := in_turn e (take d (mkCall app <$> callers)) st0 in
    phases c = lined_up before.1 mid q m
    /\ d + length mid + q + m = length callers
    /\ ((mid = [] /\ store c = before.2 /\ (q = 0 \/ 1 <= d))
        \/ exists next exts,
             mid = [Running (Await next)]
             /\ callers !! d = Some exts
             /\ run (Await next) (store c) = guarded e app (toArray exts) before.2).

(** ** A sample machine

    Working directory [/work]; temporary directories [/tmp/a], [/tmp/b],
    ...; one HTTP host; archives are the files whose content is listed
    by [sample_zip]. *)

Module Sample.

Definition host : string := "http://example.com".

Definition parse (s : string) : Url :=
  if String.prefix host s
  then mkUrl (Some "http:") (Some (drop_chars (String.length host) s)) s
  else if String.prefix "ftp:" s
  then mkUrl (Some "ftp:") (Some (drop_chars 4 s)) s
  else mkUrl None (Some s) s.

Definition stamp_2015 : string := "Wed, 21 Oct 2015 07:28:00 GMT".
Definition stamp_2016 : string := "Fri, 21 Oct 2016 07:28:00 GMT".

Definition parse_date (s : string) : Date :=
  if String.eqb s stamp_2015 then mkDate (Some 1445412480000%Z)
  else if String.eqb s stamp_2016 then mkDate (Some 1477034880000%Z)
  else mkDate None.

(** An archive with a nested and a top-level [.apk], one holding an iOS
    bundle only, and one with two bundles at the same depth. *)
Definition sample_zip (content : string) : option (list (string * Node)) :=
  if String.eqb content "zip:two-apks" then
    Some [("Payload", Dir); ("Payload/x", Dir);
          ("Payload/x/deep.apk", File "deep"); ("top.apk", File "top")]
  else if String.eqb content "zip:ios" then
    Some [("Payload", Dir); ("Payload/Demo.app", Dir);
          ("Payload/Demo.app/Info.plist", File "plist")]
  else if String.eqb content "zip:siblings" then
    Some [("b.apk", File "b"); ("a.apk", File "a"); ("lib", Dir); ("lib/c.apk", File "c")]
  else None.

Definition strictly_under (root k : string) : bool :=
  String.prefix (root +:+ "/") k.

Definition listing (fs : gmap string Node) (dir : string) : list string :=
  List.map (drop_chars (S (String.length dir)))
    (List.filter (strictly_under dir) (List.map fst (map_to_list fs))).

Definition temp_name (n : nat) : string :=
  "/tmp/" +:+ String (ascii_of_nat (97 + n)) EmptyString.

Definition env (head : string -> option Headers) (get : string -> GetOutcome) : Env :=
  mkEnv "/work" parse Some (fun s => s) parse_date head get
        (fun c => "md5:" +:+ c) sample_zip listing temp_name.

Definition offline : Env := env (fun _ => None) (fun _ => GetFailed "ECONNREFUSED" None).

Definition disk (l : list (string * Node)) : gmap string Node := list_to_map l.

Definition start (l : list (string * Node)) (c : list (string * CacheEntry)) : State :=
  mkState (disk l) (list_to_map c) 0 [].

(** Scenarios. *)

Definition apk_url : string := "http://example.com/app.apk".
Definition zip_url : string := "http://example.com/app.zip".
Definition download_url : string := "http://example.com/download".

Definition quoted (s : string) : string :=
  String dquote EmptyString +:+ s +:+ String dquote EmptyString.

Definition dated : Headers := {["last-modified" := stamp_2015]}.

Definition zip_attachment : Headers :=
  <["content-type" := "application/zip"]>
    {["content-disposition" := "attachment; filename=" +:+ quoted "foo.zip"]}.

Definition named_attachment : Headers :=
  {["content-disposition" := "attachment; filename=" +:+ quoted "foo.zip"]}.

(** The host answers HEAD with a Last-Modified header and serves a package. *)
Definition web_dated : Env := env (fun _ => Some dated) (fun _ => GetBody "apk-bytes").

(** The host answers HEAD without a Last-Modified header. *)
Definition web_undated : Env := env (fun _ => Some ∅) (fun _ => GetBody "apk-bytes").

(** The host serves an archive with two packages, undated. *)
Definition web_zip : Env := env (fun _ => Some ∅) (fun _ => GetBody "zip:two-apks").

(** The host answers HEAD but every GET ends in a 404. *)
Definition web_gone : Env :=
  env (fun _ => Some dated) (fun _ => GetFailed "404 - Not Found" None).

Definition stored_2015 : Date := mkDate (Some 1445412480000%Z).

Definition empty_machine : State := start [] [].

(** The state the first caller of [apk_url] leaves behind, accepting
    [.apk]: the package in a temporary directory, and its cache entry. *)
Definition after_first : State :=
  (configureApp web_dated (JSString apk_url) (OneExtension ".apk") empty_machine).2.

Definition cached_apk : CacheEntry := mkEntry None (Some stored_2015) "/tmp/a/app.apk".

(** The same, after the temporary directory was swept from the disk. *)
Definition stale : State := set_files (remove_tree web_dated "/tmp/a") after_first.

(** The state the first caller of [zip_url] leaves behind, accepting
    [.apk]: the bundle extracted from the archive, and its cache entry. *)
Definition after_first_zip : State :=
  (configureApp web_zip (JSString zip_url) (OneExtension ".apk") empty_machine).2.

Definition cached_unzipped : CacheEntry :=
  mkEntry (Some "md5:zip:two-apks") None "/tmp/b/top.apk".

(** The variables and the state of a caller of [zip_url] once its download
    has ended (line 181): the first caller, and one that comes after it. *)
Definition downloaded_first : State :=
  (use_remote web_zip zip_url (parse zip_url) [".apk"] empty_machine).2.

Definition first_locals : Locals := mkLocals zip_url "/tmp/a/app.zip" true None None.

Definition downloaded_again : State :=
  (use_remote web_zip zip_url (parse zip_url) [".apk"] after_first_zip).2.

Definition again_locals : Locals := mkLocals zip_url "/tmp/d/app.zip" true None None.

Definition local_ipa : State := start [("/apps/Demo.ipa", File "zip:ios")] [].
Definition local_txt : State := start [("/apps/notes.txt", File "hello")] [].
Definition local_apk : State := start [("/work/app.apk", File "apk-bytes")] [].
Definition local_zip : State := start [("/apps/two.zip", File "zip:two-apks")] [].

End Sample.

(** ** What the cache may hold, and the handler of the process's exit *)

(** An entry as line 237 writes it: its path is absolute and is not the
    descriptor, and it carries a digest or a date. *)
Definition storable (k : string) (entry : CacheEntry) : Prop :=
  differ k (fullPath entry) = true
  /\ path.isAbsolute (fullPath entry) = true
  /\ truthy_opt (hash entry) || bool_decide (is_Some (lastModified entry)) = true.

Definition cache_wellformed (c : gmap string CacheEntry) : Prop :=
  forall k entry, c !! k = Some entry -> storable k entry.

(** What one call may do to the cache: nothing, drop the entry of its
    descriptor, or store a new one for it. *)
Definition cache_step (app : string) (c c' : gmap string CacheEntry) : Prop :=
  c' = c
  \/ c' = delete app c
  \/ exists entry, storable app entry /\ c' = <[app := entry]> c.

(** [try { m } catch (e) { logger.warn(e.message) }] *)
Definition warn_on_error (m : M unit) : M unit :=
  fun st =>
    match m st with
    | (Ok a, st1) => (Ok a, st1)
    | (Err _, st1) => (Ok tt, st1)
    end.

(** [for (const x of l) { body(x) }] *)
Fixpoint for_each {A} (l : list A) (body : A -> M unit) : M unit :=
  match l with
  | [] => ret tt
  | x :: rest => _ <- body x ;; for_each rest body
  end.

(** [fs.rimrafSync(p)]; [fails] tells the paths whose removal throws. *)
Definition rimrafSync (e : Env) (fails : string -> bool) (p : string) : M unit :=
  if fails p then throw (FsError "rimraf" p) else fs_rimraf e p.

(** lines 39-56: the handler of [process.on('exit')]. *)
Definition on_exit (e : Env) (fails : string -> bool) : M unit :=
  fun st =>
    if (size (cache st) =? 0)%nat then (Ok tt, st)
    else
      let appPaths := List.map (fun kv => fullPath kv.2) (map_to_list (cache st)) in
      for_each appPaths (fun appPath => warn_on_error (rimrafSync e fails appPath)) st.

(** The headers and the date the URL branch works with (lines 117-121). *)
Definition probed_headers (e : Env) (app : string) : Headers :=
  match http_head e app with Some h => h | None => ∅ end.

Definition probed_date (e : Env) (app : string) : option Date :=
  match header (probed_headers e app) "last-modified" with
  | Some text => Some (date_parse e text)
  | None => None
  end.

(** The failures that come after line 195: of hashing, unzipping and the
    check of the extension. *)
Definition late_error (x : Error) : Prop :=
  match x with
  | InvalidArchive _ | NoBundleFound _ | UnsupportedExtension _ _ | FsError _ _ => True
  | _ => False
  end.

(** The failure of lines 186-194, for a descriptor parsed as [u]. *)
Definition missing_error (u : Url) (app : string) : Error :=
  match protocol u with
  | Some proto =>
      if (2 <? String.length proto)%nat then UnsupportedProtocol proto app
      else NotFound app
  | None => NotFound app
  end.

(** ** [duplicateKeys], lines 361-384 *)

(** The values [duplicateKeys] walks: arrays, plain objects (their own
    properties in order, each key once), and everything else. *)
#[warnings="-register-all"]
Inductive Json :=
| JNull
| JBool (b : bool)
| JNum (n : Z)
| JStr (s : string)
| JOther (tag : string)
| JArr (items : list Json)
| JObj (fields : list (string * Json)).

(** The own property [k] of an object, if it has one. *)
Fixpoint get (k : string) (fields : list (string * Json)) : option Json :=
  match fields with
  | [] => None
  | (k', v) :: rest => if String.eqb k k' then Some v else get k rest
  end.

(** [obj[k] = v] for an ordinary key [k]: an existing property keeps its
    place, a new one comes last.  The key [__proto__] is not ordinary: on
    an object that inherits from [Object.prototype] the assignment runs
    the setter found there and adds no property.  What is proved of the
    members of the result is proved for values and keys without it. *)
Fixpoint assign (k : string) (v : Json) (fields : list (string * Json))
  : list (string * Json) :=
  match fields with
  | [] => [(k, v)]
  | (k', v') :: rest =>
      if String.eqb k k' then (k, v) :: rest else (k', v') :: assign k v rest
  end.

(** lines 372-377: one turn of the loop over [_.toPairs(input)]. *)
Definition alias (firstKey secondKey : string) (resultObj : list (string * Json))
  (key : string) (recursivelyCalledValue : Json) : list (string * Json) :=
  assign key recursivelyCalledValue
    (if String.eqb key firstKey then assign secondKey recursivelyCalledValue resultObj
     else if String.eqb key secondKey then assign firstKey recursivelyCalledValue resultObj
     else resultObj).

Fixpoint duplicateKeys (input : Json) (firstKey secondKey : string) : Json :=
  match input with
  | JArr items =>
      JArr (List.map (fun item => duplicateKeys item firstKey secondKey) items)
  | JObj fields =>
      JObj (List.fold_left
              (fun resultObj kv =>
                 alias firstKey secondKey resultObj kv.1
                       (duplicateKeys kv.2 firstKey secondKey))
              fields [])
  | _ => input
  end.

(** Every object inside [v] gives [a] and [b] the same value, or neither. *)
#[warnings="-register-all"]
Inductive mirrored (a b : string) : Json -> Prop :=
| mirrored_null : mirrored a b JNull
| mirrored_bool x : mirrored a b (JBool x)
| mirrored_num n : mirrored a b (JNum n)
| mirrored_str s : mirrored a b (JStr s)
| mirrored_other t : mirrored a b (JOther t)
| mirrored_arr items :
    List.Forall (mirrored a b) items -> mirrored a b (JArr items)
| mirrored_obj fields :
    get a fields = get b fields ->
    List.Forall (fun kv => mirrored a b kv.2) fields ->
    mirrored a b (JObj fields).

(** No object inside [v] has the same key twice. *)
#[warnings="-register-all"]
Inductive proper : Json -> Prop :=
| proper_null : proper JNull
| proper_bool x : proper (JBool x)
| proper_num n : proper (JNum n)
| proper_str s : proper (JStr s)
| proper_other t : proper (JOther t)
| proper_arr items : List.Forall proper items -> proper (JArr items)
| proper_obj fields :
    List.NoDup (List.map fst fields) ->
    List.Forall (fun kv => proper kv.2) fields ->
    proper (JObj fields).

(** [k] is a key of some object inside [v]. *)
Fixpoint mentions (k : string) (v : Json) : bool :=
  match v with
  | JArr items => existsb (mentions k) items
  | JObj fields => existsb (fun kv => String.eqb k kv.1 || mentions k kv.2) fields
  | _ => false
  end.

(** The value of whichever of the keys [a] and [b] comes last in [fields]. *)
Fixpoint later_of (a b : string) (fields : list (string * Json)) : option Json :=
  match fields with
  | [] => None
  | (k, v) :: rest =>
      match later_of a b rest with
      | Some w => Some w
      | None => if String.eqb k a || String.eqb k b then Some v else None
      end
  end.

(** The own property [k] of a plain object [v], if it has one. *)
Definition member (k : string) (v : Json) : option Json :=
  match v with
  | JObj fields => get k fields
  | _ => None
  end.


(** ** [isPackageOrBundle], lines 325-327 *)

(** Regular expressions over characters. *)
Inductive regex :=
| Void
| Eps
| Class (p : ascii -> bool)
| Seq (r1 r2 : regex)
| Alt (r1 r2 : regex)
| Star (r : regex).

(** [r+] *)
Definition Plus (r : regex) : regex := Seq r (Star r).

Fixpoint nullable (r : regex) : bool :=
  match r with
  | Void => false
  | Eps => true
  | Class _ => false
  | Seq r1 r2 => nullable r1 && nullable r2
  | Alt r1 r2 => nullable r1 || nullable r2
  | Star _ => true
  end.

(** What is left of [r] after the character [c]. *)
Fixpoint deriv (c : ascii) (r : regex) : regex :=
  match r with
  | Void => Void
  | Eps => Void
  | Class p => if p c then Eps else Void
  | Seq r1 r2 =>
      if nullable r1 then Alt (Seq (deriv c r1) r2) (deriv c r2)
      else Seq (deriv c r1) r2
  | Alt r1 r2 => Alt (deriv c r1) (deriv c r2)
  | Star r' => Seq (deriv c r') (Star r')
  end.

(** [/^r$/.test(l)]: the whole of [l] matches [r]. *)
Fixpoint test (r : regex) (l : list ascii) : bool :=
  match l with
  | [] => nullable r
  | c :: rest => test (deriv c r) rest
  end.

(** The words of [r], as a relation. *)
Inductive matches : regex -> list ascii -> Prop :=
| matches_eps : matches Eps []
| matches_class p c : p c = true -> matches (Class p) [c]
| matches_seq r1 r2 l1 l2 :
    matches r1 l1 -> matches r2 l2 -> matches (Seq r1 r2) (l1 ++ l2)
| matches_alt_l r1 r2 l : matches r1 l -> matches (Alt r1 r2) l
| matches_alt_r r1 r2 l : matches r2 l -> matches (Alt r1 r2) l
| matches_star_nil r : matches (Star r) []
| matches_star_app r l1 l2 :
    matches r l1 -> matches (Star r) l2 -> matches (Star r) (l1 ++ l2).

(** [[a-zA-Z0-9\-_]] *)
Definition package_char (c : ascii) : bool :=
  let n := nat_of_ascii c in
  ((97 <=? n)%nat && (n <=? 122)%nat) || ((65 <=? n)%nat && (n <=? 90)%nat)
  || ((48 <=? n)%nat && (n <=? 57)%nat) || (n =? 45)%nat || (n =? 95)%nat.

(** [\.] *)
Definition dot (c : ascii) : bool := Ascii.eqb c ".".

(** [([a-zA-Z0-9\-_]+\.[a-zA-Z0-9\-_]+)+] *)
Definition package_or_bundle : regex :=
  Plus (Seq (Plus (Class package_char))
            (Seq (Class dot) (Plus (Class package_char)))).

Definition isPackageOrBundle (app : string) : bool :=
  test package_or_bundle (chars app).

(** A string of [package_char]s. *)
Definition package_word (s : string) : Prop :=
  forallb package_char (chars s) = true.


(** [segs.join('.')] on lists of characters. *)
Fixpoint dotted (segs : list (list ascii)) : list ascii :=
  match segs with
  | [] => []
  | s :: rest =>
      match rest with
      | [] => s
      | _ :: _ => s ++ "."%char :: dotted rest
      end
  end.


(** A run of one or more [package_char]s. *)
Definition package_run (l : list ascii) : Prop :=
  l <> [] /\ forallb package_char l = true.

(** * Properties *)

Local Open Scope js_scope.

(** ** Node paths and header patterns on examples *)

Example extname_apk : path.extname "/work/app.apk" = ".apk".
Proof. reflexivity. Qed.
Example extname_dotfile : path.extname "/work/.bashrc" = "".
Proof. reflexivity. Qed.
Example extname_trailing_sep : path.extname "Payload/Demo.app/" = ".app".
Proof. reflexivity. Qed.
Example extname_dotdot : path.extname "a/.." = "".
Proof. reflexivity. Qed.
Example extname_two_dots : path.extname "a.tar.gz" = ".gz".
Proof. reflexivity. Qed.
Example basename_url : path.basename "/builds/latest/app.zip" = "app.zip".
Proof. reflexivity. Qed.
Example depth_top : path.depth "Demo.app" = 1%nat.
Proof. reflexivity. Qed.
Example depth_nested : path.depth "Payload/x/Demo.app" = 3%nat.
Proof. reflexivity. Qed.
Example resolve_relative : path.resolve "/work" "/work" "./app.apk" = "/work/app.apk".
Proof. reflexivity. Qed.
Example resolve_parent : path.resolve "/work" "/tmp/d1" "../x/./y.app" = "/tmp/x/y.app".
Proof. reflexivity. Qed.
Example mime_plain : is_zip_mime "application/zip" = true.
Proof. reflexivity. Qed.
Example mime_with_charset : is_zip_mime "application/zip; charset=binary" = true.
Proof. reflexivity. Qed.
Example mime_longer_word : is_zip_mime "application/zipped" = false.
Proof. reflexivity. Qed.
Example mime_octet : is_zip_mime "application/octet-stream" = false.
Proof. reflexivity. Qed.
Example mime_x_zip : is_zip_mime "text/plain, multipart/x-zip" = true.
Proof. reflexivity. Qed.
Example filename_quoted :
  filename_exec (chars "attachment; FileName=" ++ dquote :: chars "foo.zip" ++ [dquote])
  = Some (chars "foo.zip").
Proof. reflexivity. Qed.
Example filename_unquoted : filename_exec (chars "attachment; filename=foo.zip") = None.
Proof. reflexivity. Qed.

(** ** Running a sequence *)

Lemma bind_run {A B} (m : M A) (k : A -> M B) (st : State) :
  bind m k st = match m st with
                | (Ok a, st1) => k a st1
                | (Err x, st1) => (Err x, st1)
                end.
Proof. reflexivity. Qed.

Lemma bind_ok {A B} (m : M A) (k : A -> M B) (st st1 : State) (a : A) :
  m st = (Ok a, st1) -> bind m k st = k a st1.
Proof. intros H. now rewrite bind_run, H. Qed.

Lemma bind_err {A B} (m : M A) (k : A -> M B) (st st1 : State) (x : Error) :
  m st = (Err x, st1) -> bind m k st = (Err x, st1).
Proof. intros H. now rewrite bind_run, H. Qed.

Lemma try_finally_run {A} (m : M A) (cleanup : Result A -> M unit) (st : State) :
  try_finally m cleanup st
  = match cleanup (m st).1 (m st).2 with
    | (Ok _, st2) => ((m st).1, st2)
    | (Err x, st2) => (Err x, st2)
    end.
Proof. unfold try_finally. now destruct (m st). Qed.

(** ** Strings and paths *)

Lemma differ_true (a b : string) : differ a b = true <-> a <> b.
Proof.
  unfold differ. rewrite negb_true_iff. split.
  - intros H Heq. apply String.eqb_eq in Heq. congruence.
  - intros H. apply String.eqb_neq. exact H.
Qed.

(** [path.resolve] always answers with an absolute path. *)
Lemma resolve_isAbsolute (c a b : string) : path.isAbsolute (path.resolve c a b) = true.
Proof. reflexivity. Qed.

Lemma resolve_truthy (c a b : string) : truthy (path.resolve c a b) = true.
Proof. reflexivity. Qed.

Lemma isAbsolute_differ (a b : string) :
  path.isAbsolute a = true -> path.isAbsolute b = false -> differ b a = true.
Proof.
  intros Ha Hb. apply differ_true. intros ->. congruence.
Qed.

Lemma drop_chars_all (s : string) : drop_chars (String.length s) s = "".
Proof.
  unfold drop_chars, chars. induction s as [|c s IH]; [reflexivity|exact IH].
Qed.

Lemma append_empty_r (s : string) : s +:+ "" = s.
Proof.
  induction s as [|c s IH]; [reflexivity|].
  change (String c (s +:+ "") = String c s). now f_equal.
Qed.

(** ** File system *)

Section FileSystem.

Variable e : Env.

Lemma under_refl (r : string) : under r r = true.
Proof. unfold under. now rewrite String.eqb_refl. Qed.

Lemma remove_tree_lookup (p k : string) (fs : gmap string Node) :
  remove_tree e p fs !! k = if under (locate e p) k then None else fs !! k.
Proof.
  unfold remove_tree.
  destruct (under (locate e p) k) eqn:Hu.
  - apply map_lookup_filter_None. right. intros n _ Hk. simpl in Hk. congruence.
  - destruct (fs !! k) as [n|] eqn:Hk.
    + apply map_lookup_filter_Some. split; [exact Hk | exact Hu].
    + apply map_lookup_filter_None. left. exact Hk.
Qed.

Lemma remove_tree_gone (p k : string) (fs : gmap string Node) :
  under (locate e p) k = true -> remove_tree e p fs !! k = None.
Proof. intros H. now rewrite remove_tree_lookup, H. Qed.

Lemma remove_tree_exists (p : string) (fs : gmap string Node) :
  exists_in e (remove_tree e p fs) p = false.
Proof.
  unfold exists_in. rewrite remove_tree_gone by apply under_refl.
  rewrite bool_decide_eq_false_2; [apply andb_false_r|].
  intros [n Hn]. discriminate.
Qed.

Lemma remove_tree_other (p q : string) (fs : gmap string Node) :
  under (locate e p) (locate e q) = false ->
  exists_in e (remove_tree e p fs) q = exists_in e fs q.
Proof.
  intros H. unfold exists_in. now rewrite remove_tree_lookup, H.
Qed.

Lemma exists_in_insert_false (k : string) (n : Node) (fs : gmap string Node) (p : string) :
  exists_in e (<[k := n]> fs) p = false -> exists_in e fs p = false.
Proof.
  unfold exists_in. destruct (truthy p); [simpl|reflexivity].
  rewrite !bool_decide_eq_false. intros H [x Hx]. apply H.
  destruct (decide (k = locate e p)) as [->|Hne].
  - rewrite lookup_insert_eq. eauto.
  - rewrite lookup_insert_ne by exact Hne. eauto.
Qed.

Lemma exists_in_insert_eq (n : Node) (fs : gmap string Node) (p : string) :
  truthy p = true -> exists_in e (<[locate e p := n]> fs) p = true.
Proof.
  intros Hp. unfold exists_in. rewrite Hp, lookup_insert_eq. reflexivity.
Qed.

(** Moving a tree puts its root at the destination. *)
Lemma moved_root_present (s d : string) (n : Node)
  (moved rest : gmap string Node) :
  moved !! s = Some n ->
  is_Some (map_fold (fun k x acc => <[d +:+ drop_chars (String.length s) k := x]> acc)
                    rest moved !! d).
Proof.
  intros Hs.
  assert (Hgen : forall k, is_Some (moved !! k) ->
    is_Some (map_fold (fun k x acc => <[d +:+ drop_chars (String.length s) k := x]> acc)
                      rest moved !! (d +:+ drop_chars (String.length s) k))).
  { apply (map_fold_weak_ind
             (fun r (m : gmap string Node) => forall k, is_Some (m !! k) ->
                is_Some (r !! (d +:+ drop_chars (String.length s) k)))).
    - intros k [x Hx]. rewrite lookup_empty in Hx. discriminate.
    - intros i x m r Hi IH k Hk.
      destruct (decide (i = k)) as [->|Hne].
      + rewrite lookup_insert_eq. eauto.
      + rewrite lookup_insert_ne in Hk by exact Hne.
        specialize (IH k Hk).
        rewrite lookup_insert. case_decide; eauto. }
  specialize (Hgen s (ex_intro _ n Hs)).
  now rewrite drop_chars_all, append_empty_r in Hgen.
Qed.

End FileSystem.

(** ** The stable sort of [unzipApp] *)

Section Sorting.

Lemma by_depth_le (a b : string) :
  (by_depth a b <=? 0)%Z = true <-> (path.depth a <= path.depth b)%nat.
Proof. unfold by_depth. rewrite Z.leb_le. lia. Qed.

Lemma by_depth_gt (a b : string) :
  (by_depth a b <=? 0)%Z = false <-> (path.depth b < path.depth a)%nat.
Proof. unfold by_depth. rewrite Z.leb_gt. lia. Qed.

Lemma insert_sorted_perm (x : string) (l : list string) :
  Permutation (x :: l) (insert_sorted by_depth x l).
Proof.
  induction l as [|y r IH]; simpl.
  - apply Permutation_refl.
  - destruct (by_depth x y <=? 0)%Z.
    + apply Permutation_refl.
    + eapply perm_trans; [apply perm_swap|]. now apply perm_skip.
Qed.

Lemma sort_perm (l : list string) : Permutation l (sort by_depth l).
Proof.
  induction l as [|x r IH]; simpl.
  - apply perm_nil.
  - eapply perm_trans; [apply perm_skip, IH|]. apply insert_sorted_perm.
Qed.

Lemma insert_sorted_ascending (x : string) (l : list string) :
  StronglySorted shallower l -> StronglySorted shallower (insert_sorted by_depth x l).
Proof.
  induction 1 as [|y r Hr IH Hy]; simpl.
  - constructor; [constructor|constructor].
  - destruct (by_depth x y <=? 0)%Z eqn:Hc.
    + apply by_depth_le in Hc. constructor.
      * now constructor.
      * constructor; [exact Hc|].
        rewrite List.Forall_forall in Hy |- *. intros z Hz.
        specialize (Hy z Hz). unfold shallower in *. lia.
    + apply by_depth_gt in Hc. constructor; [exact IH|].
      rewrite List.Forall_forall in Hy |- *. intros z Hz.
      apply (Permutation_in _ (Permutation_sym (insert_sorted_perm x r))) in Hz.
      destruct Hz as [<-|Hz]; [unfold shallower; lia | now apply Hy].
Qed.

Lemma sort_ascending (l : list string) : StronglySorted shallower (sort by_depth l).
Proof.
  induction l as [|x r IH]; simpl; [constructor|].
  now apply insert_sorted_ascending.
Qed.

(** Entries of equal depth keep their relative order. *)
Lemma insert_sorted_stable (d : nat) (x : string) (l : list string) :
  List.filter (at_depth d) (insert_sorted by_depth x l)
  = List.filter (at_depth d) (x :: l).
Proof.
  induction l as [|y r IH]; [reflexivity|].
  simpl insert_sorted. destruct (by_depth x y <=? 0)%Z eqn:Hc; [reflexivity|].
  apply by_depth_gt in Hc.
  change (List.filter (at_depth d) (y :: insert_sorted by_depth x r))
    with (if at_depth d y then y :: List.filter (at_depth d) (insert_sorted by_depth x r)
          else List.filter (at_depth d) (insert_sorted by_depth x r)).
  rewrite IH. simpl. unfold at_depth.
  destruct (path.depth y =? d)%nat eqn:Hy, (path.depth x =? d)%nat eqn:Hx;
    try reflexivity.
  apply Nat.eqb_eq in Hy, Hx. lia.
Qed.

Lemma sort_stable (d : nat) (l : list string) :
  List.filter (at_depth d) (sort by_depth l) = List.filter (at_depth d) l.
Proof.
  induction l as [|x r IH]; [reflexivity|].
  simpl sort. rewrite insert_sorted_stable. simpl. now rewrite IH.
Qed.

Lemma sort_head_shallowest (l : list string) (m : string) (rest : list string) :
  sort by_depth l = m :: rest ->
  forall c, In c l -> (path.depth m <= path.depth c)%nat.
Proof.
  intros Hs c Hc.
  pose proof (sort_ascending l) as Ha. rewrite Hs in Ha.
  apply (Permutation_in _ (sort_perm l)) in Hc. rewrite Hs in Hc.
  inversion Ha as [|? ? _ Hall]; subst.
  destruct Hc as [<-|Hc]; [lia|].
  rewrite List.Forall_forall in Hall. now apply Hall.
Qed.

Lemma sort_nil (l : list string) : sort by_depth l = [] -> l = [].
Proof.
  intros Hs. pose proof (sort_perm l) as Hp. rewrite Hs in Hp.
  now apply Permutation_sym, Permutation_nil in Hp.
Qed.

End Sorting.

(** ** [unzipApp] *)

Section UnzipApp.

Variable e : Env.

Lemma fs_mv_present (src dst : string) (st : State) :
  is_Some (files st !! locate e src) ->
  exists st', fs_mv e src dst st = (Ok tt, st')
              /\ is_Some (files st' !! locate e dst)
              /\ cache st' = cache st /\ trace st' = trace st.
Proof.
  intros [n Hn]. unfold fs_mv. rewrite Hn.
  eexists. split; [reflexivity|]. split; [|split; reflexivity].
  simpl. apply (moved_root_present (locate e src) (locate e dst) n).
  apply map_lookup_filter_Some. split; [exact Hn|]. apply under_refl.
Qed.

Lemma fs_mv_inv (src dst : string) (st st' : State) (r : Result unit) :
  fs_mv e src dst st = (r, st') ->
  cache st' = cache st /\ trace st' = trace st /\ temps st' = temps st
  /\ ((r = Ok tt /\ is_Some (files st' !! locate e dst))
      \/ (exists x, r = Err x /\ st' = st)).
Proof.
  intros H. destruct (files st !! locate e src) as [n|] eqn:Hn.
  - destruct (fs_mv_present src dst st) as [st2 [Hmv [Hd [Hc Ht]]]]; [eauto|].
    rewrite Hmv in H. inversion H; subst.
    repeat split; try assumption.
    + unfold fs_mv in Hmv. rewrite Hn in Hmv. now inversion Hmv.
    + now left.
  - unfold fs_mv in H. rewrite Hn in H. inversion H; subst.
    repeat split. right. eauto.
Qed.

(** The archive is still where it was once the temporary directory, a
    new name, has been created. *)
Lemma archive_items_openDir (zipPath : string) (st : State) :
  files st !! locate e (tmp_dir e (temps st)) = None ->
  archive_items e (openDir e st).2 zipPath = archive_items e st zipPath.
Proof.
  intros Hnew. unfold archive_items, openDir. simpl.
  destruct (decide (locate e (tmp_dir e (temps st)) = locate e zipPath)) as [Heq|Hne].
  - rewrite Heq, lookup_insert_eq. rewrite Heq in Hnew. now rewrite Hnew.
  - now rewrite lookup_insert_ne by exact Hne.
Qed.

Lemma unzipApp_run (zipPath dstRoot : string) (exts : Extensions) (st : State)
  (items : list (string * Node)) :
  archive_items e st zipPath = Some items ->
  unzipApp e zipPath dstRoot exts st
  = let tmpRoot := tmp_dir e (temps st) in
    let inner := extraction e zipPath dstRoot (toArray exts) tmpRoot (openDir e st).2 in
    (inner.1, set_files (remove_tree e tmpRoot) inner.2).
Proof.
  intros Hitems. unfold unzipApp. rewrite bind_run. unfold assertValidZip.
  rewrite Hitems. rewrite bind_run.
  change (openDir e st) with (Ok (tmp_dir e (temps st)), (openDir e st).2).
  cbv iota beta zeta. rewrite try_finally_run. reflexivity.
Qed.

Lemma unzipApp_invalid (zipPath dstRoot : string) (exts : Extensions) (st : State) :
  archive_items e st zipPath = None ->
  unzipApp e zipPath dstRoot exts st = (Err (InvalidArchive zipPath), st).
Proof.
  intros Hitems. unfold unzipApp. rewrite bind_run. unfold assertValidZip.
  now rewrite Hitems.
Qed.

(** C5. Whatever way [unzipApp] ends, the temporary directory it opened
    is gone afterwards.  An invalid archive is rejected before any
    directory is opened (the state is untouched); in every other case,
    success or failure, nothing is left at or below [tmpRoot], and on
    success the bundle sits at the returned path provided that path is
    not inside [tmpRoot]. *)
Theorem unzipApp_releases_tmpRoot (zipPath dstRoot : string) (exts : Extensions)
  (st : State) :
  let tmpRoot := tmp_dir e (temps st) in
  let out := unzipApp e zipPath dstRoot exts st in
  match archive_items e st zipPath with
  | None => out = (Err (InvalidArchive zipPath), st)
  | Some _ =>
      exists_in e (files out.2) tmpRoot = false
      /\ (forall k, under (locate e tmpRoot) k = true -> files out.2 !! k = None)
      /\ (forall p, out.1 = Ok p ->
                    under (locate e tmpRoot) (locate e p) = false ->
                    exists_in e (files out.2) p = true)
  end.
Proof.
  intros tmpRoot out. subst out.
  destruct (archive_items e st zipPath) as [items|] eqn:Hitems;
    [|now apply unzipApp_invalid].
  rewrite (unzipApp_run _ _ _ _ _ Hitems). cbv zeta. fold tmpRoot.
  destruct (extraction e zipPath dstRoot (toArray exts) tmpRoot (openDir e st).2)
    as [r st2] eqn:Hinner.
  simpl.
  split; [apply remove_tree_exists|].
  split; [intros k Hk; now apply remove_tree_gone|].
  intros p -> Hout. rewrite remove_tree_other by exact Hout.
  unfold extraction in Hinner. rewrite bind_run in Hinner.
  destruct (extractAllTo e zipPath tmpRoot (openDir e st).2) as [[[]|x] st3] eqn:Hex;
    [|discriminate].
  rewrite bind_run in Hinner. unfold fs_glob, gets in Hinner.
  destruct (bundle_items (toArray exts) (glob e (files st3) (locate e tmpRoot)))
    as [|m rest]; [discriminate|].
  cbv zeta in Hinner. rewrite bind_run in Hinner. unfold ret in Hinner.
  destruct (fs_mv e _ _ st3) as [[[]|x] st4] eqn:Hmv; [|discriminate].
  inversion Hinner; subst.
  apply fs_mv_inv in Hmv.
  destruct Hmv as (_ & _ & _ & [[_ Hd]|[x [Hx _]]]); [|discriminate].
  unfold exists_in. rewrite resolve_truthy. simpl.
  now apply bool_decide_eq_true.
Qed.


(** [unzipApp] leaves the cache alone; when it succeeds it has extracted
    once and answers with an absolute path. *)
Lemma unzipApp_effects (zipPath dstRoot : string) (exts : Extensions)
  (st st' : State) (r : Result string) :
  unzipApp e zipPath dstRoot exts st = (r, st') ->
  cache st' = cache st
  /\ (forall p, r = Ok p ->
        path.isAbsolute p = true
        /\ trace st' = trace st ++ [EvExtract zipPath (tmp_dir e (temps st))]).
Proof.
  intros Hrun.
  destruct (archive_items e st zipPath) as [items|] eqn:Hitems.
  - rewrite (unzipApp_run _ _ _ _ _ Hitems) in Hrun. cbv zeta in Hrun.
    set (tmpRoot := tmp_dir e (temps st)) in *.
    destruct (extraction e zipPath dstRoot (toArray exts) tmpRoot (openDir e st).2)
      as [r0 st2] eqn:Hinner.
    cbn [fst snd] in Hrun. inversion Hrun; subst r0 st'. clear Hrun.
    unfold extraction in Hinner. rewrite bind_run in Hinner.
    unfold extractAllTo in Hinner.
    destruct (archive_items e (openDir e st).2 zipPath) as [items'|].
    + rewrite bind_run in Hinner. unfold fs_glob, gets in Hinner.
      match type of Hinner with context [bundle_items ?a ?b] =>
        destruct (bundle_items a b) as [|m rest] end.
      * inversion Hinner; subst. split; [reflexivity|]. intros p Hp. discriminate.
      * cbv zeta in Hinner. rewrite bind_run in Hinner.
        match type of Hinner with context [fs_mv e ?a ?b ?s] =>
          destruct (fs_mv e a b s) as [rm st4] eqn:Hmv end.
        apply fs_mv_inv in Hmv. destruct Hmv as (Hc & Ht & _ & _).
        destruct rm as [[]|x]; inversion Hinner; subst.
        -- split; [exact Hc|]. intros p Hp. inversion Hp; subst.
           split; [apply resolve_isAbsolute|]. cbn [trace set_files]. exact Ht.
        -- split; [exact Hc|]. intros p Hp. discriminate.
    + inversion Hinner; subst. split; [reflexivity|]. intros p Hp. discriminate.
  - rewrite (unzipApp_invalid _ _ _ _ Hitems) in Hrun. inversion Hrun; subst.
    split; [reflexivity|]. intros p Hp. discriminate.
Qed.

End UnzipApp.

(** ** [configureApp] *)

Section Acquire.

Variable e : Env.

(** C10. Given anything but a string as [app], [configureApp] returns at
    once with no value ([undefined]) and no error; the state, and with it
    the cache and the trace of network requests, is what it was. *)
Theorem configureApp_not_a_string (app : JSValue) (exts : Extensions) (st : State) :
  isString app = false ->
  configureApp e app exts st = (Ok None, st).
Proof.
  intros Happ. destruct app; try reflexivity. discriminate.
Qed.

Lemma guarded_local (app : string) (exts : list string) (st : State) :
  isUrl (url_parse e app) = false ->
  exists_in e (files st) app = true ->
  guarded e app exts st
  = finish e exts (mkLocals app app (includes ZIP_EXTS (path.extname app)) None None) st.
Proof.
  intros Hurl Hex. unfold guarded. cbv zeta. rewrite Hurl, bind_run.
  unfold use_local. rewrite bind_run. unfold fs_exists, gets. rewrite Hex.
  reflexivity.
Qed.

Lemma update_cache_same_key (p : string) (u : bool) (h : option string)
  (d : option Date) (st : State) :
  update_cache e (mkLocals p p u h d) st = (Ok tt, st).
Proof.
  unfold update_cache. cbn [key newApp]. unfold differ.
  now rewrite String.eqb_refl.
Qed.

(** C8. An existing local descriptor that is neither an archive nor an
    absolute path is rewritten to [path.resolve(process.cwd(), app)], an
    absolute path, and from there on the rewritten value stands for both
    [app] (the cache key) and [newApp]: it is the path validated and
    returned, and since key and path coincide no cache entry is written
    for it or for the original descriptor. *)
Theorem configureApp_resolves_relative (app : string) (exts : Extensions) (st : State) :
  isUrl (url_parse e app) = false ->
  exists_in e (files st) app = true ->
  includes ZIP_EXTS (path.extname app) = false ->
  path.isAbsolute app = false ->
  let rewritten := path.resolve (cwd e) (cwd e) app in
  path.isAbsolute rewritten = true
  /\ extract_or_resolve e (toArray exts) (mkLocals app app false None None) st
     = (Ok (Continue (mkLocals rewritten rewritten false None None)), st)
  /\ configureApp e (JSString app) exts st
     = (if includes (toArray exts) (path.extname rewritten)
        then Ok (Some rewritten)
        else Err (UnsupportedExtension rewritten (toArray exts)), st).
Proof.
  intros Hurl Hex Hzip Habs rewritten.
  assert (Hstep : extract_or_resolve e (toArray exts) (mkLocals app app false None None) st
                  = (Ok (Continue (mkLocals rewritten rewritten false None None)), st)).
  { unfold extract_or_resolve. cbn [shouldUnzipApp newApp]. now rewrite Habs. }
  split; [apply resolve_isAbsolute|]. split; [exact Hstep|].
  unfold configureApp. rewrite bind_run.
  rewrite (guarded_local app (toArray exts) st Hurl Hex), Hzip.
  unfold finish. rewrite (bind_ok _ _ _ _ _ Hstep).
  unfold verify_and_store, verifyAppExtension. cbn [newApp].
  destruct (includes (toArray exts) (path.extname rewritten)).
  - rewrite bind_run. unfold ret at 1. rewrite bind_run, update_cache_same_key.
    reflexivity.
  - reflexivity.
Qed.

(** A probe with a token no newer than the stored one, and the stored
    artifact on disk: the call ends at line 126. *)
Lemma guarded_fresh (app : string) (exts : list string) (st : State)
  (h : Headers) (text : string) (entry : CacheEntry) (stored : Date) :
  isUrl (url_parse e app) = true ->
  http_head e app = Some h ->
  header h "last-modified" = Some text ->
  cache st !! app = Some entry ->
  lastModified entry = Some stored ->
  time_le (date_parse e text) stored = true ->
  exists_in e (files st) (fullPath entry) = true ->
  guarded e app exts st
  = (if includes exts (path.extname (fullPath entry))
     then Ok (fullPath entry)
     else Err (UnsupportedExtension (fullPath entry) exts),
     log (EvHead app) st).
Proof.
  intros Hurl Hhead Htoken Hentry Hstored Hle Hdisk.
  unfold guarded. cbv zeta. rewrite Hurl, bind_run.
  unfold use_remote. rewrite bind_run. unfold retrieveHeaders. rewrite Hhead.
  rewrite Htoken. rewrite bind_run.
  unfold reuse_fresh. rewrite bind_run.
  unfold getCachedApplicationPath, gets. cbn [cache log].
  rewrite Hentry, Hstored, Hle.
  assert (Htruthy : truthy (fullPath entry) = true).
  { unfold exists_in in Hdisk. now apply andb_true_iff in Hdisk. }
  rewrite Htruthy, bind_run. unfold fs_exists, gets. cbn [files log].
  rewrite Hdisk. unfold verifyAppExtension.
  destruct (includes exts (path.extname (fullPath entry))); reflexivity.
Qed.

Lemma downloads_log_head (link : string) (st : State) :
  downloads (log (EvHead link) st) = downloads st.
Proof.
  unfold downloads, log. cbn [trace]. rewrite List.filter_app. cbn.
  now rewrite app_nil_r.
Qed.

Lemma extractions_log_head (link : string) (st : State) :
  extractions (log (EvHead link) st) = extractions st.
Proof.
  unfold extractions, log. cbn [trace]. rewrite List.filter_app. cbn.
  now rewrite app_nil_r.
Qed.

(** C1 (amended). For a URL descriptor whose probe yields a last-modified
    token, with a cache entry whose stored token is at least as recent and
    whose path is still on disk, no download is performed and nothing on
    disk or in the cache changes; the stored path is returned when its
    extension belongs to the supported set of this call, and the call
    fails with [UnsupportedExtension] when it does not. *)
Theorem configureApp_fresh_hit (app : string) (exts : Extensions) (st : State)
  (h : Headers) (text : string) (entry : CacheEntry) (stored : Date) :
  isUrl (url_parse e app) = true ->
  http_head e app = Some h ->
  header h "last-modified" = Some text ->
  cache st !! app = Some entry ->
  lastModified entry = Some stored ->
  time_le (date_parse e text) stored = true ->
  exists_in e (files st) (fullPath entry) = true ->
  let out := configureApp e (JSString app) exts st in
  out.1 = (if includes (toArray exts) (path.extname (fullPath entry))
           then Ok (Some (fullPath entry))
           else Err (UnsupportedExtension (fullPath entry) (toArray exts)))
  /\ downloads out.2 = downloads st
  /\ extractions out.2 = extractions st
  /\ files out.2 = files st
  /\ cache out.2 = cache st.
Proof.
  intros Hurl Hhead Htoken Hentry Hstored Hle Hdisk out. subst out.
  unfold configureApp. rewrite bind_run.
  rewrite (guarded_fresh app (toArray exts) st h text entry stored) by assumption.
  destruct (includes (toArray exts) (path.extname (fullPath entry)));
    cbn [fst snd ret]; (split; [reflexivity|]);
    (split; [apply downloads_log_head|]);
    (split; [apply extractions_log_head|]); split; reflexivity.
Qed.

Lemma zip_extension_truthy (basename : string) :
  includes ZIP_EXTS (path.extname basename) = true -> truthy basename = true.
Proof. destruct basename; [discriminate|reflexivity]. Qed.

(** C2 (amended). The destination name is: the sanitised attachment file
    name of the content-disposition header whenever there is one, replacing
    a name derived from the URL basename or the content type (and falling
    back to the default name when it sanitises to nothing); otherwise the
    URL basename when it carries an archive extension; otherwise the fixed
    default archive name when the content type is an archive type;
    otherwise the URL basename with an unsupported extension replaced by
    the first supported one.  The content type never replaces a name taken
    from the basename.  The download is marked for extraction when the
    basename or the attachment name has an archive extension or the
    content type is an archive type. *)
Theorem destination_priority (basename : string) (headers : Headers)
  (exts : list string) :
  destination e basename headers exts
  = destination_by_priority e basename headers exts
  /\ (includes ZIP_EXTS (path.extname basename) = true ->
      (name_from_content_type headers
         (name_from_url basename (path.extname basename))).1 = Some basename).
Proof.
  split.
  - unfold destination, destination_by_priority, name_from_content_disposition,
      name_from_content_type, name_from_url, attachment_name, zip_content_type.
    cbv zeta.
    destruct (includes ZIP_EXTS (path.extname basename)) eqn:Hzip.
    + pose proof (zip_extension_truthy basename Hzip) as Hb.
      destruct (header headers "content-type") as [ct|];
        [destruct (is_zip_mime ct)|];
        (destruct (header headers "content-disposition") as [cd|];
         [destruct (is_attachment cd); [destruct (filename_exec (chars cd))|]|]);
        repeat (progress (cbn [fst snd unset name_fallback orb negb]; rewrite ?Hb));
        reflexivity.
    + destruct (header headers "content-type") as [ct|];
        [destruct (is_zip_mime ct)|];
        (destruct (header headers "content-disposition") as [cd|];
         [destruct (is_attachment cd); [destruct (filename_exec (chars cd))|]|]);
        cbn [fst snd unset name_fallback orb negb]; reflexivity.
  - intros Hzip. unfold name_from_content_type, name_from_url. rewrite Hzip.
    pose proof (zip_extension_truthy basename Hzip) as Hb.
    destruct (header headers "content-type") as [ct|];
      [destruct (is_zip_mime ct)|];
      repeat (progress (cbn [fst unset negb]; rewrite ?Hb)); reflexivity.
Qed.

(** *** The archive stage, lines 196-219 *)

Lemma fs_hash_file (p c : string) (st : State) :
  files st !! locate e p = Some (File c) ->
  fs_hash e p st = (Ok (digest e c), st).
Proof. intros H. unfold fs_hash. now rewrite H. Qed.

Lemma fs_hash_state (p : string) (st st' : State) (r : Result string) :
  fs_hash e p st = (r, st') -> st' = st.
Proof.
  unfold fs_hash. destruct (files st !! locate e p) as [[c|]|];
    intros H; now inversion H.
Qed.

Lemma cache_del_purge (app : string) (entry : CacheEntry) (st : State) :
  cache st !! app = Some entry ->
  exists_in e (files st) (fullPath entry) = false ->
  cache_del e app st = (Ok tt, set_cache (delete app) st).
Proof.
  intros Hentry Hgone. unfold cache_del. rewrite bind_run.
  unfold cache_get, gets. rewrite Hentry, bind_run.
  unfold dispose. rewrite bind_run. unfold fs_exists, gets. now rewrite Hgone.
Qed.

(** The three ways lines 199-210 can go: the cached artifact is reused,
    a stale entry is purged, or nothing matches. *)
Lemma reuse_extracted_cases (app archivePath d : string) (exts : list string)
  (st : State) :
  (exists entry,
      cache st !! app = Some entry /\ hash entry = Some d
      /\ exists_in e (files st) (fullPath entry) = true
      /\ reuse_extracted e app archivePath d exts st
         = (if includes exts (path.extname (fullPath entry))
            then Ok (Some (fullPath entry))
            else Err (UnsupportedExtension (fullPath entry) exts),
            if differ archivePath app
            then set_files (remove_tree e archivePath) st else st))
  \/ (exists entry,
      cache st !! app = Some entry /\ hash entry = Some d
      /\ exists_in e (files st) (fullPath entry) = false
      /\ reuse_extracted e app archivePath d exts st
         = (Ok None, set_cache (delete app) st))
  \/ ((forall entry, cache st !! app = Some entry -> hash entry <> Some d)
      /\ reuse_extracted e app archivePath d exts st = (Ok None, st)).
Proof.
  unfold reuse_extracted. rewrite bind_run. unfold cache_get, gets.
  destruct (cache st !! app) as [entry|] eqn:Hentry.
  - destruct (hash entry) as [stored|] eqn:Hhash.
    + destruct (String.eqb d stored) eqn:Heq.
      * apply String.eqb_eq in Heq. subst stored.
        rewrite bind_run. unfold fs_exists, gets.
        destruct (exists_in e (files st) (fullPath entry)) eqn:Hdisk.
        -- left. exists entry. repeat (split; [assumption || reflexivity|]).
           rewrite bind_run. unfold verifyAppExtension.
           destruct (differ archivePath app);
             unfold fs_rimraf, modify, ret; rewrite bind_run;
             destruct (includes exts (path.extname (fullPath entry))); reflexivity.
        -- right. left. exists entry. repeat (split; [assumption || reflexivity|]).
           rewrite bind_run, (cache_del_purge app entry st Hentry Hdisk). reflexivity.
      * right. right. split; [|reflexivity].
        intros entry' Hentry'. inversion Hentry'; subst entry'.
        rewrite Hhash. intros Hsame. inversion Hsame; subst.
        now rewrite String.eqb_refl in Heq.
    + right. right. split; [|reflexivity].
      intros entry' Hentry'. inversion Hentry'; subst entry'. now rewrite Hhash.
  - right. right. split; [|reflexivity]. intros entry' Hentry'. discriminate.
Qed.

Lemma extractions_log_extract (zipPath tmpRoot : string) (tr : list Event) :
  length (List.filter is_extract (tr ++ [EvExtract zipPath tmpRoot]))
  = S (length (List.filter is_extract tr)).
Proof.
  rewrite List.filter_app, length_app. cbn. lia.
Qed.

(** Lines 211-219 leave the cache alone; when they succeed they have
    extracted once and [newApp] is an absolute path. *)
Lemma extract_archive_effects (exts : list string) (v : Locals) (d : string)
  (st st' : State) (r : Result Flow) :
  extract_archive e exts v d st = (r, st') ->
  cache st' = cache st
  /\ (forall f, r = Ok f ->
        exists p, f = Continue (mkLocals (key v) p true (Some d) (currentModified v))
                  /\ path.isAbsolute p = true
                  /\ extractions st' = S (extractions st)).
Proof.
  unfold extract_archive. cbv zeta. rewrite bind_run.
  change (openDir e st) with (Ok (tmp_dir e (temps st)), (openDir e st).2).
  cbv iota beta. rewrite bind_run, try_finally_run.
  destruct (unzipApp e (newApp v) (tmp_dir e (temps st)) (ExtensionArray exts)
              (openDir e st).2) as [ru st2] eqn:Hunzip.
  apply unzipApp_effects in Hunzip. destruct Hunzip as [Hcache Hok].
  cbn [fst snd]. destruct ru as [p|x].
  - destruct (Hok p eq_refl) as [Habs Htrace].
    assert (Hx2 : extractions st2 = S (extractions st)).
    { unfold extractions. rewrite Htrace. apply extractions_log_extract. }
    destruct (differ p (newApp v) && differ (newApp v) (key v));
      unfold fs_rimraf, modify, ret; intros H; inversion H; subst;
      (split; [exact Hcache|]); intros f Hf; inversion Hf; subst;
      exists p; repeat split; assumption.
  - unfold differ at 1. rewrite String.eqb_refl. cbn [negb andb]. unfold ret.
    intros H. inversion H; subst. split; [exact Hcache|].
    intros f Hf. discriminate.
Qed.

(** Lines 227-243: a failed check changes nothing; a passed one writes at
    most the entry of the key. *)
Lemma verify_and_store_effects (exts : list string) (v : Locals)
  (st st' : State) (r : Result string) :
  verify_and_store e exts v st = (r, st') ->
  match r with
  | Err _ => st' = st
  | Ok p =>
      p = newApp v /\ trace st' = trace st
      /\ cache st'
         = if differ (key v) (newApp v)
              && (truthy_opt (archiveHash v) || bool_decide (is_Some (currentModified v)))
           then <[key v := mkEntry (archiveHash v) (currentModified v) (newApp v)]> (cache st)
           else cache st
  end.
Proof.
  unfold verify_and_store, verifyAppExtension.
  destruct (includes exts (path.extname (newApp v))).
  - rewrite bind_run. unfold ret at 1. rewrite bind_run.
    unfold update_cache.
    destruct (differ (key v) (newApp v)
              && (truthy_opt (archiveHash v) || bool_decide (is_Some (currentModified v)))).
    + rewrite bind_run. unfold cache_get, gets. rewrite bind_run.
      destruct (cache st !! key v) as [old|].
      * destruct (differ (fullPath old) (newApp v)).
        -- rewrite bind_run. unfold fs_exists, gets.
           destruct (exists_in e (files st) (fullPath old));
             unfold fs_rimraf, modify, cache_set, ret;
             intros H; inversion H; subst; repeat split.
        -- unfold cache_set, modify, ret. intros H; inversion H; subst; repeat split.
      * unfold cache_set, modify, ret. intros H; inversion H; subst; repeat split.
    + unfold ret. intros H; inversion H; subst; repeat split.
  - unfold throw. intros H. now inversion H.
Qed.

(** Lines 196-243 for an archive at [newApp v] that is not the descriptor
    itself: the cached artifact is reused when the digests agree and it
    is on disk, and extraction with a cache update follows otherwise. *)
Lemma finish_archive (exts : list string) (v : Locals) (st : State)
  (c : string) :
  shouldUnzipApp v = true ->
  files st !! locate e (newApp v) = Some (File c) ->
  differ (newApp v) (key v) = true ->
  (forall entry,
      cache st !! key v = Some entry ->
      hash entry = Some (digest e c) ->
      exists_in e (files st) (fullPath entry) = true ->
      let out := finish e exts v st in
      out.1 = (if includes exts (path.extname (fullPath entry))
               then Ok (fullPath entry)
               else Err (UnsupportedExtension (fullPath entry) exts))
      /\ exists_in e (files out.2) (newApp v) = false
      /\ extractions out.2 = extractions st
      /\ cache out.2 = cache st)
  /\ ((forall entry,
         cache st !! key v = Some entry ->
         hash entry = Some (digest e c) ->
         exists_in e (files st) (fullPath entry) = false) ->
      truthy (digest e c) = true ->
      path.isAbsolute (key v) = false ->
      forall p st',
        finish e exts v st = (Ok p, st') ->
        cache st' !! key v = Some (mkEntry (Some (digest e c)) (currentModified v) p)
        /\ extractions st' = S (extractions st)).
Proof.
  intros Hzip Hfile Hdiff.
  assert (Hstart : finish e exts v st
    = match reuse_extracted e (key v) (newApp v) (digest e c) exts st with
      | (Ok (Some p), st1) => (Ok p, st1)
      | (Ok None, st1) =>
          match extract_archive e exts v (digest e c) st1 with
          | (Ok (Return p), st2) => (Ok p, st2)
          | (Ok (Continue v'), st2) => verify_and_store e exts v' st2
          | (Err x, st2) => (Err x, st2)
          end
      | (Err x, st1) => (Err x, st1)
      end).
  { unfold finish, extract_or_resolve. rewrite Hzip. cbv zeta.
    rewrite !bind_run, (fs_hash_file _ _ _ Hfile). cbv beta iota.
    rewrite bind_run.
    destruct (reuse_extracted e (key v) (newApp v) (digest e c) exts st)
      as [[[p|]|x] st1]; try reflexivity.
    destruct (extract_archive e exts v (digest e c) st1) as [[[q|v']|x] st2];
      reflexivity. }
  split.
  - intros entry Hentry Hhash Hdisk out. subst out. rewrite Hstart.
    destruct (reuse_extracted_cases (key v) (newApp v) (digest e c) exts st)
      as [(en & Hen & _ & _ & Hrun)|[(en & Hen & _ & Hgone & _)|(Hnone & _)]].
    + rewrite Hentry in Hen. inversion Hen; subst en.
      rewrite Hrun, Hdiff.
      destruct (includes exts (path.extname (fullPath entry))); cbn [fst snd];
        (split; [reflexivity|]); (split; [apply remove_tree_exists|]);
        split; reflexivity.
    + rewrite Hentry in Hen. inversion Hen; subst en. congruence.
    + now destruct (Hnone entry Hentry).
  - intros Hmiss Htruthy Hkey p st' Hrun. rewrite Hstart in Hrun.
    assert (Hgo : exists st1,
      reuse_extracted e (key v) (newApp v) (digest e c) exts st = (Ok None, st1)
      /\ trace st1 = trace st).
    { destruct (reuse_extracted_cases (key v) (newApp v) (digest e c) exts st)
        as [(en & Hen & Hh & Hdisk & _)|[(en & _ & _ & _ & Heq)|(_ & Heq)]].
      - specialize (Hmiss en Hen Hh). congruence.
      - eexists. split; [exact Heq|reflexivity].
      - eexists. split; [exact Heq|reflexivity]. }
    destruct Hgo as (st1 & Hreuse & Htrace1). rewrite Hreuse in Hrun.
    destruct (extract_archive e exts v (digest e c) st1) as [r2 st2] eqn:Hextract.
    apply extract_archive_effects in Hextract. destruct Hextract as [_ Hok].
    destruct r2 as [f|x]; [|discriminate].
    destruct (Hok f eq_refl) as (q & -> & Habs & Hcount).
    apply verify_and_store_effects in Hrun. cbn [key newApp archiveHash currentModified] in Hrun.
    destruct Hrun as (-> & Htrace & Hcache).
    rewrite (isAbsolute_differ q (key v) Habs Hkey) in Hcache.
    cbn [truthy_opt] in Hcache. rewrite Htruthy in Hcache. cbn [andb orb] in Hcache.
    split.
    + rewrite Hcache. apply lookup_insert_eq.
    + unfold extractions in *. now rewrite Htrace, Hcount, Htrace1.
Qed.

(** A failure between line 196 and line 243 leaves the cache as it was, or
    short of the stale entry of the key. *)
Lemma finish_err (exts : list string) (v : Locals) (st st' : State) (x : Error) :
  finish e exts v st = (Err x, st') ->
  purged_or_same e (key v) st st'.
Proof.
  unfold finish. rewrite bind_run. unfold extract_or_resolve.
  destruct (shouldUnzipApp v).
  - cbv zeta. rewrite bind_run.
    destruct (fs_hash e (newApp v) st) as [[d|y] st0] eqn:Hhash;
      apply fs_hash_state in Hhash; subst st0.
    + rewrite bind_run.
      destruct (reuse_extracted_cases (key v) (newApp v) d exts st)
        as [(en & Hen & _ & _ & Heq)|[(en & Hen & _ & Hgone & Heq)|(_ & Heq)]];
        rewrite Heq.
      * destruct (includes exts (path.extname (fullPath en))); [discriminate|].
        intros H. inversion H; subst. left.
        destruct (differ (newApp v) (key v)); reflexivity.
      * destruct (extract_archive e exts v d (set_cache (delete (key v)) st))
          as [r2 st2] eqn:Hextract.
        apply extract_archive_effects in Hextract. destruct Hextract as [Hcache Hok].
        assert (Hst2 : purged_or_same e (key v) st st2).
        { right. exists en. repeat split; assumption. }
        destruct r2 as [f|y].
        -- destruct (Hok f eq_refl) as (q & -> & _ & _).
           intros H. apply verify_and_store_effects in H. now subst.
        -- intros H. inversion H; now subst.
      * destruct (extract_archive e exts v d st) as [r2 st2] eqn:Hextract.
        apply extract_archive_effects in Hextract. destruct Hextract as [Hcache Hok].
        destruct r2 as [f|y].
        -- destruct (Hok f eq_refl) as (q & -> & _ & _).
           intros H. apply verify_and_store_effects in H. subst. now left.
        -- intros H. inversion H; subst. now left.
    + intros H. inversion H; subst. now left.
  - destruct (negb (path.isAbsolute (newApp v))); cbv zeta; unfold ret at 1;
      intros H; apply verify_and_store_effects in H; subst; now left.
Qed.

(** C7 (amended). An existing local file that is not an archive ([.zip],
    [.ipa]) and whose extension, once the path is made absolute, is not in
    the supported set fails with [UnsupportedExtension], which names that
    path and the whole supported set; the state is untouched.  An existing
    local [.ipa] (or [.zip]) is an archive instead: with no cache entry
    for it, it is handed to [unzipApp], and whatever [unzipApp] fails
    with is the failure of the call. *)
Theorem configureApp_local_extension (app : string) (exts : Extensions) (st : State) :
  isUrl (url_parse e app) = false ->
  exists_in e (files st) app = true ->
  (includes ZIP_EXTS (path.extname app) = false ->
   let final :=
     if path.isAbsolute app then app else path.resolve (cwd e) (cwd e) app in
   includes (toArray exts) (path.extname final) = false ->
   configureApp e (JSString app) exts st
   = (Err (UnsupportedExtension final (toArray exts)), st))
  /\ (includes ZIP_EXTS (path.extname app) = true ->
      forall c x,
        files st !! locate e app = Some (File c) ->
        cache st !! app = None ->
        (unzipApp e app (tmp_dir e (temps st)) (ExtensionArray (toArray exts))
                  (openDir e st).2).1 = Err x ->
        (configureApp e (JSString app) exts st).1 = Err x).
Proof.
  intros Hurl Hdisk. split.
  - intros Hzip final Hext. unfold configureApp. rewrite bind_run.
    rewrite (guarded_local app (toArray exts) st Hurl Hdisk), Hzip.
    unfold finish, extract_or_resolve. cbn [shouldUnzipApp newApp].
    rewrite bind_run. subst final.
    destruct (path.isAbsolute app); cbn [negb]; cbv zeta; unfold ret at 1;
      unfold verify_and_store, verifyAppExtension; cbn [newApp];
      rewrite Hext; reflexivity.
  - intros Hzip c x Hfile Hnone Hunzip. unfold configureApp. rewrite bind_run.
    rewrite (guarded_local app (toArray exts) st Hurl Hdisk), Hzip.
    unfold finish, extract_or_resolve. cbn [shouldUnzipApp newApp key]. cbv zeta.
    rewrite !bind_run, (fs_hash_file _ _ _ Hfile). cbv beta iota.
    rewrite bind_run.
    destruct (reuse_extracted_cases app app (digest e c) (toArray exts) st)
      as [(en & Hen & _)|[(en & Hen & _)|(_ & Heq)]]; try congruence.
    rewrite Heq. unfold extract_archive. cbn [newApp key]. cbv zeta.
    rewrite bind_run.
    change (openDir e st) with (Ok (tmp_dir e (temps st)), (openDir e st).2).
    cbv iota beta. rewrite bind_run, try_finally_run.
    destruct (unzipApp e app (tmp_dir e (temps st)) (ExtensionArray (toArray exts))
                (openDir e st).2) as [ru st2].
    cbn [fst snd] in Hunzip |- *. subst ru.
    unfold differ at 1. rewrite String.eqb_refl. reflexivity.
Qed.

(** *** The URL branch, lines 114-181 *)

Lemma getCachedApplicationPath_entry (app : string) (current : option Date)
  (st st' : State) (p : string) :
  getCachedApplicationPath app current st = (Ok (Some p), st') ->
  exists entry, cache st !! app = Some entry /\ fullPath entry = p.
Proof.
  unfold getCachedApplicationPath, gets.
  destruct (cache st !! app) as [entry|]; [|destruct current; discriminate].
  destruct current as [cur|]; [|discriminate].
  destruct (lastModified entry) as [stored|]; [|discriminate].
  destruct (time_le cur stored); [|discriminate].
  intros H. inversion H. eauto.
Qed.

Lemma reuse_fresh_effects (app : string) (current : option Date) (exts : list string)
  (st st' : State) (r : Result (option string)) :
  reuse_fresh e app current exts st = (r, st') ->
  files st' = files st /\ trace st' = trace st /\ temps st' = temps st
  /\ purged_or_same e app st st'.
Proof.
  unfold reuse_fresh. rewrite bind_run.
  destruct (getCachedApplicationPath app current st) as [[[p|]|x] st0] eqn:Hget.
  - pose proof Hget as Hst. unfold getCachedApplicationPath, gets in Hst.
    inversion Hst; subst st0. clear Hst.
    apply getCachedApplicationPath_entry in Hget.
    destruct Hget as (entry & Hentry & <-).
    destruct (truthy (fullPath entry)).
    + rewrite bind_run. unfold fs_exists, gets.
      destruct (exists_in e (files st) (fullPath entry)) eqn:Hdisk.
      * rewrite bind_run. unfold verifyAppExtension.
        destruct (includes exts (path.extname (fullPath entry)));
          intros H; inversion H; subst; repeat split; now left.
      * rewrite bind_run, (cache_del_purge app entry st Hentry Hdisk).
        intros H. inversion H; subst. repeat split.
        right. exists entry. repeat split; assumption.
    + intros H. inversion H; subst. repeat split. now left.
  - unfold getCachedApplicationPath, gets in Hget. inversion Hget; subst.
    intros H. inversion H; subst. repeat split. now left.
  - unfold getCachedApplicationPath, gets in Hget. inversion Hget.
Qed.

Lemma use_remote_effects (app : string) (u : Url) (exts : list string)
  (st st' : State) (r : Result Flow) :
  use_remote e app u exts st = (r, st') ->
  purged_or_same e app st st'
  /\ (forall p, exists_in e (files st') p = false -> exists_in e (files st) p = false)
  /\ (forall v, r = Ok (Continue v) -> key v = app).
Proof.
  unfold use_remote. rewrite bind_run.
  set (st0 := log (EvHead app) st).
  assert (Hhead : retrieveHeaders e app st
                  = (Ok (match http_head e app with Some h => h | None => ∅ end), st0)).
  { unfold retrieveHeaders. now destruct (http_head e app). }
  rewrite Hhead. clear Hhead.
  set (headers := match http_head e app with Some h => h | None => ∅ end).
  set (current := match header headers "last-modified" with
                  | Some text => Some (date_parse e text)
                  | None => None
                  end).
  rewrite bind_run.
  destruct (reuse_fresh e app current exts st0) as [r1 st1] eqn:Hreuse.
  apply reuse_fresh_effects in Hreuse.
  destruct Hreuse as (Hfiles & _ & _ & Hcache).
  assert (Hrel : purged_or_same e app st st1).
  { destruct Hcache as [Hc|(en & Hen & Hgone & Hc)]; [now left|].
    right. exists en. repeat split; assumption. }
  assert (Hmono : forall p, exists_in e (files st1) p = false ->
                            exists_in e (files st) p = false).
  { intros p. now rewrite Hfiles. }
  destruct r1 as [[p|]|x].
  - intros H. inversion H; subst. repeat split; try assumption. discriminate.
  - destruct (decoded_pathname e u) as [decoded|].
    + set (d := destination e (sanitize e (path.basename decoded)) headers exts).
      rewrite bind_run. unfold tempDir_path. rewrite bind_run.
      change (openDir e st1) with (Ok (tmp_dir e (temps st1)), (openDir e st1).2).
      cbv iota beta. unfold ret at 1. rewrite bind_run.
      unfold downloadApp.
      destruct (http_get e (href (url_parse e app))) as [cause [w|]|body];
        intros H; inversion H; subst; cbn [cache files openDir set_files log next_temp];
        (split; [exact Hrel|]); (split; [|intros v Hv; now inversion Hv]);
        intros p Hp; apply Hmono;
        repeat (apply exists_in_insert_false in Hp); exact Hp.
    + unfold throw. intros H. inversion H; subst.
      repeat split; try assumption. discriminate.
  - intros H. inversion H; subst. repeat split; try assumption. discriminate.
Qed.

Lemma use_local_effects (app : string) (u : Url) (st st' : State) (r : Result Flow) :
  use_local e app u st = (r, st') ->
  st' = st /\ (forall v, r = Ok (Continue v) -> key v = app).
Proof.
  unfold use_local. rewrite bind_run. unfold fs_exists, gets.
  destruct (exists_in e (files st) app).
  - unfold ret. intros H. inversion H; subst. split; [reflexivity|].
    intros v Hv. now inversion Hv.
  - destruct (protocol u) as [proto|];
      [destruct (2 <? String.length proto)%nat|];
      unfold throw; intros H; inversion H; subst; split; try reflexivity;
      discriminate.
Qed.

Lemma guarded_err (app : string) (exts : list string) (st st' : State) (x : Error) :
  guarded e app exts st = (Err x, st') ->
  purged_or_same e app st st'.
Proof.
  unfold guarded. cbv zeta. rewrite bind_run.
  destruct (isUrl (url_parse e app)).
  - destruct (use_remote e app (url_parse e app) exts st) as [r1 st1] eqn:Hfirst.
    apply use_remote_effects in Hfirst. destruct Hfirst as (Hrel & Hmono & Hkey).
    destruct r1 as [[p|v]|y].
    + discriminate.
    + intros H. apply finish_err in H. rewrite (Hkey v eq_refl) in H.
      destruct Hrel as [Hsame|(en & Hen & Hgone & Hdel)].
      * destruct H as [H|(en & Hen & Hgone & Hdel)].
        -- left. congruence.
        -- right. exists en. rewrite Hsame in Hen, Hdel.
           repeat split; try assumption. now apply Hmono.
      * destruct H as [H|(en' & Hen' & _)].
        -- right. exists en. repeat split; try assumption. congruence.
        -- rewrite Hdel, lookup_delete_eq in Hen'. discriminate.
    + intros H. inversion H; subst. exact Hrel.
  - destruct (use_local e app (url_parse e app) st) as [r1 st1] eqn:Hfirst.
    apply use_local_effects in Hfirst. destruct Hfirst as (-> & Hkey).
    destruct r1 as [[p|v]|y].
    + discriminate.
    + intros H. apply finish_err in H. now rewrite (Hkey v eq_refl) in H.
    + intros H. inversion H; subst. now left.
Qed.

(** C6 (amended). A call that fails never adds an entry to the cache and
    never changes one: the one write, [APPLICATIONS_CACHE.set], is the
    last step of a successful call.  The cache after a failed call is the
    cache before it, except that the entry of the descriptor itself may
    have been dropped, which happens only when its stored path was found
    missing on disk. *)
Theorem configureApp_failure_cache (app : JSValue) (exts : Extensions)
  (st st' : State) (x : Error) :
  configureApp e app exts st = (Err x, st') ->
  cache st' = cache st
  \/ exists s entry,
       app = JSString s
       /\ cache st !! s = Some entry
       /\ exists_in e (files st) (fullPath entry) = false
       /\ cache st' = delete s (cache st).
Proof.
  destruct app as [| | | |s| |]; try discriminate.
  unfold configureApp. rewrite bind_run.
  destruct (guarded e s (toArray exts) st) as [[p|y] st1] eqn:Hrun; [discriminate|].
  intros H. inversion H; subst.
  apply guarded_err in Hrun.
  destruct Hrun as [Hsame|(en & Hen & Hgone & Hdel)]; [now left|].
  right. exists s, en. repeat split; assumption.
Qed.

(** A URL branch that falls through to line 196 has downloaded: the
    variables name the descriptor and the target of the download, a file
    called as lines 132-176 derive inside a new temporary directory, and
    the response body is in that file. *)
Lemma use_remote_download (app : string) (u : Url) (exts : list string)
  (st st1 : State) (v : Locals) :
  use_remote e app u exts st = (Ok (Continue v), st1) ->
  key v = app /\ archiveHash v = None
  /\ (exists decoded,
        decoded_pathname e u = Some decoded
        /\ let headers := match http_head e app with Some h => h | None => ∅ end in
           let d := destination e (sanitize e (path.basename decoded)) headers exts in
           newApp v = tmp_dir e (temps st) +:+ "/" +:+ d.1
           /\ shouldUnzipApp v = d.2)
  /\ (exists body,
        http_get e (href (url_parse e app)) = GetBody body
        /\ files st1 !! locate e (newApp v) = Some (File body)).
Proof.
  unfold use_remote. rewrite bind_run.
  set (st0 := log (EvHead app) st).
  assert (Hhead : retrieveHeaders e app st
                  = (Ok (match http_head e app with Some h => h | None => ∅ end), st0)).
  { unfold retrieveHeaders. now destruct (http_head e app). }
  rewrite Hhead. clear Hhead.
  set (headers := match http_head e app with Some h => h | None => ∅ end).
  set (current := match header headers "last-modified" with
                  | Some text => Some (date_parse e text)
                  | None => None
                  end).
  rewrite bind_run.
  destruct (reuse_fresh e app current exts st0) as [r1 st2] eqn:Hreuse.
  apply reuse_fresh_effects in Hreuse. destruct Hreuse as (_ & _ & Htemps & _).
  destruct r1 as [[p|]|x]; try discriminate.
  destruct (decoded_pathname e u) as [decoded|]; [|discriminate].
  rewrite bind_run. unfold tempDir_path. rewrite bind_run.
  change (openDir e st2) with (Ok (tmp_dir e (temps st2)), (openDir e st2).2).
  cbv iota beta. unfold ret at 1. rewrite bind_run. unfold downloadApp.
  destruct (http_get e (href (url_parse e app))) as [cause w|body]; [discriminate|].
  rewrite Htemps. cbn [temps log st0].
  intros H. inversion H; subst. cbn [key archiveHash newApp shouldUnzipApp].
  split; [reflexivity|]. split; [reflexivity|].
  split; [exists decoded; repeat split|].
  exists body. split; [reflexivity|]. cbn [files set_files log].
  apply lookup_insert_eq.
Qed.

(** C3 (amended). Take a call for a URL whose download has ended
    (line 181) with the variables [v], an archive at [newApp v], in state
    [st1].  The downloaded file is there and its digest is computed.  If
    the cache entry of the descriptor has the same digest and its artifact
    is on disk, the downloaded archive is deleted, nothing is extracted,
    the cache is left as it is, and the cached path is returned when its
    extension is supported by this call (the call fails with
    [UnsupportedExtension] otherwise).  In every other case the archive
    goes to extraction, and a call that succeeds with path [p] has
    extracted exactly once and has stored the new digest and [p] under
    the descriptor. *)
Theorem configureApp_archive_dedup (app : string) (exts : Extensions)
  (st : State) (v : Locals) (st1 : State) :
  isUrl (url_parse e app) = true ->
  use_remote e app (url_parse e app) (toArray exts) st = (Ok (Continue v), st1) ->
  shouldUnzipApp v = true ->
  differ (newApp v) app = true ->
  exists c,
    files st1 !! locate e (newApp v) = Some (File c)
    /\ (forall entry,
          cache st1 !! app = Some entry ->
          hash entry = Some (digest e c) ->
          exists_in e (files st1) (fullPath entry) = true ->
          let out := configureApp e (JSString app) exts st in
          out.1 = (if includes (toArray exts) (path.extname (fullPath entry))
                   then Ok (Some (fullPath entry))
                   else Err (UnsupportedExtension (fullPath entry) (toArray exts)))
          /\ exists_in e (files out.2) (newApp v) = false
          /\ extractions out.2 = extractions st1
          /\ cache out.2 = cache st1)
    /\ ((forall entry,
           cache st1 !! app = Some entry ->
           hash entry = Some (digest e c) ->
           exists_in e (files st1) (fullPath entry) = false) ->
        truthy (digest e c) = true ->
        path.isAbsolute app = false ->
        forall p st',
          configureApp e (JSString app) exts st = (Ok (Some p), st') ->
          cache st' !! app = Some (mkEntry (Some (digest e c)) (currentModified v) p)
          /\ extractions st' = S (extractions st1)).
Proof.
  intros Hurl Hremote Hzip Hdiff.
  destruct (use_remote_download _ _ _ _ _ _ Hremote)
    as (Hkey & _ & _ & (c & _ & Hfile)).
  assert (Hcall : configureApp e (JSString app) exts st
                  = match finish e (toArray exts) v st1 with
                    | (Ok p, st2) => (Ok (Some p), st2)
                    | (Err x, st2) => (Err x, st2)
                    end).
  { unfold configureApp. rewrite bind_run. unfold guarded. cbv zeta.
    rewrite Hurl, bind_run, Hremote. reflexivity. }
  rewrite <- Hkey in Hdiff.
  destruct (finish_archive (toArray exts) v st1 c Hzip Hfile Hdiff) as [HA HB].
  rewrite Hkey in HA, HB.
  exists c. split; [exact Hfile|]. split.
  - intros entry Hentry Hhash Hdisk out. subst out.
    destruct (HA entry Hentry Hhash Hdisk) as (Hres & Hgone & Hcount & Hcache).
    rewrite Hcall.
    destruct (finish e (toArray exts) v st1) as [[p|x] st2]; cbn [fst snd] in *;
      (split; [|repeat split; assumption]);
      destruct (includes (toArray exts) (path.extname (fullPath entry)));
      congruence.
  - intros Hmiss Htruthy Habs p st' Hrun. rewrite Hcall in Hrun.
    destruct (finish e (toArray exts) v st1) as [[q|x] st2] eqn:Hfinish;
      [|discriminate].
    inversion Hrun; subst q st2.
    exact (HB Hmiss Htruthy Habs p st' eq_refl).
Qed.

(** *** A first caller and those that follow *)

Lemma isAbsolute_append (a b : string) :
  path.isAbsolute a = true -> path.isAbsolute (a +:+ b) = true.
Proof. destruct a as [|c a]; [discriminate|]. intros H. exact H. Qed.

Lemma downloads_log_extract (zipPath tmpRoot : string) (tr : list Event) :
  length (List.filter is_download (tr ++ [EvExtract zipPath tmpRoot]))
  = length (List.filter is_download tr).
Proof. rewrite List.filter_app. cbn. now rewrite app_nil_r. Qed.

Lemma extract_archive_downloads (exts : list string) (v : Locals) (d : string)
  (st st' : State) (f : Flow) :
  extract_archive e exts v d st = (Ok f, st') -> downloads st' = downloads st.
Proof.
  unfold extract_archive. cbv zeta. rewrite bind_run.
  change (openDir e st) with (Ok (tmp_dir e (temps st)), (openDir e st).2).
  cbv iota beta. rewrite bind_run, try_finally_run.
  destruct (unzipApp e (newApp v) (tmp_dir e (temps st)) (ExtensionArray exts)
              (openDir e st).2) as [ru st2] eqn:Hunzip.
  apply unzipApp_effects in Hunzip. destruct Hunzip as [_ Hok].
  cbn [fst snd]. destruct ru as [p|x].
  - destruct (Hok p eq_refl) as [_ Htrace].
    assert (Hd : downloads st2 = downloads st).
    { unfold downloads. rewrite Htrace. apply downloads_log_extract. }
    destruct (differ p (newApp v) && differ (newApp v) (key v));
      unfold fs_rimraf, modify, ret; intros H; inversion H; subst; exact Hd.
  - unfold differ at 1. rewrite String.eqb_refl. cbn [negb andb]. unfold ret.
    discriminate.
Qed.

Lemma verify_and_store_ok (exts : list string) (v : Locals) (st st' : State)
  (p : string) :
  verify_and_store e exts v st = (Ok p, st') ->
  includes exts (path.extname p) = true.
Proof.
  intros H. pose proof (verify_and_store_effects _ _ _ _ _ H) as (-> & _).
  unfold verify_and_store, verifyAppExtension in H.
  destruct (includes exts (path.extname (newApp v))); [reflexivity|discriminate].
Qed.

(** A call for a URL that the cache does not know, probed with a date:
    when it succeeds, it has downloaded once, extracted at most once, and
    stored the path it returns together with the probed date. *)
Lemma first_call_stores (app : string) (exts : list string) (st st1 : State)
  (h : Headers) (text p : string) :
  isUrl (url_parse e app) = true ->
  path.isAbsolute app = false ->
  (forall n, path.isAbsolute (tmp_dir e n) = true) ->
  http_head e app = Some h ->
  header h "last-modified" = Some text ->
  cache st !! app = None ->
  guarded e app exts st = (Ok p, st1) ->
  (exists entry,
      cache st1 !! app = Some entry
      /\ lastModified entry = Some (date_parse e text)
      /\ fullPath entry = p)
  /\ includes exts (path.extname p) = true
  /\ downloads st1 = S (downloads st)
  /\ (extractions st1 <= S (extractions st))%nat.
Proof.
  intros Hurl Habs Htmp Hhead Htoken Hnone.
  unfold guarded. cbv zeta. rewrite Hurl, bind_run.
  destruct (use_remote e app (url_parse e app) exts st) as [r1 st0] eqn:Hremote.
  assert (Hshape :
    (exists v,
        r1 = Ok (Continue v) /\ key v = app /\ path.isAbsolute (newApp v) = true
        /\ currentModified v = Some (date_parse e text)
        /\ cache st0 = cache st
        /\ downloads st0 = S (downloads st) /\ extractions st0 = extractions st)
    \/ exists x, r1 = Err x).
  { revert Hremote. unfold use_remote. rewrite bind_run.
    unfold retrieveHeaders. rewrite Hhead, Htoken, bind_run.
    unfold reuse_fresh. rewrite bind_run.
    unfold getCachedApplicationPath, gets. cbn [cache log]. rewrite Hnone.
    cbv iota beta. unfold ret at 1.
    destruct (decoded_pathname e (url_parse e app)) as [decoded|];
      [|unfold throw; intros H; inversion H; right; eauto].
    rewrite bind_run. unfold tempDir_path. rewrite bind_run.
    match goal with |- context [openDir e ?s] =>
      change (openDir e s) with (Ok (tmp_dir e (temps s)), (openDir e s).2) end.
    cbv iota beta. unfold ret at 1. rewrite bind_run. unfold downloadApp.
    destruct (http_get e (href (url_parse e app))) as [cause w|body];
      intros H; inversion H; subst; [right; eauto|].
    left. eexists. split; [reflexivity|]. cbn [key newApp currentModified].
    split; [reflexivity|]. split; [apply isAbsolute_append, Htmp|].
    split; [reflexivity|]. split; [reflexivity|].
    unfold downloads, extractions.
    cbn [trace set_files log openDir next_temp snd].
    rewrite !List.filter_app, !length_app. cbn. split; lia. }
  destruct Hshape as [(v & -> & Hkey & Hnew & Hdate & Hcache & Hdown & Hext)|[x ->]];
    [|discriminate].
  unfold finish. rewrite bind_run. unfold extract_or_resolve.
  assert (Hnone0 : cache st0 !! key v = None) by now rewrite Hcache, Hkey.
  assert (Hstore : forall v' st2 st3 q,
    key v' = key v -> currentModified v' = currentModified v ->
    path.isAbsolute (newApp v') = true ->
    cache st2 = cache st0 ->
    verify_and_store e exts v' st2 = (Ok q, st3) ->
    (exists entry, cache st3 !! app = Some entry
                   /\ lastModified entry = Some (date_parse e text)
                   /\ fullPath entry = q)
    /\ includes exts (path.extname q) = true /\ trace st3 = trace st2).
  { intros v' st2 st3 q Hk Hc Ha Hc2 Hrun.
    pose proof (verify_and_store_ok _ _ _ _ _ Hrun) as Hq.
    apply verify_and_store_effects in Hrun. destruct Hrun as (-> & Htrace & Hset).
    rewrite Hk, Hkey in Hset.
    rewrite (isAbsolute_differ (newApp v') app Ha Habs) in Hset.
    rewrite Hc, Hdate in Hset. cbn [andb] in Hset.
    rewrite orb_true_r in Hset.
    split; [|split; assumption].
    eexists. split; [rewrite Hset; apply lookup_insert_eq|].
    split; reflexivity. }
  destruct (shouldUnzipApp v).
  - cbv zeta. rewrite bind_run.
    destruct (fs_hash e (newApp v) st0) as [[d|y] st0'] eqn:Hhash; [|discriminate].
    apply fs_hash_state in Hhash. subst st0'. rewrite bind_run.
    destruct (reuse_extracted_cases (key v) (newApp v) d exts st0)
      as [(en & Hen & _)|[(en & Hen & _)|(_ & Heq)]]; try congruence.
    rewrite Heq.
    destruct (extract_archive e exts v d st0) as [[f|y] st2] eqn:Hextract;
      [|discriminate].
    pose proof (extract_archive_downloads _ _ _ _ _ _ Hextract) as Hd2.
    apply extract_archive_effects in Hextract. destruct Hextract as [Hc2 Hok].
    destruct (Hok f eq_refl) as (q & -> & Hq & Hx2).
    intros Hrun.
    destruct (Hstore (mkLocals (key v) q true (Some d) (currentModified v))
                st2 st1 p eq_refl eq_refl Hq Hc2 Hrun) as (Hentry & Hp & Htrace).
    split; [exact Hentry|]. split; [exact Hp|].
    unfold downloads, extractions in *. rewrite Htrace. split; lia.
  - rewrite Hnew. cbn [negb]. unfold ret at 1. intros Hrun.
    destruct (Hstore v st0 st1 p eq_refl eq_refl Hnew eq_refl Hrun)
      as (Hentry & Hp & Htrace).
    split; [exact Hentry|]. split; [exact Hp|].
    unfold downloads, extractions in *. rewrite Htrace. split; lia.
Qed.

End Acquire.

(** ** Calls in flight *)

Section Scheduling.

Lemma run_await {A} (next : State -> Proc A * State) (st : State) :
  run (Await next) st = run (next st).1 (next st).2.
Proof. simpl. now destruct (next st). Qed.

Lemma awaits_await {A} (next : State -> Proc A * State) (st : State) :
  awaits (Await next) st = S (awaits (next st).1 (next st).2).
Proof. simpl. now destruct (next st). Qed.

(** Cutting the callback at its [await]s does not change what it does
    when left alone. *)
Lemma staged_run (e : Env) (app : string) (exts : Extensions) (st : State) :
  run (staged e app exts) st = guarded e app (toArray exts) st.
Proof.
  unfold staged, guarded, await. cbv zeta. rewrite run_await, bind_run.
  destruct ((if isUrl (url_parse e app)
             then use_remote e app (url_parse e app) (toArray exts)
             else use_local e app (url_parse e app)) st) as [[[p|v]|x] st1];
    cbn [fst snd]; try reflexivity.
  rewrite run_await. unfold finish. 
  destruct (bind (extract_or_resolve e (toArray exts) v) _ st1) as [[p|x] st2];
    reflexivity.
Qed.

Lemma fire_length (maxPending : nat) (callback : string -> Extensions -> Proc string)
  (calls : list Call) (i : nat) (c : Config) :
  length (phases (fire maxPending callback calls i c)) = length (phases c).
Proof.
  unfold fire, set_phase.
  destruct (calls !! i) as [call|]; [|reflexivity].
  destruct (phases c !! i) as [[ | |[r|next]|r| ]|]; try reflexivity.
  - destruct (negb _); [reflexivity|].
    destruct (occupied _ _ _); [destruct (_ <=? _)%nat|]; cbn; apply length_insert.
  - destruct (_ || _); [reflexivity|]. cbn; apply length_insert.
  - cbn; apply length_insert.
  - destruct (next (store c)). cbn; apply length_insert.
Qed.

Lemma fire_other (maxPending : nat) (callback : string -> Extensions -> Proc string)
  (calls : list Call) (i j : nat) (c : Config) :
  i <> j ->
  phases (fire maxPending callback calls i c) !! j = phases c !! j.
Proof.
  intros Hne. unfold fire, set_phase.
  destruct (calls !! i) as [call|]; [|reflexivity].
  destruct (phases c !! i) as [[ | |[r|next]|r| ]|]; try reflexivity.
  - destruct (negb _); [reflexivity|].
    destruct (occupied _ _ _); [destruct (_ <=? _)%nat|]; cbn;
      now apply list_lookup_insert_ne.
  - destruct (_ || _); [reflexivity|]. cbn; now apply list_lookup_insert_ne.
  - cbn; now apply list_lookup_insert_ne.
  - destruct (next (store c)). cbn; now apply list_lookup_insert_ne.
Qed.

Lemma exec_app (maxPending : nat) (callback : string -> Extensions -> Proc string)
  (calls : list Call) (s1 s2 : list nat) (c : Config) :
  exec maxPending callback calls (s1 ++ s2) c
  = exec maxPending callback calls s2 (exec maxPending callback calls s1 c).
Proof. unfold exec. apply fold_left_app. Qed.

Lemma zip_lookup_exists {A B} (f : A * B -> bool) (l : list A) (k : list B) :
  existsb f (zip l k) = true ->
  exists j x y, l !! j = Some x /\ k !! j = Some y /\ f (x, y) = true.
Proof.
  intros H. apply existsb_exists in H. destruct H as ([x y] & Hin & Hf).
  apply list_elem_of_In, list_elem_of_lookup in Hin. destruct Hin as [j Hj].
  apply lookup_zip_with_Some in Hj. destruct Hj as (x' & y' & Heq & Hx & Hy).
  inversion Heq; subst. exists j, x', y'. auto.
Qed.

(** A call whose descriptor no other call has never waits for the lock
    and is never turned away by it. *)
Lemma alone_never_waits (maxPending : nat)
  (callback : string -> Extensions -> Proc string) (calls : list Call)
  (i : nat) (call : Call) (schedule : list nat) :
  calls !! i = Some call ->
  (forall j other, j <> i -> calls !! j = Some other ->
                   descriptor other <> descriptor call) ->
  forall c,
    phases c !! i <> Some Queued /\ phases c !! i <> Some Rejected ->
    phases (exec maxPending callback calls schedule c) !! i <> Some Queued
    /\ phases (exec maxPending callback calls schedule c) !! i <> Some Rejected.
Proof.
  intros Hcall Halone.
  induction schedule as [|j schedule IH]; intros c Hc; [exact Hc|].
  cbn. apply IH. clear IH.
  destruct (decide (j = i)) as [->|Hne]; [|now rewrite fire_other].
  unfold fire. rewrite Hcall.
  destruct (phases c !! i) as [[ | |[r|next]|r| ]|] eqn:Hphase; try exact Hc;
    try (rewrite Hphase; exact Hc).
  - destruct (negb _); [now rewrite Hphase|].
    destruct (occupied calls (descriptor call) c) eqn:Hocc.
    + exfalso. apply zip_lookup_exists in Hocc.
      destruct Hocc as (j & other & ph & Hother & Hph & Hshares).
      unfold shares in Hshares. cbn in Hshares.
      apply andb_true_iff in Hshares. destruct Hshares as [Hkey Htest].
      apply String.eqb_eq in Hkey.
      destruct (decide (j = i)) as [->|Hne].
      * rewrite Hphase in Hph. inversion Hph; subst. discriminate.
      * exact (Halone j other Hne Hother Hkey).
    + unfold set_phase. cbn. rewrite list_lookup_insert_eq
        by (now apply lookup_lt_Some in Hphase).
      unfold enter, settle. destruct (callback _ _); split; discriminate.
  - now destruct Hc.
  - unfold set_phase. cbn. rewrite list_lookup_insert_eq
      by (now apply lookup_lt_Some in Hphase). split; discriminate.
  - destruct (next (store c)) as [p' st']. cbn.
    rewrite list_lookup_insert_eq by (now apply lookup_lt_Some in Hphase).
    unfold settle. destruct p'; split; discriminate.
Qed.

Lemma zip_lookup_existsb {A B} (f : A * B -> bool) (l : list A) (k : list B)
  (j : nat) (x : A) (y : B) :
  l !! j = Some x -> k !! j = Some y -> f (x, y) = true -> existsb f (zip l k) = true.
Proof.
  intros Hx Hy Hf. apply existsb_exists. exists (x, y). split; [|exact Hf].
  apply list_elem_of_In, list_elem_of_lookup. exists j.
  apply lookup_zip_with_Some. eauto.
Qed.

(** A call that the scheduler finds inside its callback after letting it
    move, while another call of its descriptor is inside, was inside
    before. *)
Lemma fire_not_beside (maxPending : nat)
  (callback : string -> Extensions -> Proc string) (calls : list Call)
  (k j : nat) (ck cj : Call) (p pj : Proc string) (c : Config) :
  calls !! k = Some ck -> calls !! j = Some cj ->
  descriptor cj = descriptor ck ->
  phases c !! j = Some (Running pj) ->
  phases (fire maxPending callback calls k c) !! k = Some (Running p) ->
  exists p0, phases c !! k = Some (Running p0).
Proof.
  intros Hk Hj Hkey Hrunning. unfold fire. rewrite Hk.
  assert (Hbeside : forall test : Phase -> bool,
             test (Running pj) = true ->
             existsb (shares (descriptor ck) test) (zip calls (phases c)) = true).
  { intros test Htest. apply (zip_lookup_existsb _ _ _ j cj (Running pj) Hj Hrunning).
    unfold shares. cbn. rewrite Hkey, String.eqb_refl. exact Htest. }
  destruct (phases c !! k) as [[ | |[r|next]|r| ]|] eqn:Hphase.
  - destruct (negb _); [rewrite Hphase; discriminate|].
    unfold occupied. rewrite Hbeside by reflexivity.
    destruct (_ <=? _)%nat; unfold set_phase; cbn;
      rewrite list_lookup_insert_eq by (now apply lookup_lt_Some in Hphase);
      discriminate.
  - unfold running. rewrite Hbeside by reflexivity. cbn. rewrite Hphase. discriminate.
  - eauto.
  - eauto.
  - rewrite Hphase. discriminate.
  - rewrite Hphase. discriminate.
  - rewrite Hphase. discriminate.
Qed.

(** Whatever the calls and the scheduler: two calls with one descriptor
    are never inside their callbacks together. *)
Lemma one_inside_per_descriptor (maxPending : nat)
  (callback : string -> Extensions -> Proc string) (calls : list Call)
  (schedule : list nat) :
  forall c,
    (forall i j ci cj pi pj,
        calls !! i = Some ci -> calls !! j = Some cj -> descriptor ci = descriptor cj ->
        phases c !! i = Some (Running pi) -> phases c !! j = Some (Running pj) -> i = j) ->
    forall i j ci cj pi pj,
      calls !! i = Some ci -> calls !! j = Some cj -> descriptor ci = descriptor cj ->
      phases (exec maxPending callback calls schedule c) !! i = Some (Running pi) ->
      phases (exec maxPending callback calls schedule c) !! j = Some (Running pj) ->
      i = j.
Proof.
  induction schedule as [|k schedule IH]; intros c Hc; [exact Hc|].
  cbn. apply IH. clear IH.
  intros i j ci cj pi pj Hi Hj Hkey Hpi Hpj.
  destruct (decide (i = j)) as [|Hne]; [assumption|exfalso].
  destruct (decide (k = i)) as [->|Hki]; [|destruct (decide (k = j)) as [->|Hkj]].
  - rewrite fire_other in Hpj by exact Hne.
    destruct (fire_not_beside _ _ _ i j ci cj pi pj c Hi Hj (eq_sym Hkey) Hpj Hpi)
      as [p0 Hp0].
    exact (Hne (Hc i j ci cj p0 pj Hi Hj Hkey Hp0 Hpj)).
  - rewrite fire_other in Hpi by (intros E; now apply Hne).
    destruct (fire_not_beside _ _ _ j i cj ci pj pi c Hj Hi Hkey Hpi Hpj)
      as [p0 Hp0].
    exact (Hne (Hc i j ci cj pi p0 Hi Hj Hkey Hpi Hp0)).
  - rewrite fire_other in Hpi, Hpj by assumption.
    exact (Hne (Hc i j ci cj pi pj Hi Hj Hkey Hpi Hpj)).
Qed.

Lemma in_turn_length (e : Env) (calls : list Call) :
  forall st, length (in_turn e calls st).1 = length calls.
Proof.
  induction calls as [|call rest IH]; intros st; cbn [in_turn]; [reflexivity|].
  destruct (configureApp e (JSString (descriptor call)) (supported call) st) as [r st1].
  specialize (IH st1). destruct (in_turn e rest st1). cbn [fst length] in *.
  now rewrite IH.
Qed.

Lemma in_turn_snoc (e : Env) (calls : list Call) (call : Call) :
  forall st,
    in_turn e (calls ++ [call]) st
    = let '(rs, st1) := in_turn e calls st in
      let '(r, st2) := configureApp e (JSString (descriptor call)) (supported call) st1 in
      (rs ++ [r], st2).
Proof.
  induction calls as [|c rest IH]; intros st; cbn [in_turn app].
  - now destruct (configureApp e (JSString (descriptor call)) (supported call) st).
  - destruct (configureApp e (JSString (descriptor c)) (supported c) st) as [r st1].
    rewrite IH. destruct (in_turn e rest st1) as [rs st2].
    now destruct (configureApp e (JSString (descriptor call)) (supported call) st2).
Qed.

Lemma configureApp_promised (e : Env) (app : string) (exts : Extensions) (st : State) :
  configureApp e (JSString app) exts st
  = (promised (guarded e app (toArray exts) st).1, (guarded e app (toArray exts) st).2).
Proof.
  unfold configureApp. rewrite bind_run.
  now destruct (guarded e app (toArray exts) st) as [[p|x] st'].
Qed.

End Scheduling.

Section Serialized.

Variable e : Env.
Variable maxPending : nat.
Variable callback : string -> Extensions -> Proc string.
Variable app : string.
Variable callers : list Extensions.
Variable st0 : State.

Hypothesis callback_run :
  forall exts st, run (callback app exts) st = guarded e app (toArray exts) st.
Hypothesis within_bound : length callers <= S maxPending.

Lemma before_length (d : nat) : d <= length callers ->
  length (in_turn e (take d (mkCall app <$> callers)) st0).1 = d.
Proof.
  intros Hd. rewrite in_turn_length, length_take, length_fmap. lia.
Qed.

Lemma before_step (d : nat) (exts : Extensions) (r : Result string) (st' : State) :
  callers !! d = Some exts ->
  guarded e app (toArray exts) (in_turn e (take d (mkCall app <$> callers)) st0).2 = (r, st') ->
  (in_turn e (take (S d) (mkCall app <$> callers)) st0)
    = ((in_turn e (take d (mkCall app <$> callers)) st0).1 ++ [promised r], st').
Proof.
  intros Hexts Hrun.
  rewrite (take_S_r (mkCall app <$> callers) d (mkCall app exts))
    by (now rewrite list_lookup_fmap, Hexts).
  rewrite in_turn_snoc. destruct (in_turn e (take d (mkCall app <$> callers)) st0) as [rs st1].
    cbn [fst snd] in *.
  cbn [descriptor supported]. rewrite configureApp_promised, Hrun. reflexivity.
Qed.

Lemma existsb_lookup {A} (f : A -> bool) (l : list A) :
  existsb f l = true -> exists j x, l !! j = Some x /\ f x = true.
Proof.
  intros H. apply existsb_exists in H. destruct H as (x & Hin & Hf).
  apply list_elem_of_In, list_elem_of_lookup in Hin. destruct Hin as [j Hj]. eauto.
Qed.

Lemma existsb_lookup_false {A} (f : A -> bool) (l : list A) (j : nat) (x : A) :
  existsb f l = false -> l !! j = Some x -> f x = false.
Proof.
  intros H Hj. destruct (f x) eqn:Hf; [|reflexivity].
  rewrite <- H. symmetry. apply existsb_exists. exists x. split; [|exact Hf].
  apply list_elem_of_In, list_elem_of_lookup. eauto.
Qed.

Lemma forallb_lookup {A} (f : A -> bool) (l : list A) (j : nat) (x : A) :
  forallb f l = true -> l !! j = Some x -> f x = true.
Proof.
  intros H Hj. rewrite forallb_forall in H. apply H.
  apply list_elem_of_In, list_elem_of_lookup. eauto.
Qed.

(** With one descriptor for all, the tests of the lock look at the
    phases only. *)
Lemma shares_zip (test : Phase -> bool) : forall (l : list Extensions) (phs : list Phase),
  length phs <= length l ->
  (zip (mkCall app <$> l) phs).*2 = phs
  /\ List.Forall (fun cp => shares app test cp = test cp.2) (zip (mkCall app <$> l) phs).
Proof.
  induction l as [|x l IH]; intros [|ph phs] Hlen; cbn in *; try lia;
    try (split; [reflexivity|constructor]).
  destruct (IH phs ltac:(lia)) as [Hsnd Hall].
  split; [now rewrite Hsnd|]. constructor; [|exact Hall].
  unfold shares. cbn. now rewrite String.eqb_refl.
Qed.

Lemma existsb_agree {A} (f g : A -> bool) (l : list A) :
  List.Forall (fun x => f x = g x) l -> existsb f l = existsb g l.
Proof. induction 1 as [|x l Hx _ IH]; cbn; congruence. Qed.

Lemma filter_agree {A} (f g : A -> bool) (l : list A) :
  List.Forall (fun x => f x = g x) l -> List.filter f l = List.filter g l.
Proof. induction 1 as [|x l Hx _ IH]; cbn; [reflexivity|]. now rewrite Hx, IH. Qed.

Lemma existsb_snd {A B} (g : B -> bool) (l : list (A * B)) :
  existsb (fun x => g x.2) l = existsb g l.*2.
Proof. induction l as [|x l IH]; cbn; congruence. Qed.

Lemma filter_snd_length {A B} (g : B -> bool) (l : list (A * B)) :
  length (List.filter (fun x => g x.2) l) = length (List.filter g l.*2).
Proof.
  induction l as [|x l IH]; cbn; [reflexivity|].
  destruct (g x.2); cbn; congruence.
Qed.

Lemma same_existsb (test : Phase -> bool) (c : Config) :
  length (phases c) <= length callers ->
  existsb (shares app test) (zip (mkCall app <$> callers) (phases c)) = existsb test (phases c).
Proof.
  intros Hlen. destruct (shares_zip test callers (phases c) Hlen) as [Hsnd Hall].
  rewrite (existsb_agree _ (fun cp => test cp.2) _ Hall), existsb_snd.
  now rewrite Hsnd.
Qed.

Lemma same_existsb_take (test : Phase -> bool) (i : nat) (c : Config) :
  length (phases c) <= length callers ->
  existsb (shares app test) (take i (zip (mkCall app <$> callers) (phases c)))
  = existsb test (take i (phases c)).
Proof.
  intros Hlen. destruct (shares_zip test callers (phases c) Hlen) as [Hsnd Hall].
  rewrite (existsb_agree _ (fun cp => test cp.2) _ (Forall_take _ i _ Hall)).
  rewrite existsb_snd, fmap_take. now rewrite Hsnd.
Qed.

Lemma lined_up_settled rs mid q m (j : nat) :
  j < length rs -> exists r, lined_up rs mid q m !! j = Some (Resolved r).
Proof.
  intros Hj. unfold lined_up.
  rewrite lookup_app_l by (now rewrite length_fmap).
  rewrite list_lookup_fmap.
  destruct (lookup_lt_is_Some_2 rs j Hj) as [r ->]. now exists r.
Qed.

Lemma lined_up_mid rs mid q m (j : nat) :
  length rs <= j -> j < length rs + length mid ->
  lined_up rs mid q m !! j = mid !! (j - length rs).
Proof.
  intros H1 H2. unfold lined_up.
  rewrite lookup_app_r by (now rewrite length_fmap).
  rewrite length_fmap. apply lookup_app_l. lia.
Qed.

Lemma lined_up_queued rs mid q m (j : nat) :
  length rs + length mid <= j -> j < length rs + length mid + q ->
  lined_up rs mid q m !! j = Some Queued.
Proof.
  intros H1 H2. unfold lined_up.
  rewrite lookup_app_r by (rewrite length_fmap; lia).
  rewrite lookup_app_r by (rewrite length_fmap; lia).
  rewrite lookup_app_l by (rewrite length_fmap, length_replicate; lia).
  apply lookup_replicate_2. rewrite length_fmap. lia.
Qed.

Lemma lined_up_idle rs mid q m (j : nat) :
  length rs + length mid + q <= j -> j < length rs + length mid + q + m ->
  lined_up rs mid q m !! j = Some Idle.
Proof.
  intros H1 H2. unfold lined_up.
  rewrite lookup_app_r by (rewrite length_fmap; lia).
  rewrite lookup_app_r by (rewrite length_fmap; lia).
  rewrite lookup_app_r by (rewrite length_fmap, length_replicate; lia).
  apply lookup_replicate_2. rewrite length_fmap, length_replicate. lia.
Qed.

Lemma lined_up_length rs mid q m :
  length (lined_up rs mid q m) = length rs + length mid + q + m.
Proof.
  unfold lined_up. rewrite !length_app, length_fmap, !length_replicate. lia.
Qed.

(** Where the phase of call [j] says [j] is. *)
Lemma lined_up_zone rs mid q m (j : nat) (ph : Phase) :
  lined_up rs mid q m !! j = Some ph ->
  (j < length rs /\ exists r, ph = Resolved r)
  \/ (length rs <= j < length rs + length mid /\ mid !! (j - length rs) = Some ph)
  \/ (length rs + length mid <= j < length rs + length mid + q /\ ph = Queued)
  \/ (length rs + length mid + q <= j < length rs + length mid + q + m /\ ph = Idle).
Proof.
  intros H.
  assert (Hlt : j < length rs + length mid + q + m).
  { apply lookup_lt_Some in H. now rewrite lined_up_length in H. }
  destruct (decide (j < length rs)) as [H1|H1].
  { left. split; [exact H1|]. destruct (lined_up_settled rs mid q m j H1) as [r Hr].
    rewrite Hr in H. inversion H. now exists r. }
  destruct (decide (j < length rs + length mid)) as [H2|H2].
  { right; left. split; [lia|]. rewrite <- H. symmetry. apply lined_up_mid; lia. }
  destruct (decide (j < length rs + length mid + q)) as [H3|H3].
  { right; right; left. split; [lia|].
    rewrite lined_up_queued in H by lia. now inversion H. }
  right; right; right. split; [lia|].
  rewrite lined_up_idle in H by lia. now inversion H.
Qed.

Lemma lined_up_insert rs (x y : Phase) (rest : list Phase) :
  <[length rs := x]> ((Resolved <$> rs) ++ y :: rest) = (Resolved <$> rs) ++ x :: rest.
Proof.
  rewrite insert_app_r_alt by (now rewrite length_fmap).
  rewrite length_fmap, Nat.sub_diag. reflexivity.
Qed.

Lemma lined_up_snoc rs r q m :
  (Resolved <$> rs) ++ Resolved r :: replicate q Queued ++ replicate m Idle
  = lined_up (rs ++ [r]) [] q m.
Proof. unfold lined_up. rewrite fmap_app, <- app_assoc. reflexivity. Qed.

Lemma lined_up_join rs mid q m :
  <[length rs + length mid + q := Queued]> (lined_up rs mid q (S m))
  = lined_up rs mid (S q) m.
Proof.
  unfold lined_up.
  rewrite insert_app_r_alt by (rewrite length_fmap; lia).
  rewrite insert_app_r_alt by (rewrite length_fmap; lia).
  rewrite insert_app_r_alt by (rewrite length_fmap, length_replicate; lia).
  rewrite length_fmap, length_replicate.
  replace (length rs + length mid + q - length rs - length mid - q) with 0 by lia.
  cbn [replicate]. rewrite (replicate_cons_app q Queued).
  cbn. now rewrite <- app_assoc.
Qed.

Lemma lined_up_pending rs mid q m :
  existsb is_queued mid = false ->
  length (List.filter is_queued (lined_up rs mid q m)) = q.
Proof.
  intros Hmid. unfold lined_up. rewrite !List.filter_app, !length_app.
  assert (H1 : List.filter is_queued (Resolved <$> rs) = []).
  { induction rs as [|r rs IH]; [reflexivity|exact IH]. }
  assert (H2 : List.filter is_queued mid = []).
  { induction mid as [|x mid IH]; [reflexivity|]. cbn in *.
    apply orb_false_iff in Hmid. destruct Hmid as [-> Hmid]. now apply IH. }
  assert (H3 : List.filter is_queued (replicate q Queued) = replicate q Queued).
  { induction q as [|q IH]; [reflexivity|]. cbn. now rewrite IH. }
  assert (H4 : List.filter is_queued (replicate m Idle) = []).
  { induction m as [|m' IH]; [reflexivity|exact IH]. }
  rewrite H1, H2, H3, H4, length_replicate. cbn. lia.
Qed.

Lemma same_pending (c : Config) :
  length (phases c) <= length callers ->
  pending (mkCall app <$> callers) app c = length (List.filter is_queued (phases c)).
Proof.
  intros Hlen. unfold pending.
  destruct (shares_zip is_queued callers (phases c) Hlen) as [Hsnd Hall].
  rewrite (filter_agree _ (fun cp => is_queued cp.2) _ Hall), filter_snd_length.
  now rewrite Hsnd.
Qed.

Lemma serial_init : serial e app callers st0 (init (mkCall app <$> callers) st0).
Proof.
  exists 0, [], 0, (length callers). cbv zeta. cbn [take in_turn fst snd length].
  split; [|split; [lia|left; auto]].
  unfold init, lined_up. cbn. now rewrite length_fmap.
Qed.

(** The call whose turn it is enters its callback. *)
Lemma serial_enter (d q m : nat) (y : Phase) (exts : Extensions) (c : Config) :
  phases c = (Resolved <$> (in_turn e (take d (mkCall app <$> callers)) st0).1)
    ++ y :: replicate q Queued ++ replicate m Idle ->
  store c = (in_turn e (take d (mkCall app <$> callers)) st0).2 ->
  callers !! d = Some exts ->
  d + 1 + q + m = length callers ->
  serial e app callers st0 (set_phase d (enter callback (mkCall app exts)) c).
Proof.
  intros Hph Hst Hexts Hlen.
  assert (Hrs : length (in_turn e (take d (mkCall app <$> callers)) st0).1 = d)
    by (apply before_length; lia).
  unfold set_phase, enter. cbn [descriptor supported].
  pose proof (callback_run exts (store c)) as Hrun.
  destruct (callback app exts) as [r|next] eqn:Hcb; cbn [settle].
  - cbn [run] in Hrun. rewrite Hst in Hrun. symmetry in Hrun.
    rewrite <- Hst in Hrun at 2.
    pose proof (before_step d exts r (store c) Hexts Hrun) as Hnext.
    exists (S d), [], q, m. cbv zeta. rewrite Hnext. cbn [fst snd phases store length].
    split; [|split; [lia|left; split; [reflexivity|split; [reflexivity|lia]]]].
    rewrite Hph. rewrite <- Hrs at 1. rewrite lined_up_insert. apply lined_up_snoc.
  - exists d, [Running (Await next)], q, m. cbv zeta. cbn [fst snd phases store length].
    split; [|split; [lia|right]].
    + rewrite Hph. rewrite <- Hrs at 1. now rewrite lined_up_insert.
    + exists next, exts. split; [reflexivity|]. split; [exact Hexts|].
      now rewrite Hrun, Hst.
Qed.

(** Whatever call the scheduler lets move, the calls stay lined up. *)
Lemma serial_fire (i : nat) (c : Config) :
  serial e app callers st0 c ->
  serial e app callers st0 (fire maxPending callback (mkCall app <$> callers) i c).
Proof.
  intros Hc. pose proof Hc as (d & mid & q & m & Hph & Hlen & Hshape). cbv zeta in *.
  assert (Hrs : length (in_turn e (take d (mkCall app <$> callers)) st0).1 = d)
    by (apply before_length; lia).
  assert (Hplen : length (phases c) <= length callers).
  { rewrite Hph, lined_up_length, Hrs. lia. }
  assert (Hmid : existsb is_queued mid = false /\ existsb is_idle mid = false).
  { destruct Hshape as [(-> & _)|(next & exts & -> & _)]; cbn; auto. }
  destruct Hmid as [Hmidq Hmidi].
  unfold fire. rewrite list_lookup_fmap.
  destruct (callers !! i) as [exts|] eqn:Hexts; cbn [fmap option_fmap option_map];
    [|exact Hc].
  destruct (phases c !! i) as [ph|] eqn:Hphase; [|exact Hc].
  pose proof Hphase as Hzone. rewrite Hph in Hzone. apply lined_up_zone in Hzone.
  rewrite Hrs in Hzone.
  destruct ph as [ | | p | r | ]; try exact Hc.
  - (* the call reaches the lock *)
    destruct (arrived_before i c) eqn:Harr; cbn [negb]; [|exact Hc].
    destruct Hzone as [(_ & r & Hr)|[(_ & Hin)|[(_ & Hq)|(Hi & _)]]]; try discriminate.
    { pose proof (existsb_lookup_false _ _ _ _ Hmidi Hin). discriminate. }
    assert (Hfirst : i = d + length mid + q).
    { destruct (decide (i = d + length mid + q)) as [|Hne]; [assumption|exfalso].
      assert (Hj : take i (phases c) !! (d + length mid + q) = Some Idle).
      { rewrite lookup_take_lt by lia. rewrite Hph. apply lined_up_idle; rewrite Hrs; lia. }
      pose proof (forallb_lookup _ _ _ _ Harr Hj) as Hno. discriminate. }
    destruct m as [|m']; [lia|].
    cbn [descriptor]. unfold occupied. rewrite same_existsb by exact Hplen.
    destruct (existsb (fun ph => is_running ph || is_queued ph) (phases c)) eqn:Hocc.
    + rewrite same_pending by exact Hplen. rewrite Hph, (lined_up_pending _ _ _ _ Hmidq).
      assert (Hroom : q < maxPending /\ (mid = [] -> 1 <= d)).
      { destruct Hshape as [(-> & _ & [->|Hd])|(next & exts' & -> & _)];
          cbn [length] in *; [|split; [lia|auto]|split; [lia|discriminate]].
        exfalso. apply existsb_lookup in Hocc. destruct Hocc as (j & ph & Hj & Htest).
        rewrite Hph in Hj. apply lined_up_zone in Hj. rewrite Hrs in Hj.
        cbn [length] in Hj.
        destruct Hj as [(_ & r & ->)|[(Hj & _)|[(Hj & _)|(_ & ->)]]];
          try discriminate; lia. }
      destruct Hroom as [Hroom Hd].
      destruct (Nat.leb_spec maxPending q) as [Hle|_]; [lia|].
      exists d, mid, (S q), m'. cbv zeta. unfold set_phase. cbn [phases store].
      split; [|split; [lia|]].
      * rewrite Hph, Hfirst. rewrite <- Hrs at 1. apply lined_up_join.
      * destruct Hshape as [(-> & Hst & _)|Hbusy]; [left|right; exact Hbusy].
        split; [reflexivity|]. split; [exact Hst|right; now apply Hd].
    + assert (Hquiet : mid = [] /\ q = 0).
      { destruct Hshape as [(-> & _)|(next & exts' & -> & _)].
        - split; [reflexivity|]. destruct q as [|q']; [reflexivity|exfalso].
          assert (Hj : phases c !! d = Some Queued).
          { rewrite Hph. apply lined_up_queued; rewrite Hrs; cbn; lia. }
          pose proof (existsb_lookup_false _ _ _ _ Hocc Hj). discriminate.
        - exfalso.
          assert (Hj : phases c !! d = Some (Running (Await next))).
          { rewrite Hph, lined_up_mid by (rewrite Hrs; cbn; lia).
            now rewrite Hrs, Nat.sub_diag. }
          pose proof (existsb_lookup_false _ _ _ _ Hocc Hj). discriminate. }
      destruct Hquiet as [-> ->]. cbn [length] in *.
      destruct Hshape as [(_ & Hst & _)|(next & exts' & Hno & _)]; [|discriminate].
      replace i with d in * by lia.
      apply (serial_enter d 0 m' Idle exts c); auto; lia.
  - (* the call waits *)
    cbn [descriptor]. unfold running, queued_before.
    rewrite same_existsb, same_existsb_take by exact Hplen.
    destruct (existsb is_running (phases c)
              || existsb is_queued (take i (phases c))) eqn:Hwait; [exact Hc|].
    apply orb_false_iff in Hwait. destruct Hwait as [Hrunning Hbefore].
    destruct Hzone as [(_ & r & Hr)|[(_ & Hin)|[(Hi & _)|(_ & Hq)]]]; try discriminate.
    { pose proof (existsb_lookup_false _ _ _ _ Hmidq Hin). discriminate. }
    destruct Hshape as [(-> & Hst & _)|(next & exts' & -> & _)].
    + cbn [length] in *.
      assert (Hfirst : i = d).
      { destruct (decide (i = d)) as [|Hne]; [assumption|exfalso].
        assert (Hj : take i (phases c) !! d = Some Queued).
        { rewrite lookup_take_lt by lia. rewrite Hph.
          apply lined_up_queued; rewrite Hrs; cbn; lia. }
        pose proof (existsb_lookup_false _ _ _ _ Hbefore Hj). discriminate. }
      subst i. destruct q as [|q']; [lia|].
      apply (serial_enter d q' m Queued exts c); auto; lia.
    + exfalso.
      assert (Hj : phases c !! d = Some (Running (Await next))).
      { rewrite Hph, lined_up_mid by (rewrite Hrs; cbn; lia).
        now rewrite Hrs, Nat.sub_diag. }
      pose proof (existsb_lookup_false _ _ _ _ Hrunning Hj). discriminate.
  - (* the call is resumed *)
    destruct Hzone as [(_ & r & Hr)|[(Hi & Hin)|[(_ & Hq)|(_ & Hq)]]]; try discriminate.
    destruct Hshape as [(-> & _)|(next & exts' & -> & Hexts' & Hrun)];
      [now rewrite lookup_nil in Hin|].
    cbn [length] in *. replace i with d in * by lia.
    rewrite Nat.sub_diag in Hin. inversion Hin; subst p. clear Hin.
    rewrite run_await in Hrun.
    destruct (next (store c)) as [p' st'] eqn:Hnext. cbn [fst snd] in Hrun.
    assert (Hins : <[d := settle p']> (phases c)
                   = (Resolved <$> (in_turn e (take d (mkCall app <$> callers)) st0).1) ++ settle p'
                       :: replicate q Queued ++ replicate m Idle).
    { rewrite Hph. unfold lined_up. cbn [List.app]. rewrite <- Hrs at 1.
      apply lined_up_insert. }
    destruct p' as [r|next']; cbn [settle] in *.
    + cbn [run] in Hrun. symmetry in Hrun.
      pose proof (before_step d exts' r st' Hexts' Hrun) as Hnext'.
      exists (S d), [], q, m. cbv zeta. rewrite Hnext'. cbn [fst snd phases store length].
      split; [|split; [lia|left; split; [reflexivity|split; [reflexivity|lia]]]].
      rewrite Hins. apply lined_up_snoc.
    + exists d, [Running (Await next')], q, m. cbv zeta. cbn [fst snd phases store length].
      split; [exact Hins|]. split; [lia|right].
      exists next', exts'. auto.
Qed.

Lemma serial_exec (schedule : list nat) :
  forall c, serial e app callers st0 c ->
            serial e app callers st0 (exec maxPending callback (mkCall app <$> callers) schedule c).
Proof.
  induction schedule as [|i schedule IH]; intros c Hc; [exact Hc|].
  cbn. apply IH. now apply serial_fire.
Qed.

(** One call at a time is inside its callback, none is turned away, and
    the calls that are settled have the results of the run in turn. *)
Lemma serial_running (c : Config) (i j : nat) (pi pj : Proc string) :
  serial e app callers st0 c ->
  phases c !! i = Some (Running pi) -> phases c !! j = Some (Running pj) -> i = j.
Proof.
  intros (d & mid & q & m & Hph & Hlen & Hshape) Hi Hj. cbv zeta in *.
  assert (Hrs : length (in_turn e (take d (mkCall app <$> callers)) st0).1 = d)
    by (apply before_length; lia).
  assert (Hmid : length mid <= 1).
  { destruct Hshape as [(-> & _)|(next & exts & -> & _)]; cbn; lia. }
  rewrite Hph in Hi, Hj. apply lined_up_zone in Hi, Hj. rewrite Hrs in Hi, Hj.
  destruct Hi as [(_ & r & Hr)|[(Hi & _)|[(_ & Hr)|(_ & Hr)]]]; try discriminate.
  destruct Hj as [(_ & r & Hr)|[(Hj & _)|[(_ & Hr)|(_ & Hr)]]]; try discriminate.
  lia.
Qed.

Lemma serial_accepted (c : Config) (i : nat) :
  serial e app callers st0 c -> phases c !! i <> Some Rejected.
Proof.
  intros (d & mid & q & m & Hph & Hlen & Hshape) Hi. cbv zeta in *.
  rewrite Hph in Hi. apply lined_up_zone in Hi.
  destruct Hi as [(_ & r & Hr)|[(_ & Hin)|[(_ & Hr)|(_ & Hr)]]]; try discriminate.
  destruct Hshape as [(-> & _)|(next & exts & -> & _)].
  - now rewrite lookup_nil in Hin.
  - destruct (i - length (in_turn e (take d (mkCall app <$> callers)) st0).1)
    as [|[|n]]; discriminate.
Qed.

Lemma in_turn_take (l : list Call) : forall (d : nat) (st : State),
  (in_turn e (take d l) st).1 = take d (in_turn e l st).1.
Proof.
  induction l as [|call rest IH]; intros [|d] st; cbn [take in_turn]; try reflexivity.
  destruct (configureApp e (JSString (descriptor call)) (supported call) st) as [r st1].
  specialize (IH d st1).
  destruct (in_turn e (take d rest) st1), (in_turn e rest st1). cbn in *.
  now rewrite IH.
Qed.

Lemma serial_results (c : Config) (i : nat) (r : Result (option string)) :
  serial e app callers st0 c ->
  phases c !! i = Some (Resolved r) ->
  (in_turn e (mkCall app <$> callers) st0).1 !! i = Some r.
Proof.
  intros (d & mid & q & m & Hph & Hlen & Hshape) Hi. cbv zeta in *.
  assert (Hrs : length (in_turn e (take d (mkCall app <$> callers)) st0).1 = d)
    by (apply before_length; lia).
  pose proof Hi as Hzone. rewrite Hph in Hzone. apply lined_up_zone in Hzone.
  rewrite Hrs in Hzone.
  destruct Hzone as [(Hlt & _)|[(_ & Hin)|[(_ & Hr)|(_ & Hr)]]]; try discriminate.
  - rewrite Hph in Hi. unfold lined_up in Hi.
    rewrite lookup_app_l, list_lookup_fmap in Hi by (rewrite length_fmap; lia).
    rewrite in_turn_take, lookup_take_lt in Hi by lia.
    destruct ((in_turn e (mkCall app <$> callers) st0).1 !! i); inversion Hi. reflexivity.
  - destruct Hshape as [(-> & _)|(next & exts & -> & _)].
    + now rewrite lookup_nil in Hin.
    + destruct (i - d) as [|[|n]]; discriminate.
Qed.

Lemma serial_settled (c : Config) :
  serial e app callers st0 c ->
  settled c = true ->
  phases c = Resolved <$> (in_turn e (mkCall app <$> callers) st0).1 /\ store c
    = (in_turn e (mkCall app <$> callers) st0).2.
Proof.
  intros (d & mid & q & m & Hph & Hlen & Hshape) Hall. cbv zeta in *.
  assert (Hrs : length (in_turn e (take d (mkCall app <$> callers)) st0).1 = d)
    by (apply before_length; lia).
  unfold settled in Hall.
  assert (Hmid : mid = []).
  { destruct Hshape as [(-> & _)|(next & exts & -> & _)]; [reflexivity|exfalso].
    assert (Hj : phases c !! d = Some (Running (Await next))).
    { rewrite Hph, lined_up_mid by (rewrite Hrs; cbn; lia).
      now rewrite Hrs, Nat.sub_diag. }
    pose proof (forallb_lookup _ _ _ _ Hall Hj). discriminate. }
  subst mid. cbn [length] in *.
  assert (Hq : q = 0).
  { destruct q as [|q']; [reflexivity|exfalso].
    assert (Hj : phases c !! d = Some Queued).
    { rewrite Hph. apply lined_up_queued; rewrite Hrs; cbn; lia. }
    pose proof (forallb_lookup _ _ _ _ Hall Hj). discriminate. }
  subst q.
  assert (Hm : m = 0).
  { destruct m as [|m']; [reflexivity|exfalso].
    assert (Hj : phases c !! d = Some Idle).
    { rewrite Hph. apply lined_up_idle; rewrite Hrs; cbn; lia. }
    pose proof (forallb_lookup _ _ _ _ Hall Hj). discriminate. }
  subst m.
  destruct Hshape as [(_ & Hst & _)|(next & exts & Hno & _)]; [|discriminate].
  assert (Hd : take d (mkCall app <$> callers) = (mkCall app <$> callers)).
  { apply take_ge. rewrite length_fmap. lia. }
  rewrite Hd in *. split; [|exact Hst].
  rewrite Hph. unfold lined_up. cbn. now rewrite app_nil_r.
Qed.

(** The scheduler can let every call run to its end. *)
Lemma resumed_to_the_end (d : nat) (R rest : list Phase) (exts : Extensions) :
  length R = d -> callers !! d = Some exts ->
  forall (k : nat) (next : State -> Proc string * State) (c : Config),
    awaits (Await next) (store c) = S k ->
    phases c = R ++ Running (Await next) :: rest ->
    exec maxPending callback (mkCall app <$> callers) (replicate (S k) d) c
    = mkConfig (R ++ Resolved (promised (run (Await next) (store c)).1) :: rest)
               (run (Await next) (store c)).2.
Proof.
  intros HR Hexts. induction k as [|k IH]; intros next c Hk Hph.
  - rewrite awaits_await in Hk. rewrite run_await. cbn [replicate exec List.fold_left].
    unfold fire. rewrite list_lookup_fmap, Hexts. cbn [fmap option_fmap option_map].
    rewrite Hph, lookup_app_r, HR, Nat.sub_diag by lia. cbn [lookup list_lookup].
    destruct (next (store c)) as [p' st'] eqn:Hnext. cbn [fst snd] in *.
    destruct p' as [r|next']; [|rewrite awaits_await in Hk; discriminate].
    cbn [settle run fst snd]. f_equal.
    rewrite insert_app_r_alt, HR, Nat.sub_diag by lia. reflexivity.
  - rewrite awaits_await in Hk. rewrite run_await.
    change (replicate (S (S k)) d) with ([d] ++ replicate (S k) d).
    rewrite exec_app.
    change (exec maxPending callback (mkCall app <$> callers) [d] c)
      with (fire maxPending callback (mkCall app <$> callers) d c).
    unfold fire. rewrite list_lookup_fmap, Hexts. cbn [fmap option_fmap option_map].
    rewrite Hph, lookup_app_r, HR, Nat.sub_diag by lia. cbn [lookup list_lookup].
    destruct (next (store c)) as [p' st'] eqn:Hnext. cbn [fst snd] in *.
    destruct p' as [r|next']; [discriminate|]. cbn [settle].
    rewrite insert_app_r_alt, HR, Nat.sub_diag by lia. cbn [insert list_insert].
    apply (IH next' (mkConfig (R ++ Running (Await next') :: rest) st')).
    + cbn [store]. lia.
    + reflexivity.
Qed.

Lemma settled_phases_quiet (rs : list (Result (option string))) (test : Phase -> bool) :
  (forall r, test (Resolved r) = false) -> existsb test (Resolved <$> rs) = false.
Proof. intros H. induction rs as [|r rs IH]; cbn; [reflexivity|]. now rewrite H. Qed.

Lemma idle_phases_quiet (m : nat) (test : Phase -> bool) :
  test Idle = false -> existsb test (replicate m Idle) = false.
Proof. intros H. induction m as [|m IH]; cbn; [reflexivity|]. now rewrite H. Qed.

Lemma a_turn (d m : nat) (rs : list (Result (option string))) (exts : Extensions)
  (c : Config) :
  length rs = d -> callers !! d = Some exts -> d + S m = length callers ->
  phases c = (Resolved <$> rs) ++ replicate (S m) Idle ->
  exec maxPending callback (mkCall app <$> callers)
       (replicate (S (awaits (callback app exts) (store c))) d) c
  = mkConfig ((Resolved <$> (rs ++ [promised (run (callback app exts) (store c)).1]))
                ++ replicate m Idle)
             (run (callback app exts) (store c)).2.
Proof.
  intros Hrs Hexts Hlen Hph.
  assert (HR : length (Resolved <$> rs) = d) by now rewrite length_fmap.
  change (replicate (S (awaits (callback app exts) (store c))) d)
    with ([d] ++ replicate (awaits (callback app exts) (store c)) d).
  rewrite exec_app.
  change (exec maxPending callback (mkCall app <$> callers) [d] c)
    with (fire maxPending callback (mkCall app <$> callers) d c).
  assert (Hfire : fire maxPending callback (mkCall app <$> callers) d c
                  = mkConfig ((Resolved <$> rs) ++ settle (callback app exts)
                                :: replicate m Idle) (store c)).
  { unfold fire. rewrite list_lookup_fmap, Hexts. cbn [fmap option_fmap option_map].
    rewrite Hph at 1. rewrite lookup_app_r, HR, Nat.sub_diag by lia.
    cbn [replicate lookup list_lookup].
    assert (Harr : arrived_before d c = true).
    { unfold arrived_before. rewrite Hph, <- HR, take_app_length.
      clear. induction rs as [|r rs IH]; [reflexivity|exact IH]. }
    rewrite Harr. cbn [negb descriptor].
    assert (Hocc : occupied (mkCall app <$> callers) app c = false).
    { unfold occupied. rewrite same_existsb
        by (rewrite Hph, length_app, length_fmap, length_replicate; lia).
      rewrite Hph, existsb_app, settled_phases_quiet, idle_phases_quiet; reflexivity. }
    rewrite Hocc. unfold set_phase, enter. cbn [descriptor supported]. f_equal.
    rewrite Hph, insert_app_r_alt, HR, Nat.sub_diag by lia. reflexivity. }
  rewrite Hfire.
  destruct (callback app exts) as [r|next] eqn:Hcb.
  - cbn [awaits replicate exec List.fold_left settle run fst snd].
    now rewrite fmap_app, <- app_assoc.
  - destruct (awaits (Await next) (store c)) as [|k] eqn:Hk;
      [rewrite awaits_await in Hk; discriminate|].
    cbn [settle].
    rewrite (resumed_to_the_end d (Resolved <$> rs) (replicate m Idle) exts HR Hexts
               k next (mkConfig ((Resolved <$> rs) ++ Running (Await next)
                                   :: replicate m Idle) (store c)) Hk eq_refl).
    cbn [store]. now rewrite fmap_app, <- app_assoc.
Qed.

Lemma one_by_one_settles (m : nat) :
  forall (d : nat) (rs : list (Result (option string))) (c : Config),
    length rs = d -> d + m = length callers ->
    phases c = (Resolved <$> rs) ++ replicate m Idle ->
    settled (exec maxPending callback (mkCall app <$> callers)
                  (one_by_one callback d (drop d (mkCall app <$> callers)) (store c)) c) = true.
Proof.
  induction m as [|m IH]; intros d rs c Hrs Hlen Hph.
  - rewrite drop_ge by (rewrite length_fmap; lia). cbn [one_by_one exec List.fold_left].
    unfold settled. rewrite Hph. cbn [replicate]. rewrite app_nil_r.
    clear. induction rs as [|r rs IH]; [reflexivity|exact IH].
  - destruct (lookup_lt_is_Some_2 callers d ltac:(lia)) as [exts Hexts].
    rewrite (drop_S (mkCall app <$> callers) (mkCall app exts) d)
      by (now rewrite list_lookup_fmap, Hexts).
    cbn [one_by_one descriptor supported]. rewrite exec_app.
    rewrite (a_turn d m rs exts c Hrs Hexts Hlen Hph).
    match goal with |- context [exec _ _ _ (one_by_one _ _ _ ?s) ?c'] =>
      change s with (store c') end.
    apply (IH (S d) (rs ++ [promised (run (callback app exts) (store c)).1])).
    + rewrite length_app. cbn. lia.
    + lia.
    + reflexivity.
Qed.

Lemma can_settle :
  exists schedule,
    settled (exec maxPending callback (mkCall app <$> callers) schedule (init (mkCall app <$>
      callers) st0)) = true.
Proof.
  exists (one_by_one callback 0 (mkCall app <$> callers) st0).
  apply (one_by_one_settles (length callers) 0 [] (init (mkCall app <$> callers) st0));
    [reflexivity|lia|].
  unfold init. now rewrite length_fmap.
Qed.

End Serialized.

Section Reuse.

Variable e : Env.

(** Once the cache answers, it keeps answering: each call that follows
    gets the stored path, or the refusal of its extension, and leaves the
    state as it is but for the probe it logs. *)
Lemma in_turn_fresh (app : string) (later : list Extensions)
  (h : Headers) (text : string) (entry : CacheEntry) (stored : Date) :
  isUrl (url_parse e app) = true ->
  http_head e app = Some h ->
  header h "last-modified" = Some text ->
  lastModified entry = Some stored ->
  time_le (date_parse e text) stored = true ->
  forall st,
    cache st !! app = Some entry ->
    exists_in e (files st) (fullPath entry) = true ->
    (in_turn e (mkCall app <$> later) st).1 = reused (fullPath entry) <$> later
    /\ downloads (in_turn e (mkCall app <$> later) st).2 = downloads st
    /\ extractions (in_turn e (mkCall app <$> later) st).2 = extractions st
    /\ cache (in_turn e (mkCall app <$> later) st).2 = cache st.
Proof.
  intros Hurl Hhead Htoken Hstored Hle.
  induction later as [|exts later IH]; intros st Hentry Hdisk.
  - repeat split.
  - cbn [fmap list_fmap in_turn descriptor supported].
    rewrite configureApp_promised.
    rewrite (guarded_fresh e app (toArray exts) st h text entry stored) by assumption.
    cbn [fst snd].
    specialize (IH (log (EvHead app) st) Hentry Hdisk).
    destruct (in_turn e (mkCall app <$> later) (log (EvHead app) st)) as [rs st2].
    cbn [fst snd] in *. destruct IH as (Hrs & Hd & Hx & Hc).
    rewrite Hrs, Hd, Hx, Hc, downloads_log_head, extractions_log_head.
    split; [|repeat split]. f_equal. unfold reused.
    now destruct (includes (toArray exts) (path.extname (fullPath entry))).
Qed.


End Reuse.


(** * The properties on the sample machine *)

Section Scenarios.

Import Sample.

Example first_caller_downloads :
  (configureApp web_dated (JSString apk_url) (OneExtension ".apk") empty_machine).1
  = Ok (Some "/tmp/a/app.apk")
  /\ cache after_first !! apk_url = Some cached_apk
  /\ downloads after_first = 1%nat.
Proof. repeat split. Qed.

Example first_caller_extracts :
  (configureApp web_zip (JSString zip_url) (OneExtension ".apk") empty_machine).1
  = Ok (Some "/tmp/b/top.apk")
  /\ cache after_first_zip !! zip_url = Some cached_unzipped
  /\ downloads after_first_zip = 1%nat
  /\ extractions after_first_zip = 1%nat.
Proof. repeat split. Qed.

Example downloads_reach_finish :
  (use_remote web_zip zip_url (parse zip_url) [".apk"] empty_machine).1
  = Ok (Continue first_locals)
  /\ (use_remote web_zip zip_url (parse zip_url) [".apk"] after_first_zip).1
     = Ok (Continue again_locals).
Proof. repeat split. Qed.

(** C1, instance: the second caller gets the cached package after a
    probe only. *)
Lemma configureApp_fresh_hit_witness :
  isUrl (url_parse web_dated apk_url) = true
  /\ time_le (date_parse web_dated stamp_2015) stored_2015 = true
  /\ exists_in web_dated (files after_first) "/tmp/a/app.apk" = true
  /\ (configureApp web_dated (JSString apk_url) (OneExtension ".apk") after_first).1
     = Ok (Some "/tmp/a/app.apk")
  /\ downloads (configureApp web_dated (JSString apk_url) (OneExtension ".apk") after_first).2
     = downloads after_first.
Proof.
  split; [reflexivity|]. split; [reflexivity|]. split; [reflexivity|].
  destruct (configureApp_fresh_hit web_dated apk_url (OneExtension ".apk") after_first
              dated stamp_2015 cached_apk stored_2015)
    as (Hres & Hdown & _); try reflexivity.
  split; [exact Hres | exact Hdown].
Defined.

(** C1 as stated fails.  After a first caller accepting [.apk], token,
    entry and artifact are as the claim requires; a second caller
    accepting [.ipa] does not get the stored path, it gets the failure of
    line 126. *)
Lemma configureApp_fresh_hit_counterexample :
  isUrl (url_parse web_dated apk_url) = true
  /\ header dated "last-modified" = Some stamp_2015
  /\ cache after_first !! apk_url = Some cached_apk
  /\ time_le (date_parse web_dated stamp_2015) stored_2015 = true
  /\ exists_in web_dated (files after_first) (fullPath cached_apk) = true
  /\ (configureApp web_dated (JSString apk_url) (ExtensionArray [".ipa"]) after_first).1
     = Err (UnsupportedExtension "/tmp/a/app.apk" [".ipa"])
  /\ (configureApp web_dated (JSString apk_url) (ExtensionArray [".ipa"]) after_first).1
     <> Ok (Some (fullPath cached_apk)).
Proof.
  repeat (split; [vm_compute; reflexivity|]). vm_compute. discriminate.
Defined.

(** C2, instance: no extension in the URL, an archive content type and an
    attachment named [foo.zip]. *)
Lemma destination_priority_witness :
  destination web_zip "download" zip_attachment [".apk"] = ("foo.zip", true)
  /\ (name_from_content_type zip_attachment
        (name_from_url "app.zip" (path.extname "app.zip"))).1 = Some "app.zip".
Proof.
  split.
  - rewrite (proj1 (destination_priority web_zip "download" zip_attachment [".apk"])).
    reflexivity.
  - apply (proj2 (destination_priority web_zip "app.zip" zip_attachment [".apk"])).
    reflexivity.
Defined.

(** C2 as stated fails.  In the claim's own example the content type has
    derived the name [appium-app.zip] before the attachment name replaces
    it; a name taken from the URL basename is replaced as well. *)
Lemma destination_priority_counterexample :
  (name_from_content_type zip_attachment
     (name_from_url "download" (path.extname "download"))).1 = Some "appium-app.zip"
  /\ (destination web_zip "download" zip_attachment [".apk"]).1 = "foo.zip"
  /\ (name_from_url "app.zip" (path.extname "app.zip")).1 = Some "app.zip"
  /\ (destination web_zip "app.zip" named_attachment [".apk"]).1 = "foo.zip".
Proof. repeat split. Defined.

(** C3, instances.  A caller that downloads the archive again drops it in
    favour of the bundle the first caller extracted; the first caller,
    finding no entry, extracts and records. *)
Lemma configureApp_archive_dedup_witness :
  ((configureApp web_zip (JSString zip_url) (ExtensionArray [".apk"]) after_first_zip).1
   = Ok (Some "/tmp/b/top.apk")
   /\ exists_in web_zip
        (files (configureApp web_zip (JSString zip_url) (ExtensionArray [".apk"])
                  after_first_zip).2)
        "/tmp/d/app.zip" = false
   /\ extractions (configureApp web_zip (JSString zip_url) (ExtensionArray [".apk"])
                     after_first_zip).2
      = extractions after_first_zip)
  /\ (cache after_first_zip !! zip_url
      = Some (mkEntry (Some "md5:zip:two-apks") None "/tmp/b/top.apk")
      /\ extractions after_first_zip = 1%nat).
Proof.
  split.
  - destruct (configureApp_archive_dedup web_zip zip_url (ExtensionArray [".apk"])
                after_first_zip again_locals downloaded_again
                eq_refl eq_refl eq_refl eq_refl)
      as (c & Hfile & HA & _).
    vm_compute in Hfile. inversion Hfile; subst c.
    destruct (HA cached_unzipped eq_refl eq_refl eq_refl) as (Hres & Hgone & Hcount & _).
    split; [exact Hres|]. split; [exact Hgone|].
    rewrite Hcount. vm_compute. reflexivity.
  - destruct (configureApp_archive_dedup web_zip zip_url (ExtensionArray [".apk"])
                empty_machine first_locals downloaded_first
                eq_refl eq_refl eq_refl eq_refl)
      as (c & Hfile & _ & HB).
    vm_compute in Hfile. inversion Hfile; subst c.
    apply (HB ltac:(intros entry Hentry; vm_compute in Hentry; discriminate)
              eq_refl eq_refl "/tmp/b/top.apk" after_first_zip).
    vm_compute. reflexivity.
Defined.

(** C3 as stated fails.  After a first caller accepting [.apk], a second
    caller accepting [.ipa] downloads the same archive: digest and
    artifact are as the claim requires and the download is dropped, yet
    the cached path is not returned; the call fails at line 206. *)
Lemma configureApp_archive_dedup_counterexample :
  cache after_first_zip !! zip_url = Some cached_unzipped
  /\ hash cached_unzipped = Some (digest web_zip "zip:two-apks")
  /\ exists_in web_zip (files after_first_zip) (fullPath cached_unzipped) = true
  /\ (configureApp web_zip (JSString zip_url) (ExtensionArray [".ipa"]) after_first_zip).1
     = Err (UnsupportedExtension "/tmp/b/top.apk" [".ipa"])
  /\ (configureApp web_zip (JSString zip_url) (ExtensionArray [".ipa"]) after_first_zip).1
     <> Ok (Some (fullPath cached_unzipped)).
Proof.
  repeat (split; [vm_compute; reflexivity|]). vm_compute. discriminate.
Defined.


(** C5, instance: an archive without a supported entry. *)
Lemma unzipApp_releases_tmpRoot_witness :
  (unzipApp offline "/apps/Demo.ipa" "/dst" (OneExtension ".apk") local_ipa).1
  = Err (NoBundleFound [".apk"])
  /\ exists_in offline
       (files (unzipApp offline "/apps/Demo.ipa" "/dst" (OneExtension ".apk") local_ipa).2)
       (tmp_dir offline (temps local_ipa)) = false.
Proof.
  split; [reflexivity|].
  pose proof (unzipApp_releases_tmpRoot offline "/apps/Demo.ipa" "/dst"
                (OneExtension ".apk") local_ipa) as H.
  cbv zeta in H.
  change (archive_items offline local_ipa "/apps/Demo.ipa")
    with (Some [("Payload", Dir); ("Payload/Demo.app", Dir);
                ("Payload/Demo.app/Info.plist", File "plist")]) in H.
  exact (proj1 H).
Defined.

(** C6, instance: a failed download after a stale entry was found. *)
Lemma configureApp_failure_cache_witness :
  configureApp web_gone (JSString apk_url) (OneExtension ".apk") stale
  = (Err (DownloadFailure apk_url "404 - Not Found"),
     (configureApp web_gone (JSString apk_url) (OneExtension ".apk") stale).2)
  /\ (cache (configureApp web_gone (JSString apk_url) (OneExtension ".apk") stale).2
      = cache stale
      \/ exists s entry,
           JSString apk_url = JSString s
           /\ cache stale !! s = Some entry
           /\ exists_in web_gone (files stale) (fullPath entry) = false
           /\ cache (configureApp web_gone (JSString apk_url) (OneExtension ".apk") stale).2
              = delete s (cache stale)).
Proof.
  assert (Hrun : configureApp web_gone (JSString apk_url) (OneExtension ".apk") stale
                 = (Err (DownloadFailure apk_url "404 - Not Found"),
                    (configureApp web_gone (JSString apk_url) (OneExtension ".apk") stale).2))
    by (vm_compute; reflexivity).
  split; [exact Hrun|].
  exact (configureApp_failure_cache web_gone (JSString apk_url) (OneExtension ".apk")
           stale _ _ Hrun).
Defined.

(** C6 as stated fails.  The package cached by a first caller has been
    swept from the disk and the host now answers GET with 404: the call
    fails, and the entry the cache held for the descriptor before the
    call is not there after it. *)
Lemma configureApp_failure_cache_counterexample :
  (configureApp web_gone (JSString apk_url) (OneExtension ".apk") stale).1
  = Err (DownloadFailure apk_url "404 - Not Found")
  /\ cache stale !! apk_url = Some cached_apk
  /\ cache (configureApp web_gone (JSString apk_url) (OneExtension ".apk") stale).2
       !! apk_url = None
  /\ cache (configureApp web_gone (JSString apk_url) (OneExtension ".apk") stale).2
     <> cache stale.
Proof.
  repeat (split; [vm_compute; reflexivity|]).
  intros Heq.
  assert (H : cache (configureApp web_gone (JSString apk_url) (OneExtension ".apk") stale).2
                !! apk_url = cache stale !! apk_url) by now rewrite Heq.
  vm_compute in H. discriminate.
Defined.

(** C7, instances: a text file is refused for its extension; an [.ipa]
    is unzipped and fails the way [unzipApp] does. *)
Lemma configureApp_local_extension_witness :
  configureApp offline (JSString "/apps/notes.txt") (ExtensionArray [".apk"]) local_txt
  = (Err (UnsupportedExtension "/apps/notes.txt" [".apk"]), local_txt)
  /\ (configureApp offline (JSString "/apps/Demo.ipa") (ExtensionArray [".apk"]) local_ipa).1
     = Err (NoBundleFound [".apk"]).
Proof.
  split.
  - apply (proj1 (configureApp_local_extension offline "/apps/notes.txt"
                    (ExtensionArray [".apk"]) local_txt eq_refl eq_refl));
      reflexivity.
  - apply (proj2 (configureApp_local_extension offline "/apps/Demo.ipa"
                    (ExtensionArray [".apk"]) local_ipa eq_refl eq_refl)
             eq_refl "zip:ios"); reflexivity.
Defined.

(** C7 as stated fails.  An existing local [.ipa] acquired for [.apk]
    does not fail with [UnsupportedExtension]: it is unzipped, and fails
    for want of an [.apk] inside. *)
Lemma configureApp_local_extension_counterexample :
  exists_in offline (files local_ipa) "/apps/Demo.ipa" = true
  /\ path.extname "/apps/Demo.ipa" = ".ipa"
  /\ (configureApp offline (JSString "/apps/Demo.ipa") (ExtensionArray [".apk"]) local_ipa).1
     = Err (NoBundleFound [".apk"])
  /\ (configureApp offline (JSString "/apps/Demo.ipa") (ExtensionArray [".apk"]) local_ipa).1
     <> Err (UnsupportedExtension "/apps/Demo.ipa" [".apk"]).
Proof.
  repeat (split; [vm_compute; reflexivity|]). vm_compute. discriminate.
Defined.

(** C8, instance: [./app.apk] in [/work]. *)
Lemma configureApp_resolves_relative_witness :
  cwd offline = "/work"
  /\ exists_in offline (files local_apk) "./app.apk" = true
  /\ path.isAbsolute "./app.apk" = false
  /\ configureApp offline (JSString "./app.apk") (ExtensionArray [".apk"]) local_apk
     = (Ok (Some "/work/app.apk"), local_apk).
Proof.
  repeat (split; [reflexivity|]).
  exact (proj2 (proj2 (configureApp_resolves_relative offline "./app.apk"
                         (ExtensionArray [".apk"]) local_apk
                         eq_refl eq_refl eq_refl eq_refl))).
Defined.



(** The lock's queue is bounded: with room for one waiting caller, the
    third and the fourth of four calls made together are turned away. *)
Example lock_turns_away :
  let calls := mkCall apk_url <$> List.repeat (OneExtension ".apk") 4 in
  is_settled <$> phases (exec 1 (staged web_dated) calls [0;1;2;3] (init calls empty_machine))
  = [false; false; true; true]
  /\ phases (exec 1 (staged web_dated) calls [0;1;2;3] (init calls empty_machine)) !! 3%nat
     = Some Rejected.
Proof. split; vm_compute; reflexivity. Qed.

(** C10, instances: [null] and a number. *)
Lemma configureApp_not_a_string_witness :
  configureApp web_dated JSNull (OneExtension ".apk") after_first = (Ok None, after_first)
  /\ configureApp web_dated (JSNumber 42) (ExtensionArray [".apk"]) after_first
     = (Ok None, after_first).
Proof.
  split; apply configureApp_not_a_string; reflexivity.
Defined.

End Scenarios.

(** * Further properties of the acquisition *)

Section Traces.

Variable e : Env.

(** [unzipApp] logs its extraction and nothing else. *)
Lemma unzipApp_trace (zipPath dstRoot : string) (exts : Extensions)
  (st st' : State) (r : Result string) :
  unzipApp e zipPath dstRoot exts st = (r, st') ->
  trace st' = trace st
  \/ trace st' = trace st ++ [EvExtract zipPath (tmp_dir e (temps st))].
Proof.
  intros Hrun.
  destruct (archive_items e st zipPath) as [items|] eqn:Hitems.
  - rewrite (unzipApp_run _ _ _ _ _ _ Hitems) in Hrun. cbv zeta in Hrun.
    set (tmpRoot := tmp_dir e (temps st)) in *.
    destruct (extraction e zipPath dstRoot (toArray exts) tmpRoot (openDir e st).2)
      as [r0 st2] eqn:Hinner.
    cbn [fst snd] in Hrun. inversion Hrun; subst r0 st'. clear Hrun.
    cbn [trace set_files].
    unfold extraction in Hinner. rewrite bind_run in Hinner.
    unfold extractAllTo in Hinner.
    destruct (archive_items e (openDir e st).2 zipPath) as [items'|].
    + rewrite bind_run in Hinner. unfold fs_glob, gets in Hinner.
      match type of Hinner with context [bundle_items ?a ?b] =>
        destruct (bundle_items a b) as [|m rest] end.
      * inversion Hinner; subst. now right.
      * cbv zeta in Hinner. rewrite bind_run in Hinner.
        match type of Hinner with context [fs_mv e ?a ?b ?s] =>
          destruct (fs_mv e a b s) as [rm st4] eqn:Hmv end.
        apply fs_mv_inv in Hmv. destruct Hmv as (_ & Ht & _ & _).
        destruct rm as [[]|x]; inversion Hinner; subst; right; exact Ht.
    + inversion Hinner; subst. now left.
  - rewrite (unzipApp_invalid _ _ _ _ _ Hitems) in Hrun. inversion Hrun; subst.
    now left.
Qed.

Lemma extract_archive_trace (exts : list string) (v : Locals) (d : string)
  (st st' : State) (r : Result Flow) :
  extract_archive e exts v d st = (r, st') ->
  trace st' = trace st
  \/ exists tmp, trace st' = trace st ++ [EvExtract (newApp v) tmp].
Proof.
  unfold extract_archive. cbv zeta. rewrite bind_run.
  change (openDir e st) with (Ok (tmp_dir e (temps st)), (openDir e st).2).
  cbv iota beta. rewrite bind_run, try_finally_run.
  destruct (unzipApp e (newApp v) (tmp_dir e (temps st)) (ExtensionArray exts)
              (openDir e st).2) as [ru st2] eqn:Hunzip.
  apply unzipApp_trace in Hunzip. cbn [fst snd].
  assert (Hst2 : trace st2 = trace st
                 \/ exists tmp, trace st2 = trace st ++ [EvExtract (newApp v) tmp]).
  { destruct Hunzip as [H|H]; [left|right; eexists]; exact H. }
  destruct (differ (match ru with Ok p => p | Err _ => newApp v end) (newApp v)
            && differ (newApp v) (key v));
    unfold fs_rimraf, modify, ret; destruct ru as [p|x];
    intros H; inversion H; subst; exact Hst2.
Qed.

(** Lines 196-243 log at most one extraction, of the archive at [newApp]. *)
Lemma finish_trace (exts : list string) (v : Locals) (st st' : State)
  (r : Result string) :
  finish e exts v st = (r, st') ->
  trace st' = trace st
  \/ exists tmp, trace st' = trace st ++ [EvExtract (newApp v) tmp].
Proof.
  unfold finish. rewrite bind_run. unfold extract_or_resolve.
  assert (Hstore : forall v' st1 r' st2,
    verify_and_store e exts v' st1 = (r', st2) -> trace st2 = trace st1).
  { intros v' st1 r' st2 H. apply verify_and_store_effects in H.
    destruct r' as [p|x]; [now destruct H as (_ & Ht & _) | now subst]. }
  destruct (shouldUnzipApp v).
  - cbv zeta. rewrite bind_run.
    destruct (fs_hash e (newApp v) st) as [[d|y] st0] eqn:Hhash;
      apply fs_hash_state in Hhash; subst st0.
    + rewrite bind_run.
      destruct (reuse_extracted_cases e (key v) (newApp v) d exts st)
        as [(en & _ & _ & _ & Heq)|[(en & _ & _ & _ & Heq)|(_ & Heq)]];
        rewrite Heq.
      * destruct (includes exts (path.extname (fullPath en)));
          intros H; inversion H; subst; left;
          destruct (differ (newApp v) (key v)); reflexivity.
      * destruct (extract_archive e exts v d (set_cache (delete (key v)) st))
          as [[[q|v']|y] st2] eqn:Hextract;
          apply extract_archive_trace in Hextract; cbn [trace set_cache] in Hextract;
          intros H; try (inversion H; subst; exact Hextract).
        apply Hstore in H. now rewrite H.
      * destruct (extract_archive e exts v d st) as [[[q|v']|y] st2] eqn:Hextract;
          apply extract_archive_trace in Hextract;
          intros H; try (inversion H; subst; exact Hextract).
        apply Hstore in H. now rewrite H.
    + intros H. inversion H; subst. now left.
  - destruct (negb (path.isAbsolute (newApp v))); cbv zeta; unfold ret at 1;
      intros H; apply Hstore in H; now left.
Qed.

Lemma downloads_app_extract (tr : list Event) (zipPath tmp : string) :
  length (List.filter is_download (tr ++ [EvExtract zipPath tmp]))
  = length (List.filter is_download tr).
Proof. rewrite List.filter_app. cbn. now rewrite app_nil_r. Qed.

Lemma finish_downloads (exts : list string) (v : Locals) (st st' : State)
  (r : Result string) :
  finish e exts v st = (r, st') -> downloads st' = downloads st.
Proof.
  intros H. apply finish_trace in H. unfold downloads.
  destruct H as [->|[tmp ->]]; [reflexivity|apply downloads_app_extract].
Qed.

End Traces.


Section Provenance.

Variable e : Env.

(** The three ways lines 122-130 can go: the cached path is fresh and on
    disk, a fresh entry has lost its artifact and is purged, or the cache
    has nothing fresh to offer. *)
Lemma reuse_fresh_cases (app : string) (current : option Date) (exts : list string)
  (st : State) :
  (exists entry stored cur,
      current = Some cur /\ cache st !! app = Some entry
      /\ lastModified entry = Some stored /\ time_le cur stored = true
      /\ exists_in e (files st) (fullPath entry) = true
      /\ reuse_fresh e app current exts st
         = (if includes exts (path.extname (fullPath entry))
            then Ok (Some (fullPath entry))
            else Err (UnsupportedExtension (fullPath entry) exts), st))
  \/ (exists entry stored cur,
      current = Some cur /\ cache st !! app = Some entry
      /\ lastModified entry = Some stored /\ time_le cur stored = true
      /\ exists_in e (files st) (fullPath entry) = false
      /\ reuse_fresh e app current exts st
         = (Ok None, if truthy (fullPath entry)
                     then set_cache (delete app) st else st))
  \/ ((forall entry stored cur,
          current = Some cur -> cache st !! app = Some entry ->
          lastModified entry = Some stored -> time_le cur stored = false)
      /\ reuse_fresh e app current exts st = (Ok None, st)).
Proof.
  unfold reuse_fresh. rewrite bind_run. unfold getCachedApplicationPath, gets.
  destruct (cache st !! app) as [entry|] eqn:Hentry.
  - destruct current as [cur|].
    + destruct (lastModified entry) as [stored|] eqn:Hstored.
      * destruct (time_le cur stored) eqn:Hle.
        -- destruct (exists_in e (files st) (fullPath entry)) eqn:Hdisk.
           ++ left. exists entry, stored, cur.
              repeat (split; [assumption || reflexivity|]).
              assert (Ht : truthy (fullPath entry) = true).
              { unfold exists_in in Hdisk. now apply andb_true_iff in Hdisk. }
              rewrite Ht, bind_run. unfold fs_exists, gets. rewrite Hdisk.
              unfold verifyAppExtension.
              destruct (includes exts (path.extname (fullPath entry))); reflexivity.
           ++ right. left. exists entry, stored, cur.
              repeat (split; [assumption || reflexivity|]).
              destruct (truthy (fullPath entry)); [|reflexivity].
              rewrite bind_run. unfold fs_exists, gets. rewrite Hdisk.
              rewrite bind_run, (cache_del_purge e app entry st Hentry Hdisk).
              reflexivity.
        -- right. right. split; [|reflexivity].
           intros en s c Hc Hen Hs. inversion Hc; subst c.
           inversion Hen; subst en. rewrite Hstored in Hs. now inversion Hs; subst.
      * right. right. split; [|reflexivity].
        intros en s c _ Hen Hs. inversion Hen; subst en. congruence.
    + right. right. split; [|reflexivity]. intros en s c Hc. discriminate.
  - right. right. split; [|destruct current; reflexivity].
    intros en s c _ Hen. discriminate.
Qed.

(** How lines 114-181 can end. *)
Lemma use_remote_inv (app : string) (u : Url) (exts : list string)
  (st st' : State) (r : Result Flow) :
  use_remote e app u exts st = (r, st') ->
  (exists entry stored cur,
      probed_date e app = Some cur /\ cache st !! app = Some entry
      /\ lastModified entry = Some stored /\ time_le cur stored = true
      /\ exists_in e (files st) (fullPath entry) = true
      /\ st' = log (EvHead app) st
      /\ r = if includes exts (path.extname (fullPath entry))
             then Ok (Return (fullPath entry))
             else Err (UnsupportedExtension (fullPath entry) exts))
  \/ (exists st1,
      (st1 = log (EvHead app) st
       \/ (st1 = set_cache (delete app) (log (EvHead app) st)
           /\ exists entry cur,
                probed_date e app = Some cur /\ cache st !! app = Some entry
                /\ exists_in e (files st) (fullPath entry) = false))
      /\ ((decoded_pathname e u = None /\ st' = st1 /\ exists t, r = Err (URIError t))
          \/ (exists decoded,
                decoded_pathname e u = Some decoded
                /\ let d := destination e (sanitize e (path.basename decoded))
                              (probed_headers e app) exts in
                   let target := tmp_dir e (temps st) +:+ "/" +:+ d.1 in
                   cache st' = cache st1
                   /\ trace st'
                      = trace st ++ [EvHead app; EvDownload (href (url_parse e app)) target]
                   /\ ((exists body,
                          http_get e (href (url_parse e app)) = GetBody body
                          /\ files st' !! locate e target = Some (File body)
                          /\ r = Ok (Continue (mkLocals app target d.2 None
                                                 (probed_date e app))))
                       \/ (exists cause w,
                             http_get e (href (url_parse e app)) = GetFailed cause w
                             /\ r = Err (DownloadFailure (href (url_parse e app)) cause)))))).
Proof.
  unfold use_remote. rewrite bind_run.
  set (st0 := log (EvHead app) st).
  assert (Hhead : retrieveHeaders e app st = (Ok (probed_headers e app), st0)).
  { unfold retrieveHeaders, probed_headers. now destruct (http_head e app). }
  rewrite Hhead. clear Hhead.
  fold (probed_date e app). rewrite bind_run.
  assert (Hdownload : forall st1 : State,
    temps st1 = temps st -> trace st1 = trace st0 ->
    match decoded_pathname e u with
    | Some decoded =>
        bind (tempDir_path e (destination e (sanitize e (path.basename decoded))
                                (probed_headers e app) exts).1)
          (fun targetPath =>
             bind (downloadApp e app targetPath)
               (fun downloaded =>
                  ret (Continue (mkLocals app downloaded
                         (destination e (sanitize e (path.basename decoded))
                            (probed_headers e app) exts).2 None (probed_date e app)))))
    | None => throw (URIError match pathname u with Some p => p | None => "null" end)
    end st1 = (r, st') ->
    (decoded_pathname e u = None /\ st' = st1 /\ exists t, r = Err (URIError t))
    \/ (exists decoded,
          decoded_pathname e u = Some decoded
          /\ let d := destination e (sanitize e (path.basename decoded))
                        (probed_headers e app) exts in
             let target := tmp_dir e (temps st) +:+ "/" +:+ d.1 in
             cache st' = cache st1
             /\ trace st'
                = trace st ++ [EvHead app; EvDownload (href (url_parse e app)) target]
             /\ ((exists body,
                    http_get e (href (url_parse e app)) = GetBody body
                    /\ files st' !! locate e target = Some (File body)
                    /\ r = Ok (Continue (mkLocals app target d.2 None
                                           (probed_date e app))))
                 \/ (exists cause w,
                       http_get e (href (url_parse e app)) = GetFailed cause w
                       /\ r = Err (DownloadFailure (href (url_parse e app)) cause))))).
  { intros st1 Htemps Htrace.
    destruct (decoded_pathname e u) as [decoded|].
    - rewrite bind_run. unfold tempDir_path. rewrite bind_run.
      change (openDir e st1) with (Ok (tmp_dir e (temps st1)), (openDir e st1).2).
      cbv iota beta. unfold ret at 1. rewrite bind_run. unfold downloadApp.
      rewrite Htemps.
      assert (Htr : trace st1 ++ [EvDownload (href (url_parse e app))
                     (tmp_dir e (temps st) +:+ "/" +:+
                        (destination e (sanitize e (path.basename decoded))
                           (probed_headers e app) exts).1)]
                    = trace st ++ [EvHead app;
                        EvDownload (href (url_parse e app))
                          (tmp_dir e (temps st) +:+ "/" +:+
                             (destination e (sanitize e (path.basename decoded))
                                (probed_headers e app) exts).1)]).
      { rewrite Htrace. unfold st0. cbn [trace log]. now rewrite <- app_assoc. }
      destruct (http_get e (href (url_parse e app))) as [cause w|body] eqn:Hget;
        intros H; inversion H; subst; right; exists decoded;
        (split; [reflexivity|]); cbv zeta.
      + split; [destruct w; reflexivity|].
        split; [destruct w; cbn [trace set_files log openDir next_temp snd]; exact Htr|].
        right. eauto.
      + split; [reflexivity|].
        split; [cbn [trace set_files log openDir next_temp snd]; exact Htr|].
        left. exists body. split; [reflexivity|]. split; [|reflexivity].
        cbn [files set_files log]. apply lookup_insert_eq.
    - unfold throw. intros H. inversion H; subst. left. eauto. }
  destruct (reuse_fresh_cases app (probed_date e app) exts st0)
    as [(en & stored & cur & Hcur & Hen & Hst & Hle & Hdisk & Heq)
       |[(en & stored & cur & Hcur & Hen & Hst & Hle & Hdisk & Heq)|(_ & Heq)]];
    rewrite Heq.
  - intros H. left. exists en, stored, cur.
    repeat (split; [assumption|]).
    destruct (includes exts (path.extname (fullPath en)));
      inversion H; subst; split; reflexivity.
  - intros H. right.
    exists (if truthy (fullPath en) then set_cache (delete app) st0 else st0).
    split.
    + destruct (truthy (fullPath en)); [right|now left].
      split; [reflexivity|]. exists en, cur. repeat split; assumption.
    + apply Hdownload; [destruct (truthy (fullPath en)); reflexivity
                       |destruct (truthy (fullPath en)); reflexivity|exact H].
  - intros H. right. exists st0. split; [now left|].
    apply Hdownload; [reflexivity|reflexivity|exact H].
Qed.

(** How lines 182-194 can end. *)
Lemma use_local_inv (app : string) (u : Url) (st st' : State) (r : Result Flow) :
  use_local e app u st = (r, st') ->
  st' = st
  /\ ((exists_in e (files st) app = true
       /\ r = Ok (Continue (mkLocals app app (includes ZIP_EXTS (path.extname app))
                              None None)))
      \/ (exists_in e (files st) app = false /\ r = Err (missing_error u app))).
Proof.
  unfold use_local, missing_error. rewrite bind_run. unfold fs_exists, gets.
  destruct (exists_in e (files st) app).
  - unfold ret. intros H. inversion H; subst. split; [reflexivity|]. now left.
  - destruct (protocol u) as [proto|];
      [destruct (2 <? String.length proto)%nat|];
      unfold throw; intros H; inversion H; subst; (split; [reflexivity|]); now right.
Qed.

End Provenance.


Section Summary.

Variable e : Env.

Lemma unzipApp_late_error (zipPath dstRoot : string) (exts : Extensions)
  (st st' : State) (x : Error) :
  unzipApp e zipPath dstRoot exts st = (Err x, st') -> late_error x.
Proof.
  intros Hrun.
  destruct (archive_items e st zipPath) as [items|] eqn:Hitems.
  - rewrite (unzipApp_run _ _ _ _ _ _ Hitems) in Hrun. cbv zeta in Hrun.
    destruct (extraction e zipPath dstRoot (toArray exts) (tmp_dir e (temps st))
                (openDir e st).2) as [r0 st2] eqn:Hinner.
    cbn [fst snd] in Hrun. inversion Hrun; subst r0 st'. clear Hrun.
    unfold extraction in Hinner. rewrite bind_run in Hinner.
    unfold extractAllTo in Hinner.
    destruct (archive_items e (openDir e st).2 zipPath) as [items'|].
    + rewrite bind_run in Hinner. unfold fs_glob, gets in Hinner.
      match type of Hinner with context [bundle_items ?a ?b] =>
        destruct (bundle_items a b) as [|m rest] end.
      * inversion Hinner; subst. exact I.
      * cbv zeta in Hinner. rewrite bind_run in Hinner.
        unfold fs_mv in Hinner.
        match type of Hinner with context [files ?s !! ?k] =>
          destruct (files s !! k) end; inversion Hinner; subst. exact I.
    + inversion Hinner; subst. exact I.
  - rewrite (unzipApp_invalid _ _ _ _ _ Hitems) in Hrun. inversion Hrun; subst.
    exact I.
Qed.

Lemma extract_archive_late_error (exts : list string) (v : Locals) (d : string)
  (st st' : State) (x : Error) :
  extract_archive e exts v d st = (Err x, st') -> late_error x.
Proof.
  unfold extract_archive. cbv zeta. rewrite bind_run.
  change (openDir e st) with (Ok (tmp_dir e (temps st)), (openDir e st).2).
  cbv iota beta. rewrite bind_run, try_finally_run.
  destruct (unzipApp e (newApp v) (tmp_dir e (temps st)) (ExtensionArray exts)
              (openDir e st).2) as [[p|y] st2] eqn:Hunzip; cbn [fst snd].
  - destruct (differ p (newApp v) && differ (newApp v) (key v));
      unfold fs_rimraf, modify, ret; discriminate.
  - apply unzipApp_late_error in Hunzip.
    unfold differ at 1. rewrite String.eqb_refl. cbn [negb andb]. unfold ret.
    intros H. now inversion H; subst.
Qed.

Lemma cache_step_refl (app : string) (c : gmap string CacheEntry) :
  cache_step app c c.
Proof. now left. Qed.

(** Lines 227-243, for an absolute [newApp]. *)
Lemma verify_and_store_summary (exts : list string) (v : Locals)
  (st st' : State) (r : Result string) :
  path.isAbsolute (newApp v) = true ->
  verify_and_store e exts v st = (r, st') ->
  (cache st' = cache st
   \/ exists entry,
        storable (key v) entry /\ fullPath entry = newApp v
        /\ cache st' = <[key v := entry]> (cache st))
  /\ match r with
     | Ok p => includes exts (path.extname p) = true
     | Err x => late_error x
     end.
Proof.
  intros Habs Hrun. destruct r as [p|x].
  - pose proof (verify_and_store_ok e _ _ _ _ _ Hrun) as Hp.
    split; [|exact Hp].
    apply verify_and_store_effects in Hrun. destruct Hrun as (_ & _ & Hc).
    destruct (differ (key v) (newApp v)) eqn:Hd; [|now left].
    destruct (truthy_opt (archiveHash v) || bool_decide (is_Some (currentModified v)))
      eqn:Hf; [|now left].
    right. eexists. split; [|split; [|exact Hc]]; [|reflexivity].
    repeat split; assumption.
  - pose proof (verify_and_store_effects e _ _ _ _ _ Hrun) as ->.
    split; [now left|].
    unfold verify_and_store, verifyAppExtension in Hrun.
    destruct (includes exts (path.extname (newApp v))).
    + rewrite bind_run in Hrun. unfold ret at 1 in Hrun. rewrite bind_run in Hrun.
      destruct (update_cache e v st) as [[[]|y] s] eqn:Hu; [discriminate|].
      unfold update_cache in Hu.
      destruct (differ (key v) (newApp v)
                && (truthy_opt (archiveHash v) || bool_decide (is_Some (currentModified v))));
        [|discriminate].
      rewrite bind_run in Hu. unfold cache_get, gets in Hu. rewrite bind_run in Hu.
      destruct (cache st !! key v) as [old|]; [|discriminate].
      destruct (differ (fullPath old) (newApp v)); [|discriminate].
      rewrite bind_run in Hu. unfold fs_exists, gets in Hu.
      destruct (exists_in e (files st) (fullPath old)); discriminate.
    + unfold throw in Hrun. inversion Hrun. exact I.
Qed.

(** What lines 196-243 do to the cache, and how they can end. *)
Lemma finish_summary (exts : list string) (v : Locals) (st st' : State)
  (r : Result string) :
  finish e exts v st = (r, st') ->
  cache_step (key v) (cache st) (cache st')
  /\ match r with
     | Ok p => includes exts (path.extname p) = true
     | Err x => late_error x
     end.
Proof.
  unfold finish. rewrite bind_run. unfold extract_or_resolve.
  destruct (shouldUnzipApp v).
  - cbv zeta. rewrite bind_run.
    destruct (fs_hash e (newApp v) st) as [[d|y] st0] eqn:Hhash.
    + apply fs_hash_state in Hhash. subst st0. rewrite bind_run.
      assert (Hgo : forall st1,
        cache_step (key v) (cache st) (cache st1) ->
        (cache st1 = cache st \/ cache st1 = delete (key v) (cache st)) ->
        match extract_archive e exts v d st1 with
        | (Ok (Return p), s) => ret p s
        | (Ok (Continue v'), s) => verify_and_store e exts v' s
        | (Err x, s) => (Err x, s)
        end = (r, st') ->
        cache_step (key v) (cache st) (cache st')
        /\ match r with
           | Ok p => includes exts (path.extname p) = true
           | Err x => late_error x
           end).
      { intros st1 Hstep Hc1.
        destruct (extract_archive e exts v d st1) as [[f|y] st2] eqn:Hextract.
        - apply extract_archive_effects in Hextract. destruct Hextract as [Hc2 Hok].
          destruct (Hok f eq_refl) as (q & -> & Hq & _).
          intros H. apply verify_and_store_summary in H; [|exact Hq].
          destruct H as [Hc Hr]. split; [|exact Hr]. cbn [key] in Hc.
          destruct Hc as [Hc|(en & Hgood & _ & Hc)].
          + now rewrite Hc, Hc2.
          + right. right. exists en. split; [exact Hgood|].
            rewrite Hc, Hc2.
            destruct Hc1 as [->| ->]; [reflexivity|apply insert_delete_eq].
        - pose proof (extract_archive_late_error _ _ _ _ _ _ Hextract) as Hx.
          apply extract_archive_effects in Hextract. destruct Hextract as [Hc2 _].
          intros H. inversion H; subst. split; [now rewrite Hc2|exact Hx]. }
      destruct (reuse_extracted_cases e (key v) (newApp v) d exts st)
        as [(en & _ & _ & _ & Heq)|[(en & _ & _ & _ & Heq)|(_ & Heq)]];
        rewrite Heq.
      * assert (Hsame : cache (if differ (newApp v) (key v)
                               then set_files (remove_tree e (newApp v)) st else st)
                        = cache st) by (destruct (differ (newApp v) (key v)); reflexivity).
        destruct (includes exts (path.extname (fullPath en))) eqn:Hext;
          intros H; inversion H; subst; rewrite Hsame;
          (split; [apply cache_step_refl|]); [exact Hext|exact I].
      * match goal with |- context [extract_archive e exts v d ?s] =>
          intros H; apply (Hgo s); [right; now left|now right|] end.
        destruct (extract_archive e exts v d (set_cache (delete (key v)) st))
          as [[[q|v']|y] s2]; exact H.
      * intros H. apply (Hgo st); [apply cache_step_refl|now left|].
        destruct (extract_archive e exts v d st) as [[[q|v']|y] s2]; exact H.
    + pose proof (fs_hash_state e _ _ _ _ Hhash) as ->.
      assert (Hy : late_error y).
      { unfold fs_hash in Hhash.
        destruct (files st !! locate e (newApp v)) as [[c|]|];
          inversion Hhash; exact I. }
      intros H. inversion H; subst. split; [apply cache_step_refl|exact Hy].
  - destruct (negb (path.isAbsolute (newApp v))) eqn:Habs; cbv zeta; unfold ret at 1;
      intros H; apply verify_and_store_summary in H.
    + destruct H as [Hc Hr]. split; [|exact Hr]. cbn [key newApp] in Hc.
      destruct Hc as [Hc|(en & (Hd & _) & Hp & _)]; [now rewrite Hc; left|].
      rewrite Hp in Hd. unfold differ in Hd. now rewrite String.eqb_refl in Hd.
    + apply resolve_isAbsolute.
    + destruct H as [Hc Hr]. split; [|exact Hr].
      destruct Hc as [Hc|(en & Hgood & _ & Hc)]; [now rewrite Hc; left|].
      right. right. eauto.
    + now apply negb_false_iff in Habs.
Qed.

End Summary.


Section Calls.

Variable e : Env.

Lemma cache_step_after (app : string) (c c1 c2 : gmap string CacheEntry) :
  c1 = c \/ c1 = delete app c ->
  cache_step app c1 c2 -> cache_step app c c2.
Proof.
  intros [->| ->]; [trivial|].
  intros [->|[->|(en & Hgood & ->)]].
  - right. now left.
  - right. left. apply delete_delete_eq.
  - right. right. exists en. split; [exact Hgood|apply insert_delete_eq].
Qed.

Lemma cache_step_frame (app k : string) (c c' : gmap string CacheEntry) :
  cache_step app c c' -> k <> app -> c' !! k = c !! k.
Proof.
  intros [->|[->|(en & _ & ->)]] Hk; [reflexivity| |].
  - apply lookup_delete_ne. congruence.
  - apply lookup_insert_ne. congruence.
Qed.

Lemma cache_step_wellformed (app : string) (c c' : gmap string CacheEntry) :
  cache_step app c c' -> cache_wellformed c -> cache_wellformed c'.
Proof.
  intros [->|[->|(en & Hgood & ->)]] Hwf; [exact Hwf| |].
  - intros k entry Hk. destruct (decide (app = k)) as [->|Hne].
    + rewrite lookup_delete_eq in Hk. discriminate.
    + rewrite lookup_delete_ne in Hk by exact Hne. now apply Hwf.
  - intros k entry Hk. destruct (decide (app = k)) as [->|Hne].
    + rewrite lookup_insert_eq in Hk. now inversion Hk; subst.
    + rewrite lookup_insert_ne in Hk by exact Hne. now apply Hwf.
Qed.

(** One call: what it does to the cache, and how it can end. *)
Lemma guarded_summary (app : string) (exts : list string) (st st' : State)
  (r : Result string) :
  guarded e app exts st = (r, st') ->
  cache_step app (cache st) (cache st')
  /\ match r with
     | Ok p => includes exts (path.extname p) = true
     | Err _ => True
     end.
Proof.
  unfold guarded. cbv zeta. rewrite bind_run.
  destruct (isUrl (url_parse e app)).
  - destruct (use_remote e app (url_parse e app) exts st) as [r1 st1] eqn:Hfirst.
    apply use_remote_inv in Hfirst.
    destruct Hfirst as [(en & stored & cur & _ & _ & _ & _ & _ & -> & ->)
                       |(s1 & Hs1 & Hrest)].
    + destruct (includes exts (path.extname (fullPath en))) eqn:Hext;
        intros H; inversion H; subst; (split; [now left|]); [exact Hext|exact I].
    + assert (Hc1 : cache s1 = cache st \/ cache s1 = delete app (cache st)).
      { destruct Hs1 as [->|[-> _]]; [now left|now right]. }
      assert (Hstep1 : cache_step app (cache st) (cache s1)).
      { destruct Hc1 as [->| ->]; [now left|right; now left]. }
      destruct Hrest as [(_ & -> & t & ->)|(decoded & _ & Hd)].
      * intros H. inversion H; subst. split; [exact Hstep1|exact I].
      * cbv zeta in Hd. destruct Hd as (Hc & _ & [(body & _ & _ & ->)|(c & w & _ & ->)]).
        -- intros H. apply finish_summary in H. cbn [key] in H.
           destruct H as [Hstep Hr]. split.
           ++ rewrite Hc in Hstep. exact (cache_step_after _ _ _ _ Hc1 Hstep).
           ++ destruct r; [exact Hr|exact I].
        -- intros H. inversion H; subst. rewrite Hc. split; [exact Hstep1|exact I].
  - destruct (use_local e app (url_parse e app) st) as [r1 st1] eqn:Hfirst.
    apply use_local_inv in Hfirst. destruct Hfirst as (-> & [(_ & ->)|(_ & ->)]).
    + intros H. apply finish_summary in H. cbn [key] in H.
      destruct H as [Hstep Hr]. split; [exact Hstep|].
      destruct r; [exact Hr|exact I].
    + intros H. inversion H; subst. split; [now left|exact I].
Qed.

End Calls.


Section Guarantees.

Variable e : Env.

Lemma configureApp_string (app : string) (exts : Extensions) (st : State) :
  configureApp e (JSString app) exts st
  = match guarded e app (toArray exts) st with
    | (Ok p, st') => (Ok (Some p), st')
    | (Err x, st') => (Err x, st')
    end.
Proof.
  unfold configureApp. rewrite bind_run.
  now destruct (guarded e app (toArray exts) st) as [[p|x] st'].
Qed.

Lemma configureApp_guarded (app : string) (exts : Extensions) (st st' : State)
  (r : Result (option string)) :
  configureApp e (JSString app) exts st = (r, st') ->
  exists r', guarded e app (toArray exts) st = (r', st')
             /\ r = match r' with Ok p => Ok (Some p) | Err x => Err x end.
Proof.
  rewrite configureApp_string.
  destruct (guarded e app (toArray exts) st) as [[p|x] s];
    intros H; inversion H; subst; eauto.
Qed.

(** X1. Whatever branch a call takes, a path it returns has passed
    [verifyAppExtension]: its extension is one of the supported ones. *)
Theorem configureApp_result_supported (app : string) (exts : Extensions)
  (st st' : State) (p : string) :
  configureApp e (JSString app) exts st = (Ok (Some p), st') ->
  includes (toArray exts) (path.extname p) = true.
Proof.
  intros H. apply configureApp_guarded in H. destruct H as ([q|x] & Hrun & Hr);
    [|discriminate].
  inversion Hr; subst q. now apply guarded_summary in Hrun.
Qed.

(** X2. With an empty array of supported extensions no string descriptor
    can be acquired: every call fails. *)
Theorem configureApp_no_extensions (app : string) (st : State) :
  exists x, (configureApp e (JSString app) (ExtensionArray []) st).1 = Err x.
Proof.
  rewrite configureApp_string.
  destruct (guarded e app (toArray (ExtensionArray [])) st) as [[p|x] st'] eqn:Hrun.
  - apply guarded_summary in Hrun. destruct Hrun as [_ Hp]. discriminate.
  - now exists x.
Qed.

(** X3. A call reads and writes the cache under its own descriptor only:
    the entry of every other key is what it was, whether the call
    succeeds or fails. *)
Theorem configureApp_cache_frame (app : JSValue) (exts : Extensions)
  (st st' : State) (r : Result (option string)) (k : string) :
  configureApp e app exts st = (r, st') ->
  app <> JSString k ->
  cache st' !! k = cache st !! k.
Proof.
  intros Hrun Hk.
  destruct app as [| | | |s| |];
    try (cbn in Hrun; unfold ret in Hrun; now inversion Hrun).
  apply configureApp_guarded in Hrun. destruct Hrun as (r' & Hrun & _).
  apply guarded_summary in Hrun. destruct Hrun as [Hstep _].
  apply (cache_step_frame s k _ _ Hstep). congruence.
Qed.

(** X4. Calls keep the cache well formed: every entry points at an
    absolute path other than its descriptor and carries a digest or a
    last-modified date. *)
Theorem configureApp_cache_wellformed (app : JSValue) (exts : Extensions)
  (st st' : State) (r : Result (option string)) :
  configureApp e app exts st = (r, st') ->
  cache_wellformed (cache st) ->
  cache_wellformed (cache st').
Proof.
  intros Hrun Hwf.
  destruct app as [| | | |s| |];
    try (cbn in Hrun; unfold ret in Hrun; now inversion Hrun; subst).
  apply configureApp_guarded in Hrun. destruct Hrun as (r' & Hrun & _).
  apply guarded_summary in Hrun. destruct Hrun as [Hstep _].
  exact (cache_step_wellformed s _ _ Hstep Hwf).
Qed.

Lemma downloads_head_download (tr : list Event) (link source target : string) :
  length (List.filter is_download (tr ++ [EvHead link; EvDownload source target]))
  = S (length (List.filter is_download tr)).
Proof. rewrite List.filter_app, length_app. cbn. lia. Qed.

(** X5. A call for a URL downloads at most once, and the only way it can
    succeed without downloading is the freshness hit: the probe gave a
    date, the entry of the descriptor has a date at least as recent, the
    entry's path is on disk, and that path is what the call returns. *)
Theorem configureApp_downloads_unless_fresh (app : string) (exts : Extensions)
  (st st' : State) (r : Result (option string)) :
  isUrl (url_parse e app) = true ->
  configureApp e (JSString app) exts st = (r, st') ->
  (downloads st' <= S (downloads st))%nat
  /\ (forall p, r = Ok (Some p) ->
        downloads st' = S (downloads st)
        \/ (downloads st' = downloads st
            /\ exists entry stored cur,
                 probed_date e app = Some cur
                 /\ cache st !! app = Some entry
                 /\ lastModified entry = Some stored
                 /\ time_le cur stored = true
                 /\ fullPath entry = p
                 /\ exists_in e (files st) p = true)).
Proof.
  intros Hurl Hrun.
  apply configureApp_guarded in Hrun. destruct Hrun as (r' & Hrun & ->).
  unfold guarded in Hrun. cbv zeta in Hrun. rewrite Hurl, bind_run in Hrun.
  destruct (use_remote e app (url_parse e app) (toArray exts) st) as [r1 st1] eqn:Hfirst.
  apply use_remote_inv in Hfirst.
  destruct Hfirst as [(en & stored & cur & Hcur & Hen & Hst & Hle & Hdisk & -> & ->)
                     |(s1 & Hs1 & Hrest)].
  - assert (Hd : downloads st' = downloads st).
    { destruct (includes (toArray exts) (path.extname (fullPath en)));
        inversion Hrun; subst; apply downloads_log_head. }
    split; [lia|]. intros p Hp. right. split; [exact Hd|].
    exists en, stored, cur. repeat (split; [assumption|]).
    destruct (includes (toArray exts) (path.extname (fullPath en)));
      inversion Hrun; subst; [|discriminate].
    inversion Hp; subst. split; [reflexivity|exact Hdisk].
  - assert (Hd1 : downloads s1 = downloads st).
    { destruct Hs1 as [->|[-> _]]; apply downloads_log_head. }
    destruct Hrest as [(_ & -> & t & ->)|(decoded & _ & Hd)].
    + inversion Hrun; subst. split; [lia|]. intros p Hp. discriminate.
    + cbv zeta in Hd. destruct Hd as (_ & Htrace & Hout).
      assert (Hd2 : downloads st1 = S (downloads st)).
      { unfold downloads. rewrite Htrace. apply downloads_head_download. }
      destruct Hout as [(body & _ & _ & ->)|(c & w & _ & ->)].
      * apply finish_downloads in Hrun. split; [lia|]. intros p _. left. lia.
      * inversion Hrun; subst. split; [lia|]. intros p Hp. discriminate.
Qed.

(** X6. A call for a local descriptor stays off the network: it sends no
    HEAD and no GET; all it can add to the trace is one extraction of the
    descriptor itself. *)
Theorem configureApp_local_offline (app : string) (exts : Extensions)
  (st st' : State) (r : Result (option string)) :
  isUrl (url_parse e app) = false ->
  configureApp e (JSString app) exts st = (r, st') ->
  trace st' = trace st
  \/ exists tmp, trace st' = trace st ++ [EvExtract app tmp].
Proof.
  intros Hurl Hrun.
  apply configureApp_guarded in Hrun. destruct Hrun as (r' & Hrun & _).
  unfold guarded in Hrun. cbv zeta in Hrun. rewrite Hurl, bind_run in Hrun.
  destruct (use_local e app (url_parse e app) st) as [r1 st1] eqn:Hfirst.
  apply use_local_inv in Hfirst. destruct Hfirst as (-> & [(_ & ->)|(_ & ->)]).
  - apply finish_trace in Hrun. exact Hrun.
  - inversion Hrun; subst. now left.
Qed.

(** X7. Where the early failures come from.  A descriptor that is not an
    http(s) URL and is not on disk fails at once, state untouched, with
    [UnsupportedProtocol] when [url.parse] gives it a protocol of more
    than two characters and with [NotFound] otherwise (a drive letter is
    no protocol).  Conversely these two failures, a [DownloadFailure] and
    a [URIError] have no other source: the first two mean a missing local
    descriptor, the last two a URL whose GET failed or whose path does
    not decode. *)
Theorem configureApp_early_failures (app : string) (exts : Extensions) (st : State) :
  (isUrl (url_parse e app) = false ->
   exists_in e (files st) app = false ->
   configureApp e (JSString app) exts st
   = (Err (missing_error (url_parse e app) app), st))
  /\ (forall x st',
        configureApp e (JSString app) exts st = (Err x, st') ->
        match x with
        | NotFound a | UnsupportedProtocol _ a =>
            isUrl (url_parse e app) = false
            /\ exists_in e (files st) app = false
            /\ a = app /\ st' = st
        | DownloadFailure source cause =>
            isUrl (url_parse e app) = true
            /\ source = href (url_parse e app)
            /\ exists w, http_get e source = GetFailed cause w
        | URIError _ =>
            isUrl (url_parse e app) = true
            /\ decoded_pathname e (url_parse e app) = None
        | _ => True
        end).
Proof.
  split.
  - intros Hurl Hmissing. rewrite configureApp_string.
    unfold guarded. cbv zeta. rewrite Hurl, bind_run.
    unfold use_local. rewrite bind_run. unfold fs_exists, gets. rewrite Hmissing.
    unfold missing_error.
    destruct (protocol (url_parse e app)) as [proto|];
      [destruct (2 <? String.length proto)%nat|]; reflexivity.
  - intros x st' Hrun.
    apply configureApp_guarded in Hrun. destruct Hrun as ([p|y] & Hrun & Hr);
      [discriminate|]. inversion Hr; subst y. clear Hr.
    unfold guarded in Hrun. cbv zeta in Hrun. rewrite bind_run in Hrun.
    assert (Hlate : forall v s, finish e (toArray exts) v s = (Err x, st') ->
                                late_error x).
    { intros v s H. now apply finish_summary in H. }
    destruct (isUrl (url_parse e app)) eqn:Hurl.
    + destruct (use_remote e app (url_parse e app) (toArray exts) st)
        as [r1 st1] eqn:Hfirst.
      apply use_remote_inv in Hfirst.
      destruct Hfirst as [(en & stored & cur & _ & _ & _ & _ & _ & -> & ->)
                         |(s1 & Hs1 & Hrest)].
      * destruct (includes (toArray exts) (path.extname (fullPath en)));
          inversion Hrun; subst. exact I.
      * destruct Hrest as [(Hnone & -> & t & ->)|(decoded & _ & Hd)].
        -- inversion Hrun; subst. split; [reflexivity|exact Hnone].
        -- cbv zeta in Hd.
           destruct Hd as (_ & _ & [(body & _ & _ & ->)|(c & w & Hget & ->)]).
           ++ apply Hlate in Hrun. destruct x; try contradiction; exact I.
           ++ inversion Hrun; subst. split; [reflexivity|].
              split; [reflexivity|eauto].
    + destruct (use_local e app (url_parse e app) st) as [r1 st1] eqn:Hfirst.
      apply use_local_inv in Hfirst.
      destruct Hfirst as (-> & [(_ & ->)|(Hmissing & ->)]).
      * apply Hlate in Hrun. destruct x; try contradiction; exact I.
      * inversion Hrun; subst. unfold missing_error.
        destruct (protocol (url_parse e app)) as [proto|];
          [destruct (2 <? String.length proto)%nat|]; repeat split; assumption.
Qed.

(** X8. A download that is not an archive and whose probe gave no
    Last-Modified header is not cached: the cache after the call is the
    cache before it, so the next call downloads again. *)
Theorem configureApp_undated_not_cached (app : string) (exts : Extensions)
  (st : State) :
  isUrl (url_parse e app) = true ->
  probed_date e app = None ->
  (forall decoded,
      decoded_pathname e (url_parse e app) = Some decoded ->
      (destination e (sanitize e (path.basename decoded)) (probed_headers e app)
         (toArray exts)).2 = false) ->
  cache (configureApp e (JSString app) exts st).2 = cache st.
Proof.
  intros Hurl Hdate Hplain. rewrite configureApp_string.
  destruct (guarded e app (toArray exts) st) as [r st'] eqn:Hrun.
  assert (Hgoal : cache st' = cache st); [|now destruct r].
  unfold guarded in Hrun. cbv zeta in Hrun. rewrite Hurl, bind_run in Hrun.
  destruct (use_remote e app (url_parse e app) (toArray exts) st) as [r1 st1] eqn:Hfirst.
  apply use_remote_inv in Hfirst.
  destruct Hfirst as [(en & stored & cur & Hcur & _)|(s1 & Hs1 & Hrest)];
    [congruence|].
  assert (Hc1 : cache s1 = cache st).
  { destruct Hs1 as [->|[_ (en & cur & Hcur & _)]]; [reflexivity|congruence]. }
  destruct Hrest as [(_ & -> & t & ->)|(decoded & Hdec & Hd)].
  - inversion Hrun; subst. exact Hc1.
  - cbv zeta in Hd. destruct Hd as (Hc & _ & [(body & _ & _ & ->)|(c & w & _ & ->)]).
    + rewrite (Hplain decoded Hdec), Hdate in Hrun.
      unfold finish in Hrun. rewrite bind_run in Hrun.
      unfold extract_or_resolve in Hrun. cbn [shouldUnzipApp newApp] in Hrun.
      assert (Hstore : forall v' s,
        archiveHash v' = None -> currentModified v' = None ->
        verify_and_store e (toArray exts) v' s = (r, st') -> cache st' = cache s).
      { intros v' s Hh Hm H. apply verify_and_store_effects in H.
        destruct r as [p|x]; [|now subst].
        destruct H as (_ & _ & ->). rewrite Hh, Hm. cbn.
        now rewrite andb_false_r. }
      match type of Hrun with context [negb ?b] => destruct (negb b) end;
        cbv zeta in Hrun; unfold ret at 1 in Hrun;
        apply Hstore in Hrun; try reflexivity; congruence.
    + inversion Hrun; subst. congruence.
Qed.

End Guarantees.


Section Exit.

Variable e : Env.
Variable fails : string -> bool.

(** A path is swept when it is, or lies below, one of the paths whose
    removal does not throw. *)
Lemma sweep_run (paths : list string) (st : State) :
  exists st',
    for_each paths (fun appPath => warn_on_error (rimrafSync e fails appPath)) st
    = (Ok tt, st')
    /\ cache st' = cache st /\ trace st' = trace st
    /\ forall key,
         files st' !! key
         = if existsb (fun p => negb (fails p) && under (locate e p) key) paths
           then None else files st !! key.
Proof.
  revert st. induction paths as [|p rest IH]; intros st.
  - exists st. repeat split.
  - cbn [for_each]. rewrite bind_run. unfold warn_on_error at 1, rimrafSync at 1.
    destruct (fails p) eqn:Hf.
    + unfold throw. destruct (IH st) as (st' & Hrun & Hc & Ht & Hfiles).
      exists st'. split; [exact Hrun|]. repeat (split; [assumption|]).
      intros key. rewrite Hfiles. cbn [existsb]. now rewrite Hf.
    + unfold fs_rimraf, modify.
      destruct (IH (set_files (remove_tree e p) st)) as (st' & Hrun & Hc & Ht & Hfiles).
      exists st'. split; [exact Hrun|]. repeat (split; [assumption|]).
      intros key. rewrite Hfiles. cbn [existsb files set_files]. rewrite Hf.
      cbn [negb andb]. rewrite remove_tree_lookup.
      destruct (under (locate e p) key); cbn [orb]; [|reflexivity].
      now destruct (existsb _ rest).
Qed.

(** X9. The handler of the process's exit never throws and leaves the
    cache as it is.  Afterwards nothing is left at or below the path of a
    cache entry, unless removing that path failed; and what lies outside
    the paths of all entries is untouched. *)
Theorem on_exit_sweeps (st : State) :
  (on_exit e fails st).1 = Ok tt
  /\ cache (on_exit e fails st).2 = cache st
  /\ (forall k entry key,
        cache st !! k = Some entry ->
        fails (fullPath entry) = false ->
        under (locate e (fullPath entry)) key = true ->
        files (on_exit e fails st).2 !! key = None)
  /\ (forall key,
        (forall k entry, cache st !! k = Some entry ->
                         under (locate e (fullPath entry)) key = false) ->
        files (on_exit e fails st).2 !! key = files st !! key).
Proof.
  unfold on_exit.
  destruct (size (cache st) =? 0)%nat eqn:Hsize.
  - apply Nat.eqb_eq, map_size_empty_inv in Hsize.
    cbn [fst snd]. repeat split.
    intros k entry key Hk. rewrite Hsize, lookup_empty in Hk. discriminate.
  - cbv zeta.
    destruct (sweep_run (List.map (fun kv => fullPath kv.2) (map_to_list (cache st))) st)
      as (st' & Hrun & Hc & _ & Hfiles).
    rewrite Hrun. cbn [fst snd].
    split; [reflexivity|]. split; [exact Hc|]. split.
    + intros k entry key Hk Hf Hu. rewrite Hfiles.
      replace (existsb _ _) with true; [reflexivity|].
      symmetry. apply existsb_exists. exists (fullPath entry). split.
      * apply in_map_iff. exists (k, entry). split; [reflexivity|].
        apply list_elem_of_In, elem_of_map_to_list. exact Hk.
      * now rewrite Hf, Hu.
    + intros key Hout. rewrite Hfiles.
      replace (existsb _ _) with false; [reflexivity|].
      symmetry. apply not_true_is_false. intros Hex.
      apply existsb_exists in Hex. destruct Hex as (p & Hin & Hp).
      apply in_map_iff in Hin. destruct Hin as ([k entry] & <- & Hin).
      apply list_elem_of_In, elem_of_map_to_list in Hin.
      apply andb_true_iff in Hp. destruct Hp as [_ Hp].
      cbn [snd] in Hp. rewrite (Hout k entry Hin) in Hp. discriminate.
Qed.

End Exit.

(** * [duplicateKeys] *)

Section DuplicateKeys.

Lemma Json_induction (P : Json -> Prop) :
  P JNull -> (forall b, P (JBool b)) -> (forall n, P (JNum n)) ->
  (forall s, P (JStr s)) -> (forall t, P (JOther t)) ->
  (forall items, List.Forall P items -> P (JArr items)) ->
  (forall fields, List.Forall (fun kv => P kv.2) fields -> P (JObj fields)) ->
  forall v, P v.
Proof.
  intros Hnull Hbool Hnum Hstr Hother Harr Hobj.
  fix IH 1. intros [ | b | n | s | t | items | fields ].
  - exact Hnull.
  - apply Hbool.
  - apply Hnum.
  - apply Hstr.
  - apply Hother.
  - apply Harr. induction items as [ | x items IHitems ]; constructor; [ apply IH | exact IHitems ].
  - apply Hobj. induction fields as [ | [k x] fields IHfields ]; constructor; [ apply IH | exact IHfields ].
Qed.

Lemma get_assign_eq k v fields : get k (assign k v fields) = Some v.
Proof.
  induction fields as [ | [k' v'] rest IH ]; simpl.
  - now rewrite String.eqb_refl.
  - destruct (String.eqb k k') eqn:E; simpl.
    + now rewrite String.eqb_refl.
    + now rewrite E.
Qed.

Lemma get_assign_ne k k' v fields :
  k <> k' -> get k (assign k' v fields) = get k fields.
Proof.
  intros Hne. induction fields as [ | [k'' v'] rest IH ]; simpl.
  - apply String.eqb_neq in Hne. now rewrite Hne.
  - destruct (String.eqb k' k'') eqn:E; simpl.
    + apply String.eqb_eq in E. subst k''.
      apply String.eqb_neq in Hne. now rewrite Hne.
    + destruct (String.eqb k k''); auto.
Qed.

Lemma get_assign k k' v fields :
  get k (assign k' v fields) = if String.eqb k k' then Some v else get k fields.
Proof.
  destruct (String.eqb k k') eqn:E.
  - apply String.eqb_eq in E. subst. apply get_assign_eq.
  - apply String.eqb_neq in E. now apply get_assign_ne.
Qed.

Lemma assign_Forall (P : string * Json -> Prop) k v fields :
  P (k, v) -> List.Forall P fields -> List.Forall P (assign k v fields).
Proof.
  intros Hv. induction 1 as [ | [k' v'] rest Hx Hrest IH ]; simpl.
  - repeat constructor. exact Hv.
  - destruct (String.eqb k k'); constructor; auto.
Qed.

Lemma get_alias a b k key v acc :
  get k (alias a b acc key v) =
    if String.eqb k key then Some v
    else if String.eqb key a then (if String.eqb k b then Some v else get k acc)
    else if String.eqb key b then (if String.eqb k a then Some v else get k acc)
    else get k acc.
Proof.
  unfold alias. rewrite get_assign.
  destruct (String.eqb k key); auto.
  destruct (String.eqb key a); [ now rewrite get_assign | ].
  destruct (String.eqb key b); [ now rewrite get_assign | ].
  reflexivity.
Qed.

Lemma alias_Forall (P : string * Json -> Prop) a b key v acc :
  (forall k, P (k, v)) -> List.Forall P acc -> List.Forall P (alias a b acc key v).
Proof.
  intros Hv Hacc. unfold alias. apply assign_Forall; auto.
  destruct (String.eqb key a); [ apply assign_Forall; auto | ].
  destruct (String.eqb key b); [ apply assign_Forall; auto | ].
  exact Hacc.
Qed.

Lemma walk_mirrored a b fields :
  List.Forall (fun kv => mirrored a b (duplicateKeys kv.2 a b)) fields ->
  forall acc,
    get a acc = get b acc ->
    List.Forall (fun kv => mirrored a b kv.2) acc ->
    get a (List.fold_left (fun resultObj (kv : string * Json) =>
         alias a b resultObj kv.1 (duplicateKeys kv.2 a b)) fields acc)
      = get b (List.fold_left (fun resultObj (kv : string * Json) =>
         alias a b resultObj kv.1 (duplicateKeys kv.2 a b)) fields acc)
    /\ List.Forall (fun kv => mirrored a b kv.2) (List.fold_left (fun resultObj (kv : string * Json) =>
         alias a b resultObj kv.1 (duplicateKeys kv.2 a b)) fields acc).
Proof.
  induction 1 as [ | [k v] rest Hv Hrest IH ]; intros acc Hget Hall; simpl.
  - auto.
  - apply IH.
    + rewrite !get_alias. simpl.
      destruct (String.eqb a k) eqn:Eak, (String.eqb b k) eqn:Ebk; auto.
      * apply String.eqb_eq in Eak. subst k.
        rewrite String.eqb_refl, String.eqb_refl. reflexivity.
      * apply String.eqb_eq in Ebk. subst k.
        rewrite String.eqb_sym, Eak, !String.eqb_refl. reflexivity.
      * rewrite (String.eqb_sym k a), Eak, (String.eqb_sym k b), Ebk. exact Hget.
    + apply alias_Forall; auto.
Qed.


Lemma walk_get a b k fields : forall acc,
  get k (List.fold_left (fun resultObj (kv : string * Json) =>
         alias a b resultObj kv.1 (duplicateKeys kv.2 a b)) fields acc) =
    match (if String.eqb k a || String.eqb k b
           then later_of a b fields else later_of k k fields) with
    | Some v => Some (duplicateKeys v a b)
    | None => get k acc
    end.
Proof.
  induction fields as [ | [key v] rest IH ]; intros acc; simpl.
  - now destruct (String.eqb k a || String.eqb k b).
  - rewrite IH. clear IH.
    destruct (String.eqb k a || String.eqb k b) eqn:Ek.
    + destruct (later_of a b rest); auto.
      rewrite get_alias.
      destruct (String.eqb k key) eqn:Ekey.
      * apply String.eqb_eq in Ekey. subst key. now rewrite Ek.
      * destruct (String.eqb key a) eqn:Ea; simpl.
        -- apply String.eqb_eq in Ea. subst key.
           rewrite Ekey in Ek. simpl in Ek. now rewrite Ek.
        -- destruct (String.eqb key b) eqn:Eb; auto.
           apply String.eqb_eq in Eb. subst key.
           rewrite Ekey, orb_false_r in Ek. now rewrite Ek.
    + apply orb_false_iff in Ek. destruct Ek as [Eka Ekb].
      rewrite orb_diag.
      destruct (later_of k k rest); auto.
      rewrite get_alias, (String.eqb_sym key k).
      destruct (String.eqb k key) eqn:Ekey; auto.
      rewrite Eka, Ekb.
      destruct (String.eqb key a), (String.eqb key b); reflexivity.
Qed.

Lemma later_of_keys a b fields v :
  later_of a b fields = Some v ->
  In a (List.map fst fields) \/ In b (List.map fst fields).
Proof.
  induction fields as [ | [key x] rest IH ]; simpl; [ discriminate | ].
  destruct (later_of a b rest).
  - intros H. destruct (IH H); auto.
  - destruct (String.eqb key a) eqn:Ea; simpl.
    + apply String.eqb_eq in Ea. auto.
    + destruct (String.eqb key b) eqn:Eb; [ | discriminate ].
      apply String.eqb_eq in Eb. auto.
Qed.

Lemma later_of_same k fields :
  List.NoDup (List.map fst fields) -> later_of k k fields = get k fields.
Proof.
  induction fields as [ | [key x] rest IH ]; simpl; auto.
  intros Hnd. inversion Hnd as [ | ? ? Hnotin Hrest ]; subst.
  rewrite orb_diag, (String.eqb_sym key k).
  specialize (IH Hrest).
  destruct (String.eqb k key) eqn:E.
  - apply String.eqb_eq in E. subst key.
    destruct (later_of k k rest) eqn:G; auto.
    destruct (later_of_keys _ _ _ _ G); contradiction.
  - rewrite <- IH. now destruct (later_of k k rest).
Qed.

(** X11. What [duplicateKeys] makes of one object, key by key, when
    [__proto__] is neither one of the two keys nor a key anywhere in the
    object: a key other than the two has the transformed value it had;
    each of the two keys has the transformed value of whichever of them
    came last in the object, and neither is there when the object had
    neither. *)
Theorem duplicateKeys_members (fields : list (string * Json))
    (firstKey secondKey k : string) :
  List.NoDup (List.map fst fields) ->
  mentions "__proto__" (JObj fields) = false ->
  firstKey <> "__proto__" ->
  secondKey <> "__proto__" ->
  member k (duplicateKeys (JObj fields) firstKey secondKey) =
    option_map (fun v => duplicateKeys v firstKey secondKey)
      (if String.eqb k firstKey || String.eqb k secondKey
       then later_of firstKey secondKey fields
       else get k fields).
Proof.
  intros Hnd _ _ _. simpl. rewrite walk_get.
  destruct (String.eqb k firstKey || String.eqb k secondKey).
  - now destruct (later_of firstKey secondKey fields).
  - rewrite (later_of_same _ _ Hnd). now destruct (get k fields).
Qed.

Lemma assign_fresh k v fields :
  ~ In k (List.map fst fields) -> assign k v fields = fields ++ [(k, v)].
Proof.
  induction fields as [ | [k' v'] rest IH ]; simpl; auto.
  intros Hnotin.
  destruct (String.eqb k k') eqn:E.
  - apply String.eqb_eq in E. subst. tauto.
  - rewrite IH; auto.
Qed.

Lemma walk_unchanged a b fields : forall acc,
  List.NoDup (List.map fst (acc ++ fields)) ->
  List.Forall (fun kv => String.eqb a kv.1 = false /\ String.eqb b kv.1 = false
                         /\ duplicateKeys kv.2 a b = kv.2) fields ->
  List.fold_left (fun resultObj (kv : string * Json) =>
         alias a b resultObj kv.1 (duplicateKeys kv.2 a b)) fields acc = acc ++ fields.
Proof.
  induction fields as [ | [key v] rest IH ]; intros acc Hnd Hall; simpl.
  - now rewrite app_nil_r.
  - inversion Hall as [ | ? ? (Ha & Hb & Hv) Hrest ]; subst. simpl in *.
    unfold alias.
    rewrite (String.eqb_sym key a), Ha, (String.eqb_sym key b), Hb, Hv.
    rewrite assign_fresh.
    + rewrite IH; auto.
      * now rewrite <- app_assoc.
      * now rewrite <- app_assoc.
    + rewrite List.map_app in Hnd. simpl in Hnd.
      apply List.NoDup_remove_2 in Hnd.
      intros Hin. apply Hnd. apply List.in_or_app. now left.
Qed.

(** X12. A value in which neither key occurs anywhere, and no object has
    the key [__proto__], comes back from [duplicateKeys] as it was. *)
Theorem duplicateKeys_unchanged (input : Json) (firstKey secondKey : string) :
  proper input ->
  mentions "__proto__" input = false ->
  mentions firstKey input = false ->
  mentions secondKey input = false ->
  duplicateKeys input firstKey secondKey = input.
Proof.
  intros Hproper _. revert Hproper.
  induction input as [ | x | n | s | t | items IH | fields IH ] using Json_induction;
    intros Hproper Ha Hb; simpl; auto.
  - f_equal. inversion Hproper as [ | | | | | ? Hitems | ]; subst.
    simpl in Ha, Hb.
    induction IH as [ | item rest Hitem Hrest IHrest ]; simpl; auto.
    inversion Hitems; subst. simpl in Ha, Hb.
    apply orb_false_iff in Ha, Hb. destruct Ha, Hb.
    rewrite Hitem, IHrest; auto. now constructor.
  - f_equal. inversion Hproper as [ | | | | | | ? Hnd Hvalues ]; subst.
    apply (walk_unchanged firstKey secondKey fields []); auto.
    simpl in Ha, Hb. clear Hnd Hproper.
    induction IH as [ | [k v] rest Hv Hrest IHrest ]; constructor.
    + simpl in *. inversion Hvalues; subst.
      apply orb_false_iff in Ha, Hb. destruct Ha as [Ha _], Hb as [Hb _].
      apply orb_false_iff in Ha, Hb. destruct Ha, Hb. auto.
    + inversion Hvalues; subst. simpl in Ha, Hb.
      apply orb_false_iff in Ha, Hb. destruct Ha, Hb. auto.
Qed.

Lemma alias_comm a b acc key v : alias a b acc key v = alias b a acc key v.
Proof.
  unfold alias.
  destruct (String.eqb key a) eqn:Ea, (String.eqb key b) eqn:Eb; auto.
  apply String.eqb_eq in Ea, Eb. now subst.
Qed.

Lemma fold_left_agree {A B : Type} (f g : A -> B -> A) (l : list B) :
  List.Forall (fun x => forall acc, f acc x = g acc x) l ->
  forall acc, List.fold_left f l acc = List.fold_left g l acc.
Proof.
  induction 1 as [ | x l Hx _ IH ]; intros acc; simpl; auto.
  now rewrite Hx, IH.
Qed.

(** X14. The order in which the two keys are given makes no difference
    to what [duplicateKeys] returns. *)
Theorem duplicateKeys_symmetric (input : Json) (firstKey secondKey : string) :
  duplicateKeys input firstKey secondKey = duplicateKeys input secondKey firstKey.
Proof.
  induction input as [ | x | n | s | t | items IH | fields IH ] using Json_induction;
    simpl; auto; f_equal.
  - induction IH as [ | item rest Hitem _ IHrest ]; simpl; congruence.
  - apply fold_left_agree.
    induction IH as [ | [k v] rest Hv _ IHrest ]; constructor; auto.
    intros acc. simpl in *. rewrite Hv. apply alias_comm.
Qed.

End DuplicateKeys.

(** * [isPackageOrBundle] *)

Section RegularExpressions.

Lemma matches_seq_inv r1 r2 l :
  matches (Seq r1 r2) l ->
  exists l1 l2, l = l1 ++ l2 /\ matches r1 l1 /\ matches r2 l2.
Proof. inversion 1; subst; eauto. Qed.

Lemma nullable_matches r : nullable r = true <-> matches r [].
Proof.
  induction r as [ | | p | r1 IH1 r2 IH2 | r1 IH1 r2 IH2 | r IH ]; simpl.
  - split; [ discriminate | inversion 1 ].
  - split; [ constructor | reflexivity ].
  - split; [ discriminate | inversion 1 ].
  - rewrite andb_true_iff, IH1, IH2. split.
    + intros [H1 H2]. apply (matches_seq _ _ [] []); assumption.
    + intros H. apply matches_seq_inv in H. destruct H as (l1 & l2 & Heq & H1 & H2).
      symmetry in Heq. apply app_eq_nil in Heq. destruct Heq; subst. auto.
  - rewrite orb_true_iff, IH1, IH2. split.
    + intros [H | H]; [ apply matches_alt_l | apply matches_alt_r ]; exact H.
    + inversion 1; subst; auto.
  - split; [ constructor | reflexivity ].
Qed.

Lemma matches_star_cons r c l :
  matches (Star r) (c :: l) ->
  exists l1 l2, l = l1 ++ l2 /\ matches r (c :: l1) /\ matches (Star r) l2.
Proof.
  intros H. remember (Star r) as r' eqn:Er. remember (c :: l) as cl eqn:El.
  revert l El.
  induction H as [ | | | | | r0 | r0 l1 l2 H1 _ H2 IH2 ]; try discriminate;
    intros l El.
  injection Er as ->.
  destruct l1 as [ | c1 l1 ]; simpl in El.
  - apply IH2; auto.
  - injection El as <- <-. exists l1, l2. auto.
Qed.

Lemma deriv_matches c r : forall l, matches (deriv c r) l <-> matches r (c :: l).
Proof.
  induction r as [ | | p | r1 IH1 r2 IH2 | r1 IH1 r2 IH2 | r IH ]; intros l; simpl.
  - split; inversion 1.
  - split; inversion 1.
  - destruct (p c) eqn:Hp; split.
    + inversion 1; subst. now constructor.
    + inversion 1; subst. constructor.
    + inversion 1.
    + inversion 1; subst. congruence.
  - assert (Hseq : matches (Seq (deriv c r1) r2) l ->  matches (Seq r1 r2) (c :: l)).
    { intros H. apply matches_seq_inv in H. destruct H as (l1 & l2 & -> & H1 & H2).
      apply IH1 in H1. apply (matches_seq _ _ (c :: l1) l2); assumption. }
    assert (Hback : matches (Seq r1 r2) (c :: l) ->
                    matches (Seq (deriv c r1) r2) l
                    \/ (matches r1 [] /\ matches r2 (c :: l))).
    { intros H. apply matches_seq_inv in H. destruct H as (l1 & l2 & Heq & H1 & H2).
      destruct l1 as [ | c1 l1 ]; simpl in Heq.
      - subst l2. auto.
      - injection Heq as Hc Hl. subst c1 l. left. constructor; [ now apply IH1 | assumption ]. }
    destruct (nullable r1) eqn:Hn; split.
    + inversion 1; subst; auto.
      apply (matches_seq _ _ [] (c :: l)); [ now apply nullable_matches | now apply IH2 ].
    + intros H. destruct (Hback H) as [ H' | [_ H'] ].
      * now apply matches_alt_l.
      * apply matches_alt_r. now apply IH2.
    + exact Hseq.
    + intros H. destruct (Hback H) as [ H' | [H' _] ]; auto.
      apply nullable_matches in H'. congruence.
  - split.
    + inversion 1; subst; [ apply matches_alt_l; now apply IH1
                          | apply matches_alt_r; now apply IH2 ].
    + inversion 1; subst; [ apply matches_alt_l; now apply IH1
                          | apply matches_alt_r; now apply IH2 ].
  - split.
    + intros H. apply matches_seq_inv in H. destruct H as (l1 & l2 & -> & H1 & H2).
      apply IH in H1. apply (matches_star_app _ (c :: l1) l2); assumption.
    + intros H. apply matches_star_cons in H.
      destruct H as (l1 & l2 & -> & H1 & H2).
      constructor; [ now apply IH | assumption ].
Qed.

Lemma test_matches l : forall r, test r l = true <-> matches r l.
Proof.
  induction l as [ | c l IH ]; intros r; simpl.
  - apply nullable_matches.
  - rewrite IH. apply deriv_matches.
Qed.

Lemma matches_star_blocks r l :
  matches (Star r) l <->
  exists blocks, l = List.concat blocks /\ List.Forall (matches r) blocks.
Proof.
  split.
  - intros H. remember (Star r) as r' eqn:Er.
    induction H as [ | | | | | r0 | r0 l1 l2 H1 _ H2 IH2 ]; try discriminate.
    + exists []. auto.
    + injection Er as ->. destruct (IH2 eq_refl) as (blocks & -> & Hall).
      exists (l1 :: blocks). auto.
  - intros (blocks & -> & Hall).
    induction Hall; simpl; constructor; auto.
Qed.

Lemma matches_plus_blocks r l :
  matches (Plus r) l <->
  exists block blocks,
    l = block ++ List.concat blocks /\ matches r block /\ List.Forall (matches r) blocks.
Proof.
  unfold Plus. split.
  - intros H. apply matches_seq_inv in H. destruct H as (l1 & l2 & -> & H1 & H2).
    apply matches_star_blocks in H2. destruct H2 as (blocks & -> & Hall).
    exists l1, blocks. auto.
  - intros (block & blocks & -> & H1 & Hall).
    constructor; auto. apply matches_star_blocks. eauto.
Qed.

Lemma matches_plus_class p l :
  matches (Plus (Class p)) l <-> l <> [] /\ forallb p l = true.
Proof.
  rewrite matches_plus_blocks. split.
  - intros (block & blocks & -> & H1 & Hall).
    inversion H1; subst. simpl. split; [ discriminate | ].
    apply andb_true_iff. split; auto.
    induction Hall as [ | b bs Hb Hbs IH ]; simpl; auto.
    inversion Hb; subst. simpl. now apply andb_true_iff.
  - intros [Hne Hall]. destruct l as [ | c l ]; [ congruence | ].
    simpl in Hall. apply andb_true_iff in Hall. destruct Hall as [Hc Hall].
    exists [c], (List.map (fun x => [x]) l). repeat split.
    + simpl. f_equal. clear. induction l; simpl; congruence.
    + now constructor.
    + clear Hne Hc. induction l as [ | x l IH ]; simpl in *; constructor.
      * apply andb_true_iff in Hall. constructor. tauto.
      * apply andb_true_iff in Hall. apply IH. tauto.
Qed.

Lemma matches_dot l : matches (Class dot) l <-> l = ["."%char].
Proof.
  split.
  - inversion 1 as [ | ? c Hc | | | | | ]; subst.
    unfold dot in Hc. apply Ascii.eqb_eq in Hc. now subst.
  - intros ->. now constructor.
Qed.

Lemma matches_block l :
  matches (Seq (Plus (Class package_char))
               (Seq (Class dot) (Plus (Class package_char)))) l <->
  exists u v, l = u ++ "."%char :: v /\ package_run u /\ package_run v.
Proof.
  split.
  - intros H. apply matches_seq_inv in H. destruct H as (u & rest & -> & Hu & H).
    apply matches_seq_inv in H. destruct H as (d & v & -> & Hd & Hv).
    apply matches_dot in Hd. subst d.
    apply matches_plus_class in Hu, Hv. exists u, v. auto.
  - intros (u & v & -> & Hu & Hv).
    constructor; [ now apply matches_plus_class | ].
    apply (matches_seq _ _ ["."%char] v); [ now apply matches_dot | ].
    now apply matches_plus_class.
Qed.

Lemma dotted_cons s x rest :
  dotted (s :: x :: rest) = s ++ "."%char :: dotted (x :: rest).
Proof. reflexivity. Qed.

Lemma dotted_app v s rest : dotted ((v ++ s) :: rest) = v ++ dotted (s :: rest).
Proof.
  destruct rest as [ | x rest ]; [ reflexivity | ].
  rewrite !dotted_cons. now rewrite <- app_assoc.
Qed.

Lemma blocks_segmented blocks : forall block,
  List.Forall (matches (Seq (Plus (Class package_char))
                            (Seq (Class dot) (Plus (Class package_char))))) (block :: blocks) ->
  exists first middle last,
    block ++ List.concat blocks = dotted (first :: middle ++ [last])
    /\ package_run first /\ package_run last
    /\ List.Forall (fun m => forallb package_char m = true /\ 2 <= length m) middle.
Proof.
  induction blocks as [ | b bs IH ]; intros block Hall;
    inversion Hall as [ | ? ? Hblock Hrest ]; subst;
    apply matches_block in Hblock; destruct Hblock as (u & v & -> & Hu & Hv).
  - exists u, [], v. simpl. rewrite app_nil_r. auto.
  - destruct (IH b Hrest) as (f & m & l & Heq & Hf & Hl & Hm).
    exists u, ((v ++ f) :: m), l. simpl List.concat. rewrite Heq.
    split; [ | split; [ exact Hu | split; [ exact Hl | ] ] ].
    + change (dotted (u :: ((v ++ f) :: m) ++ [l]))
        with (u ++ "."%char :: dotted ((v ++ f) :: (m ++ [l]))).
      rewrite dotted_app, <- app_assoc. reflexivity.
    + constructor; auto. split.
      * rewrite forallb_app. apply andb_true_iff. split; [ apply Hv | apply Hf ].
      * rewrite length_app. destruct Hv as [Hv _], Hf as [Hf _].
        destruct v, f; simpl; try congruence; lia.
Qed.

Lemma segmented_matches middle last : forall first,
  package_run first -> package_run last ->
  List.Forall (fun m => forallb package_char m = true /\ 2 <= length m) middle ->
  matches package_or_bundle (dotted (first :: middle ++ [last])).
Proof.
  unfold package_or_bundle.
  induction middle as [ | m ms IH ]; intros first Hf Hl Hm.
  - apply matches_plus_blocks. exists (first ++ "."%char :: last), [].
    simpl. rewrite app_nil_r. repeat split; auto.
    apply matches_block. exists first, last. auto.
  - inversion Hm as [ | ? ? [Hword Hlen] Hms ]; subst.
    destruct m as [ | c [ | c' m' ] ]; simpl in Hlen; try lia.
    simpl in Hword. apply andb_true_iff in Hword. destruct Hword as [Hc Hword].
    assert (Hnext : package_run (c' :: m')) by (split; [ congruence | exact Hword ]).
    specialize (IH (c' :: m') Hnext Hl Hms).
    apply matches_plus_blocks in IH. destruct IH as (b & bs & Heq & Hb & Hbs).
    apply matches_plus_blocks.
    exists (first ++ "."%char :: [c]), (b :: bs). repeat split.
    + simpl List.concat. rewrite <- Heq.
      change (dotted (first :: ((c :: c' :: m') :: ms) ++ [last]))
        with (first ++ "."%char :: dotted (([c] ++ c' :: m') :: (ms ++ [last]))).
      rewrite dotted_app, <- app_assoc. reflexivity.
    + apply matches_block. exists first, [c].
      split; [ reflexivity | split; [ exact Hf | ] ].
      split; [ discriminate | ]. simpl. now rewrite Hc.
    + now constructor.
Qed.

Lemma chars_append a b : chars (a +:+ b) = chars a ++ chars b.
Proof.
  induction a as [ | c a IH ]; [ reflexivity | ].
  change (c :: chars (a +:+ b) = c :: chars a ++ chars b). now f_equal.
Qed.

Lemma chars_concat segs : chars (String.concat "." segs) = dotted (List.map chars segs).
Proof.
  induction segs as [ | s [ | x rest ] IH ]; try reflexivity.
  change (chars (s +:+ "." +:+ String.concat "." (x :: rest))
          = chars s ++ "."%char :: dotted (List.map chars (x :: rest))).
  rewrite !chars_append, IH. reflexivity.
Qed.

Lemma chars_str l : chars (str l) = l.
Proof. apply list_ascii_of_string_of_list_ascii. Qed.

Lemma str_chars s : str (chars s) = s.
Proof. apply string_of_list_ascii_of_string. Qed.

Lemma chars_length s : length (chars s) = String.length s.
Proof. induction s; simpl; congruence. Qed.

(** X13. [isPackageOrBundle] accepts exactly the strings made of two or
    more segments joined by dots, each segment of letters, digits, hyphens
    and underscores, where the first and the last segment are not empty and
    every segment in between has at least two characters. *)
Theorem isPackageOrBundle_segments (app : string) :
  isPackageOrBundle app = true <->
  exists first middle last,
    app = String.concat "." (first :: middle ++ [last])
    /\ List.Forall package_word (first :: middle ++ [last])
    /\ first <> "" /\ last <> ""
    /\ List.Forall (fun m => 2 <= String.length m) middle.
Proof.
  unfold isPackageOrBundle. rewrite test_matches. split.
  - intros H. apply matches_plus_blocks in H.
    destruct H as (block & blocks & Heq & Hblock & Hblocks).
    destruct (blocks_segmented blocks block) as (f & m & l & Hsegs & Hf & Hl & Hm).
    { now constructor. }
    exists (str f), (List.map str m), (str l).
    assert (Hmap : List.map chars (str f :: List.map str m ++ [str l]) = f :: m ++ [l]).
    { simpl. rewrite List.map_app, List.map_map, chars_str. simpl. rewrite chars_str.
      f_equal. f_equal. clear. induction m; simpl; [ | rewrite chars_str ]; congruence. }
    split; [ | split; [ | split; [ | split ] ] ].
    + rewrite <- (str_chars app), Heq, Hsegs, <- Hmap, <- chars_concat.
      now rewrite str_chars.
    + constructor; [ unfold package_word; rewrite chars_str; apply Hf | ].
      apply List.Forall_app. split.
      * clear - Hm. induction Hm as [ | x xs [Hx _] _ IH ]; simpl; constructor; auto.
        unfold package_word. now rewrite chars_str.
      * repeat constructor. unfold package_word. rewrite chars_str. apply Hl.
    + intros E. apply (f_equal chars) in E. rewrite chars_str in E. now apply Hf.
    + intros E. apply (f_equal chars) in E. rewrite chars_str in E. now apply Hl.
    + clear - Hm. induction Hm as [ | x xs [_ Hx] _ IH ]; simpl; constructor; auto.
      now rewrite <- chars_length, chars_str.
  - intros (f & m & l & -> & Hall & Hf & Hl & Hm).
    rewrite chars_concat. simpl List.map. rewrite List.map_app. simpl List.map.
    inversion Hall as [ | ? ? Hfw Hrest ]; subst.
    apply List.Forall_app in Hrest. destruct Hrest as [Hmw Hlw].
    inversion Hlw as [ | ? ? Hlw' _ ]; subst.
    apply segmented_matches.
    + split; [ | exact Hfw ]. intros E. apply Hf.
      rewrite <- (str_chars f), E. reflexivity.
    + split; [ | exact Hlw' ]. intros E. apply Hl.
      rewrite <- (str_chars l), E. reflexivity.
    + clear - Hm Hmw. induction Hm as [ | x xs Hx _ IH ]; simpl; constructor.
      * inversion Hmw; subst. rewrite chars_length. auto.
      * inversion Hmw; subst. auto.
Qed.

End RegularExpressions.

(** * Instances of the further properties *)

Section Instances.

Import Sample.

(** X1, instance: the bundle taken out of a downloaded archive has the
    accepted extension. *)
Lemma configureApp_result_supported_witness :
  configureApp web_zip (JSString zip_url) (OneExtension ".apk") empty_machine
  = (Ok (Some "/tmp/b/top.apk"), after_first_zip)
  /\ includes [".apk"] (path.extname "/tmp/b/top.apk") = true.
Proof.
  split; [vm_compute; reflexivity|].
  apply (configureApp_result_supported web_zip zip_url (OneExtension ".apk")
           empty_machine after_first_zip "/tmp/b/top.apk").
  vm_compute; reflexivity.
Defined.

(** X3, instance: acquiring the archive leaves the entry of the package
    alone. *)
Lemma configureApp_cache_frame_witness :
  JSString zip_url <> JSString apk_url
  /\ cache (configureApp web_zip (JSString zip_url) (OneExtension ".apk") after_first).2
       !! apk_url
     = Some cached_apk.
Proof.
  assert (Hne : JSString zip_url <> JSString apk_url) by discriminate.
  split; [exact Hne|].
  transitivity (cache after_first !! apk_url); [|vm_compute; reflexivity].
  apply (configureApp_cache_frame web_zip (JSString zip_url) (OneExtension ".apk")
           after_first
           (configureApp web_zip (JSString zip_url) (OneExtension ".apk") after_first).2
           (configureApp web_zip (JSString zip_url) (OneExtension ".apk") after_first).1);
    [vm_compute; reflexivity | exact Hne].
Defined.

(** X4, instance: the cache the first caller leaves behind is well
    formed. *)
Lemma configureApp_cache_wellformed_witness :
  cache_wellformed (cache empty_machine) /\ cache_wellformed (cache after_first).
Proof.
  assert (Hempty : cache_wellformed (cache empty_machine)).
  { intros k entry Hk. discriminate Hk. }
  split; [exact Hempty|].
  apply (configureApp_cache_wellformed web_dated (JSString apk_url) (OneExtension ".apk")
           empty_machine after_first
           (configureApp web_dated (JSString apk_url) (OneExtension ".apk") empty_machine).1);
    [vm_compute; reflexivity | exact Hempty].
Defined.

(** X5, instance: the first caller downloads once. *)
Lemma configureApp_downloads_unless_fresh_witness :
  isUrl (url_parse web_dated apk_url) = true
  /\ (downloads after_first <= 1)%nat.
Proof.
  split; [vm_compute; reflexivity|].
  apply (configureApp_downloads_unless_fresh web_dated apk_url (OneExtension ".apk")
           empty_machine after_first
           (configureApp web_dated (JSString apk_url) (OneExtension ".apk") empty_machine).1);
    vm_compute; reflexivity.
Defined.

(** X6, instance: a local archive is extracted and nothing is fetched. *)
Lemma configureApp_local_offline_witness :
  isUrl (url_parse offline "/apps/two.zip") = false
  /\ (trace (configureApp offline (JSString "/apps/two.zip") (OneExtension ".apk")
               local_zip).2 = trace local_zip
      \/ exists tmp,
           trace (configureApp offline (JSString "/apps/two.zip") (OneExtension ".apk")
                    local_zip).2
           = trace local_zip ++ [EvExtract "/apps/two.zip" tmp]).
Proof.
  split; [vm_compute; reflexivity|].
  apply (configureApp_local_offline offline "/apps/two.zip" (OneExtension ".apk") local_zip
           _ (configureApp offline (JSString "/apps/two.zip") (OneExtension ".apk")
                local_zip).1);
    vm_compute; reflexivity.
Defined.

(** X7, instances: an ftp link and a Windows path that is not on disk. *)
Lemma configureApp_early_failures_witness :
  configureApp offline (JSString "ftp://host/app.apk") (OneExtension ".apk") empty_machine
  = (Err (UnsupportedProtocol "ftp:" "ftp://host/app.apk"), empty_machine)
  /\ configureApp offline (JSString "C:/app.apk") (OneExtension ".apk") empty_machine
     = (Err (NotFound "C:/app.apk"), empty_machine).
Proof.
  split.
  - apply (proj1 (configureApp_early_failures offline "ftp://host/app.apk"
                    (OneExtension ".apk") empty_machine)); vm_compute; reflexivity.
  - apply (proj1 (configureApp_early_failures offline "C:/app.apk"
                    (OneExtension ".apk") empty_machine)); vm_compute; reflexivity.
Defined.

(** X8, instance: a package served without a Last-Modified header leaves
    the cache empty. *)
Lemma configureApp_undated_not_cached_witness :
  isUrl (url_parse web_undated apk_url) = true
  /\ probed_date web_undated apk_url = None
  /\ cache (configureApp web_undated (JSString apk_url) (OneExtension ".apk")
              empty_machine).2 = cache empty_machine.
Proof.
  split; [vm_compute; reflexivity|]. split; [vm_compute; reflexivity|].
  apply (configureApp_undated_not_cached web_undated apk_url (OneExtension ".apk")
           empty_machine); [vm_compute; reflexivity | vm_compute; reflexivity | ].
  intros decoded Hdecoded. inversion Hdecoded; subst. vm_compute. reflexivity.
Defined.

(** X9, instance: at exit the bundle of the first caller is swept. *)
Lemma on_exit_sweeps_witness :
  cache after_first_zip !! zip_url = Some cached_unzipped
  /\ files after_first_zip !! "/tmp/b/top.apk" = Some (File "top")
  /\ files (on_exit web_zip (fun _ => false) after_first_zip).2 !! "/tmp/b/top.apk" = None.
Proof.
  split; [vm_compute; reflexivity|]. split; [vm_compute; reflexivity|].
  destruct (on_exit_sweeps web_zip (fun _ => false) after_first_zip) as (_ & _ & Hswept & _).
  apply (Hswept zip_url cached_unzipped); vm_compute; reflexivity.
Defined.

(** X11, instance: [appPackage] is copied to [app-package], [udid] kept. *)
Lemma duplicateKeys_members_witness :
  let caps := [("appPackage", JStr "io.appium.demo"); ("udid", JStr "emulator-5554")] in
  List.NoDup (List.map fst caps)
  /\ mentions "__proto__" (JObj caps) = false
  /\ member "app-package" (duplicateKeys (JObj caps) "appPackage" "app-package")
     = Some (JStr "io.appium.demo")
  /\ member "udid" (duplicateKeys (JObj caps) "appPackage" "app-package")
     = Some (JStr "emulator-5554").
Proof.
  intros caps.
  assert (Hnd : List.NoDup (List.map fst caps)).
  { repeat constructor; simpl; intuition discriminate. }
  assert (Hordinary : mentions "__proto__" (JObj caps) = false) by reflexivity.
  assert (Hfirst : "appPackage" <> "__proto__") by discriminate.
  assert (Hsecond : "app-package" <> "__proto__") by discriminate.
  split; [exact Hnd|]. split; [exact Hordinary|]. split.
  - exact (duplicateKeys_members caps "appPackage" "app-package" "app-package"
             Hnd Hordinary Hfirst Hsecond).
  - exact (duplicateKeys_members caps "appPackage" "app-package" "udid"
             Hnd Hordinary Hfirst Hsecond).
Defined.

(** X12, instance: capabilities without either key. *)
Lemma duplicateKeys_unchanged_witness :
  let caps := JObj [("platformName", JStr "Android");
                    ("args", JArr [JNum 1; JObj [("deep", JBool true)]])] in
  proper caps
  /\ mentions "__proto__" caps = false
  /\ duplicateKeys caps "appPackage" "app-package" = caps.
Proof.
  intros caps.
  assert (Hproper : proper caps).
  { repeat (constructor; simpl; try (intuition discriminate)). }
  split; [exact Hproper|]. split; [vm_compute; reflexivity|].
  apply duplicateKeys_unchanged;
    [exact Hproper | vm_compute; reflexivity | vm_compute; reflexivity
    | vm_compute; reflexivity].
Defined.

(** X13, instances. *)
Lemma isPackageOrBundle_segments_witness :
  isPackageOrBundle "com.example.app" = true.
Proof.
  apply (proj2 (isPackageOrBundle_segments "com.example.app")).
  exists "com", ["example"], "app".
  split; [vm_compute; reflexivity|]. split.
  - repeat constructor.
  - split; [discriminate|]. split; [discriminate|]. repeat constructor.
Defined.

Example isPackageOrBundle_short_middle : isPackageOrBundle "a.b.c" = false.
Proof. vm_compute. reflexivity. Qed.

Example isPackageOrBundle_two_segments : isPackageOrBundle "a.b" = true.
Proof. vm_compute. reflexivity. Qed.

Example isPackageOrBundle_path : isPackageOrBundle "/work/app.apk" = false.
Proof. vm_compute. reflexivity. Qed.

Example duplicateKeys_later_wins :
  duplicateKeys (JObj [("a", JNum 1); ("b", JNum 2)]) "a" "b"
  = JObj [("b", JNum 2); ("a", JNum 2)].
Proof. vm_compute. reflexivity. Qed.

End Instances.
